(** * Entropy coders: a shallow embedding of [coders/huffman.py] and
      [coders/arithmetic.py], and the properties of their specification.

    Python values are embedded as follows.
    - [int] is [Z]; [//] is [Z.div] (both round towards minus infinity),
      [<<], [>>], [&], [|], [^] are [Z.shiftl], [Z.shiftr], [Z.land], [Z.lor],
      [Z.lxor].
    - [bytes], [bytearray] and [memoryview] are [list byte]; the conversion
      of an [int] outside [range(256)] to a byte raises, as in Python.
    - a [str] over the alphabet '0'/'1' is a [list bool] ([true] is '1').
    - a [dict] (and a [Counter]) is an association list in insertion order
      with unique keys, updated in place.
    - a raised exception is a value [Raise e line] carrying the exception
      class and the line of the source file that raises it. *)

From Stdlib Require Import ZArith List Lia Bool Permutation Arith Sorted.
From Stdlib Require Import Init.Byte Strings.Byte.
From Stdlib Require String.
Import ListNotations.
Local Open Scope Z_scope.

(** ** Python runtime pieces used by both coders *)

Module Py.

Inductive exn : Type :=
| ValueError          (* bytes([v]) / bytearray.append(v), v not in range(256) *)
| OverflowError       (* int.to_bytes: int too big to convert *)
| IndexError          (* index out of range *)
| KeyError            (* missing dict key *)
| ZeroDivisionError
| UnboundLocalError
| OutOfFuel.          (* the bounded unrolling of a [while True] ran out *)

Inductive result (A : Type) : Type :=
| Ok (a : A)
| Raise (e : exn) (line : nat).
Arguments Ok {A} a.
Arguments Raise {A} e line.

Definition bind {A B} (m : result A) (k : A -> result B) : result B :=
  match m with
  | Ok a => k a
  | Raise e l => Raise e l
  end.

Definition is_ok {A} (m : result A) : bool :=
  match m with Ok _ => true | Raise _ _ => false end.

Fixpoint mapM {A B} (f : A -> result B) (l : list A) : result (list B) :=
  match l with
  | [] => Ok []
  | x :: t => bind (f x) (fun y => bind (mapM f t) (fun ys => Ok (y :: ys)))
  end.

(** [a // b] *)
Definition floordiv (line : nat) (a b : Z) : result Z :=
  if b =? 0 then Raise ZeroDivisionError line else Ok (a / b).

(** *** Bytes *)

Definition byte_val (b : byte) : Z := Z.of_N (Byte.to_N b).

(** [bytes([z])[0]]: defined on [range(256)] only. *)
Definition mk_byte (z : Z) : option byte :=
  if (0 <=? z) && (z <? 256) then Byte.of_N (Z.to_N z) else None.

(** The byte of value [z mod 256]. *)
Definition byte_wrap (z : Z) : byte :=
  match Byte.of_N (Z.to_N (z mod 256)) with
  | Some b => b
  | None => x00
  end.

(** [bytes([z])[0]], raising [ValueError] at [line]. *)
Definition byte_of_int (line : nat) (z : Z) : result byte :=
  match mk_byte z with
  | Some b => Ok b
  | None => Raise ValueError line
  end.

(** [bytes(l)] for a list of ints. *)
Definition bytes_of_ints (line : nat) (l : list Z) : result (list byte) :=
  mapM (byte_of_int line) l.

(** The [len] big-endian digits of [n] in base 256. *)
Fixpoint be_digits (len : nat) (n : Z) : list byte :=
  match len with
  | O => []
  | S k => byte_wrap (n / 256 ^ Z.of_nat k) :: be_digits k n
  end.

(** [n.to_bytes(len, "big")] *)
Definition to_bytes (line : nat) (n : Z) (len : nat) : result (list byte) :=
  if (0 <=? n) && (n <? 256 ^ Z.of_nat len) then Ok (be_digits len n)
  else Raise OverflowError line.

(** [int.from_bytes(l, "big")] *)
Definition from_bytes (l : list byte) : Z :=
  fold_left (fun acc b => acc * 256 + byte_val b) l 0.

(** [len(l)] as a Python int. *)
Definition len {A} (l : list A) : Z := Z.of_nat (length l).

(** [l[i:j]] for [0 <= i <= j]. *)
Definition slice {A} (l : list A) (i j : nat) : list A :=
  firstn (j - i) (skipn i l).

(** [l[i]] for [0 <= i], raising [IndexError] at [line]. *)
Definition index {A} (line : nat) (l : list A) (i : nat) : result A :=
  match nth_error l i with
  | Some x => Ok x
  | None => Raise IndexError line
  end.

(** [range(0, n, 8)] *)
Definition range8 (n : nat) : list nat :=
  map (fun k => (8 * k)%nat) (seq 0 ((n + 7) / 8)).

(** *** Dictionaries in insertion order *)

Section Dict.
Context {K V : Type} (eqb : K -> K -> bool).

Fixpoint get (d : list (K * V)) (k : K) : option V :=
  match d with
  | [] => None
  | (k', v) :: t => if eqb k k' then Some v else get t k
  end.

(** [d[k] = v]: an existing key keeps its place. *)
Fixpoint set (d : list (K * V)) (k : K) (v : V) : list (K * V) :=
  match d with
  | [] => [(k, v)]
  | (k', v') :: t => if eqb k k' then (k', v) :: t else (k', v') :: set t k v
  end.

(** [d[k]], raising [KeyError] at [line]. *)
Definition getitem (line : nat) (d : list (K * V)) (k : K) : result V :=
  match get d k with
  | Some v => Ok v
  | None => Raise KeyError line
  end.

(** [d.update(e)] *)
Definition update (d e : list (K * V)) : list (K * V) :=
  fold_left (fun acc kv => set acc (fst kv) (snd kv)) e d.

(** [{k: v for (k, v) in l}] *)
Definition dict_of (l : list (K * V)) : list (K * V) := update [] l.

Definition keys (d : list (K * V)) : list K := map fst d.
End Dict.

(** One step of [Counter(data)]: count the byte [b]. *)
Definition tally (d : list (Z * Z)) (b : byte) : list (Z * Z) :=
  let s := byte_val b in
  match get Z.eqb d s with
  | Some c => set Z.eqb d s (c + 1)
  | None => set Z.eqb d s 1
  end.

(** [Counter(data)]: counts in order of first occurrence. *)
Definition Counter (data : list byte) : list (Z * Z) :=
  fold_left tally data [].

(** [c[k]] on a [Counter]: a missing key counts 0. *)
Definition count (c : list (Z * Z)) (k : Z) : Z :=
  match get Z.eqb c k with
  | Some v => v
  | None => 0
  end.

(** *** [sorted]: a stable sort *)

Section Sorted.
Context {A : Type} (leb : A -> A -> bool).

Fixpoint insert (x : A) (l : list A) : list A :=
  match l with
  | [] => [x]
  | y :: t => if leb x y then x :: y :: t else y :: insert x t
  end.

Definition sorted (l : list A) : list A := fold_right insert [] l.
End Sorted.

End Py.

Import Py.

Declare Scope py_scope.
Notation "x <- m ;; k" := (bind m (fun x => k))
  (at level 61, m at next level, right associativity) : py_scope.
Notation "' p <- m ;; k" := (bind m (fun x => match x with p => k end))
  (at level 61, p pattern, m at next level, right associativity) : py_scope.
Local Open Scope py_scope.

(** ** [coders/arithmetic.py] *)

Module Arithmetic.

Definition _TOP : Z := Z.shiftl 1 32.
Definition _HALF : Z := Z.shiftl 1 31.
Definition _QTR : Z := Z.shiftl 1 30.

(** *** [class _BitOut] *)
Module _BitOut.
(** [self.bits] *)
Definition t := list Z.

Definition init : t := [].

Definition put (bits : t) (bit : Z) : t := bits ++ [Z.land bit 1].

Definition extend (bits : t) (bit : Z) (n : Z) : t :=
  bits ++ repeat (Z.land bit 1) (Z.to_nat n).

(** The inner loop of [finish]: [byte = (byte << 1) | b]. *)
Definition pack_byte (chunk : list Z) : Z :=
  fold_left (fun byte b => Z.lor (Z.shiftl byte 1) b) chunk 0.

Definition finish (bits : t) : result (list byte) :=
  let bits := bits ++ repeat 0 (Z.to_nat ((- len bits) mod 8)) in
  mapM (fun i => byte_of_int 47 (pack_byte (slice bits i (i + 8))))
       (range8 (length bits)).
End _BitOut.

(** *** [class _BitIn] *)
Module _BitIn.
Record t := mk { bits : list Z; idx : nat }.

(** [__init__]: bit [i] of every byte, for [i] from 7 down to 0. *)
Definition init (blob : list byte) : t :=
  mk (flat_map
        (fun b => map (fun i => Z.land (Z.shiftr (byte_val b) i) 1)
                      [7; 6; 5; 4; 3; 2; 1; 0])
        blob)
     0.

Definition get (s : t) : Z * t :=
  if (length (bits s) <=? idx s)%nat then (0, s)
  else (nth (idx s) (bits s) 0, mk (bits s) (S (idx s))).
End _BitIn.

(** *** [ArithmeticCoder.encode] *)

Record enc_state := mkEnc { low : Z; high : Z; pending : Z; bout : _BitOut.t }.

(** The closure [emit]. *)
Definition emit (bit : Z) (st : enc_state) : enc_state :=
  let b := _BitOut.put (bout st) bit in
  if pending st =? 0 then mkEnc (low st) (high st) (pending st) b
  else mkEnc (low st) (high st) 0 (_BitOut.extend b (Z.lxor bit 1) (pending st)).

(** Lines 110-112: narrowing the interval for the byte [b]. *)
Definition enc_narrow (freq cum : list (Z * Z)) (total : Z) (b : Z)
    (st : enc_state) : result enc_state :=
  let r := high st - low st + 1 in
  c <- getitem Z.eqb 111 cum b ;;
  q <- floordiv 111 (r * c) total ;;
  let low' := low st + q in
  q' <- floordiv 112 (r * count freq b) total ;;
  Ok (mkEnc low' (low' + q' - 1) (pending st) (bout st)).

(** Lines 124-125. *)
Definition enc_shift (st : enc_state) : enc_state :=
  mkEnc (Z.land (Z.shiftl (low st) 1) (_TOP - 1))
        (Z.land (Z.lor (Z.shiftl (high st) 1) 1) (_TOP - 1))
        (pending st) (bout st).

(** One pass through the body of the [while True] of lines 115-125;
    [None] is the [break]. *)
Definition enc_renorm_body (st : enc_state) : option enc_state :=
  if high st <? _HALF then Some (enc_shift (emit 0 st))
  else if low st >=? _HALF then
    Some (enc_shift
            (emit 1 (mkEnc (low st - _HALF) (high st - _HALF)
                           (pending st) (bout st))))
  else if (low st >=? _QTR) && (high st <? 3 * _QTR) then
    Some (enc_shift (mkEnc (low st - _QTR) (high st - _QTR)
                           (pending st + 1) (bout st)))
  else None.

Fixpoint enc_renorm (fuel : nat) (st : enc_state) : option enc_state :=
  match fuel with
  | O => None
  | S f =>
      match enc_renorm_body st with
      | None => Some st
      | Some st' => enc_renorm f st'
      end
  end.

(** Passes of a renormalisation loop: never more than this many are
    needed (lemma [renorm_fuel_enough]). *)
Definition renorm_fuel : nat := 70.

(** The body of [for b in data]. *)
Definition enc_symbol (freq cum : list (Z * Z)) (total : Z)
    (st : enc_state) (b : byte) : result enc_state :=
  st1 <- enc_narrow freq cum total (byte_val b) st ;;
  match enc_renorm renorm_fuel st1 with
  | Some st2 => Ok st2
  | None => Raise OutOfFuel 115
  end.

Fixpoint enc_loop (freq cum : list (Z * Z)) (total : Z)
    (st : enc_state) (data : list byte) : result enc_state :=
  match data with
  | [] => Ok st
  | b :: rest =>
      st' <- enc_symbol freq cum total st b ;;
      enc_loop freq cum total st' rest
  end.

(** Lines 128-129. *)
Definition enc_final (st : enc_state) : enc_state :=
  let st := mkEnc (low st) (high st) (pending st + 1) (bout st) in
  emit (if low st <? _QTR then 0 else 1) st.

(** Lines 89-95: the sorted symbols, the total and the cumulative table. *)
Definition enc_symbols (freq : list (Z * Z)) : list Z :=
  sorted Z.leb (keys freq).

Definition enc_cum_list (freq : list (Z * Z)) (symbols : list Z) : list Z :=
  fst (fold_left
         (fun '(cum, running) s =>
            let running := running + count freq s in
            (cum ++ [running], running))
         symbols ([0], 0)).

Definition enc_tables (freq : list (Z * Z)) : list Z * Z * list (Z * Z) :=
  let symbols := enc_symbols freq in
  let cum := enc_cum_list freq symbols in
  let total := last cum 0 in
  (symbols, total, dict_of Z.eqb (combine symbols cum)).

Definition enc_init : enc_state := mkEnc 0 (_TOP - 1) 0 _BitOut.init.

Definition RUN : list byte := [x52; x55; x4e].

Definition encode (data : list byte) : result (list byte) :=
  match data with
  | [] => Ok []
  | _ =>
      let freq := Counter data in
      if (length freq =? 1)%nat then
        sym <- index 85 (keys freq) 0 ;;
        s <- bytes_of_ints 86 [sym] ;;
        n <- to_bytes 86 (len data) 4 ;;
        Ok (RUN ++ s ++ n)
      else
        let '(symbols, total, cum) := enc_tables freq in
        st <- enc_loop freq cum total enc_init data ;;
        code_bits <- _BitOut.finish (bout (enc_final st)) ;;
        h_len <- to_bytes 134 (len data) 4 ;;
        h_cnt <- bytes_of_ints 135 [len symbols] ;;
        h_tab <- mapM (fun s =>
                         a <- bytes_of_ints 137 [s] ;;
                         f <- to_bytes 138 (count freq s) 4 ;;
                         Ok (a ++ f))
                      symbols ;;
        Ok (h_len ++ h_cnt ++ concat h_tab ++ code_bits)
  end.

(** *** [ArithmeticCoder.decode] *)

(** [blob.startswith(b"RUN")] *)
Definition startswith_RUN (blob : list byte) : bool :=
  match blob with
  | x52 :: x55 :: x4e :: _ => true
  | _ => false
  end.

(** The shortcut shared by both decoders (lines 145-148). *)
Definition decode_run (line : nat) (blob : list byte) : result (list byte) :=
  sym <- index line blob 3 ;;
  let n := from_bytes (slice blob 4 8) in
  Ok (repeat sym (Z.to_nat n)).

Record header := mkHeader {
  h_n : Z;                     (* declared number of symbols to decode *)
  h_symbols : list Z;          (* in header order *)
  h_freq : list (Z * Z);
  h_total : Z;
  h_pos : nat                  (* index of the first payload byte *)
}.

(** Lines 157-160, [sc] times. *)
Fixpoint parse_table (mv : list byte) (sc : nat) (i : nat)
    (symbols : list Z) (freq : list (Z * Z)) (total : Z)
  : result (list Z * list (Z * Z) * Z * nat) :=
  match sc with
  | O => Ok (symbols, freq, total, i)
  | S k =>
      s <- index 158 mv i ;;
      let f := from_bytes (slice mv (i + 1) (i + 5)) in
      parse_table mv k (i + 5) (symbols ++ [byte_val s])
                  (set Z.eqb freq (byte_val s) f) (total + f)
  end.

Definition parse_header (mv : list byte) : result header :=
  let n := from_bytes (slice mv 0 4) in
  sc <- index 153 mv 4 ;;
  '(symbols, freq, total, i) <-
     parse_table mv (Z.to_nat (byte_val sc)) 5 [] [] 0 ;;
  Ok (mkHeader n symbols freq total i).

(** Lines 162-165. *)
Definition dec_cum (symbols : list Z) (freq : list (Z * Z))
  : result (list (Z * Z)) :=
  r <- (fix go (l : list Z) (cum : list (Z * Z)) (run : Z) :=
          match l with
          | [] => Ok (cum, run)
          | s :: t =>
              f <- getitem Z.eqb 165 freq s ;;
              go t (set Z.eqb cum s run) (run + f)
          end) (sorted Z.leb symbols) [] 0 ;;
  Ok (fst r).

Record dec_state := mkDec { d_low : Z; d_high : Z; d_code : Z; d_in : _BitIn.t }.

(** Lines 170-171, [k] times. *)
Fixpoint dec_fill (k : nat) (code : Z) (bitin : _BitIn.t) : Z * _BitIn.t :=
  match k with
  | O => (code, bitin)
  | S k' =>
      let '(b, bitin') := _BitIn.get bitin in
      dec_fill k' (Z.lor (Z.shiftl code 1) b) bitin'
  end.

(** Lines 180-182: the symbol left in [s] by the [for ... break]; [cur] is
    the value [s] has before the loop, if it is bound. *)
Fixpoint dec_scan (freq cum : list (Z * Z)) (scaled : Z) (symbols : list Z)
    (cur : option Z) : result (option Z) :=
  match symbols with
  | [] => Ok cur
  | s :: t =>
      c <- getitem Z.eqb 181 cum s ;;
      f <- getitem Z.eqb 181 freq s ;;
      if (scaled <? c + f) && (c <=? scaled) then Ok (Some s)
      else dec_scan freq cum scaled t (Some s)
  end.

(** Lines 186-187. *)
Definition dec_narrow (freq cum : list (Z * Z)) (total : Z) (s : Z)
    (st : dec_state) : result dec_state :=
  let r := d_high st - d_low st + 1 in
  c <- getitem Z.eqb 186 cum s ;;
  q <- floordiv 186 (r * c) total ;;
  let low' := d_low st + q in
  f <- getitem Z.eqb 187 freq s ;;
  q' <- floordiv 187 (r * f) total ;;
  Ok (mkDec low' (low' + q' - 1) (d_code st) (d_in st)).

(** Lines 199-201. *)
Definition dec_shift (st : dec_state) : dec_state :=
  let '(b, bitin) := _BitIn.get (d_in st) in
  mkDec (Z.land (Z.shiftl (d_low st) 1) (_TOP - 1))
        (Z.land (Z.lor (Z.shiftl (d_high st) 1) 1) (_TOP - 1))
        (Z.land (Z.lor (Z.shiftl (d_code st) 1) b) (_TOP - 1))
        bitin.

(** One pass through the body of the [while True] of lines 190-201. *)
Definition dec_renorm_body (st : dec_state) : option dec_state :=
  if d_high st <? _HALF then Some (dec_shift st)
  else if d_low st >=? _HALF then
    Some (dec_shift (mkDec (d_low st - _HALF) (d_high st - _HALF)
                           (d_code st - _HALF) (d_in st)))
  else if (d_low st >=? _QTR) && (d_high st <? 3 * _QTR) then
    Some (dec_shift (mkDec (d_low st - _QTR) (d_high st - _QTR)
                           (d_code st - _QTR) (d_in st)))
  else None.

Fixpoint dec_renorm (fuel : nat) (st : dec_state) : option dec_state :=
  match fuel with
  | O => None
  | S f =>
      match dec_renorm_body st with
      | None => Some st
      | Some st' => dec_renorm f st'
      end
  end.

(** The body of [while len(out) < n]: the byte appended, the symbol left
    in [s] and the next state. *)
Definition dec_symbol (h : header) (cum : list (Z * Z)) (s0 : option Z)
    (st : dec_state) : result (byte * Z * dec_state) :=
  let r := d_high st - d_low st + 1 in
  scaled <- floordiv 179 ((d_code st - d_low st + 1) * h_total h - 1) r ;;
  found <- dec_scan (h_freq h) cum scaled (h_symbols h) s0 ;;
  match found with
  | None => Raise UnboundLocalError 183
  | Some s =>
      b <- byte_of_int 183 s ;;
      st1 <- dec_narrow (h_freq h) cum (h_total h) s st ;;
      match dec_renorm renorm_fuel st1 with
      | Some st2 => Ok (b, s, st2)
      | None => Raise OutOfFuel 190
      end
  end.

(** [while len(out) < n], with [k] symbols still to produce. *)
Fixpoint dec_loop (h : header) (cum : list (Z * Z)) (k : nat)
    (s0 : option Z) (st : dec_state) : result (list byte) :=
  match k with
  | O => Ok []
  | S k' =>
      '(b, s, st') <- dec_symbol h cum s0 st ;;
      rest <- dec_loop h cum k' (Some s) st' ;;
      Ok (b :: rest)
  end.

Definition dec_init (h : header) (mv : list byte) : dec_state :=
  let '(code, bitin) := dec_fill 32 0 (_BitIn.init (skipn (h_pos h) mv)) in
  mkDec 0 (_TOP - 1) code bitin.

Definition decode (blob : list byte) : result (list byte) :=
  match blob with
  | [] => Ok []
  | _ =>
      if startswith_RUN blob then decode_run 146 blob
      else
        h <- parse_header blob ;;
        cum <- dec_cum (h_symbols h) (h_freq h) ;;
        dec_loop h cum (Z.to_nat (h_n h)) (last (map Some (h_symbols h)) None)
                 (dec_init h blob)
  end.

End Arithmetic.

(** ** [heapq]: the binary heap of the Python standard library

    [heappush] and [heappop] on a list, as CPython implements them: the
    item that moves is exchanged with its parent (sifting down) or with its
    smaller child (sifting up); the only comparison is [<] of the items. *)

Module heapq.
Section Heap.
Context {A : Type} (lt : A -> A -> bool) (dflt : A).

Definition item (heap : list A) (i : nat) : A := nth i heap dflt.

Fixpoint store (heap : list A) (i : nat) (x : A) : list A :=
  match heap, i with
  | [], _ => []
  | _ :: t, O => x :: t
  | y :: t, S j => y :: store t j x
  end.

Definition swap (heap : list A) (i j : nat) : list A :=
  store (store heap i (item heap j)) j (item heap i).

(** [while pos > startpos]: at most [pos] passes. *)
Fixpoint siftdown_loop (fuel : nat) (heap : list A) (startpos pos : nat)
  : list A :=
  match fuel with
  | O => heap
  | S f =>
      if (startpos <? pos)%nat then
        let parentpos := ((pos - 1) / 2)%nat in
        if lt (item heap pos) (item heap parentpos)
        then siftdown_loop f (swap heap pos parentpos) startpos parentpos
        else heap
      else heap
  end.

Definition _siftdown (heap : list A) (startpos pos : nat) : list A :=
  siftdown_loop pos heap startpos pos.

(** [while childpos < endpos]: the smaller child moves up until a leaf
    is reached; at most [len(heap)] passes. *)
Fixpoint siftup_loop (fuel : nat) (heap : list A) (pos : nat)
  : list A * nat :=
  match fuel with
  | O => (heap, pos)
  | S f =>
      let endpos := length heap in
      let childpos := (2 * pos + 1)%nat in
      if (childpos <? endpos)%nat then
        let rightpos := (childpos + 1)%nat in
        let childpos :=
          if (rightpos <? endpos)%nat
             && negb (lt (item heap childpos) (item heap rightpos))
          then rightpos else childpos in
        siftup_loop f (swap heap pos childpos) childpos
      else (heap, pos)
  end.

Definition _siftup (heap : list A) (pos : nat) : list A :=
  let '(heap', pos') := siftup_loop (length heap) heap pos in
  _siftdown heap' pos pos'.

Definition heappush (heap : list A) (x : A) : list A :=
  let heap := heap ++ [x] in
  _siftdown heap 0 (length heap - 1).

(** The popped item and the heap that is left; [None] on an empty heap
    ([IndexError]). *)
Definition heappop (heap : list A) : option (A * list A) :=
  match rev heap with
  | [] => None
  | lastelt :: _ =>
      match removelast heap with
      | [] => Some (lastelt, [])
      | returnitem :: t => Some (returnitem, _siftup (lastelt :: t) 0)
      end
  end.
End Heap.
End heapq.

(** ** [coders/huffman.py] *)

Module Huffman.

(** [class _Node]: a leaf has a symbol and no children, an internal node
    has no symbol ([None]) and two children. *)
Inductive _Node : Type :=
| Leaf (freq : Z) (symbol : Z)
| Branch (freq : Z) (left right : _Node).

Definition freq (n : _Node) : Z :=
  match n with Leaf f _ => f | Branch f _ _ => f end.

Definition symbol (n : _Node) : option Z :=
  match n with Leaf _ s => Some s | Branch _ _ _ => None end.

(** [x or -1] for [x : int | None]: both [None] and [0] are falsy. *)
Definition or_minus1 (x : option Z) : Z :=
  match x with
  | None => -1
  | Some s => if s =? 0 then -1 else s
  end.

(** [_Node.__lt__]: the order of the tuples [(freq, symbol or -1)]. *)
Definition lt (self other : _Node) : bool :=
  (freq self <? freq other)
  || ((freq self =? freq other)
      && (or_minus1 (symbol self) <? or_minus1 (symbol other))).

Definition heappush := heapq.heappush lt (Leaf 0 0).
Definition heappop (line : nat) (heap : list _Node)
  : result (_Node * list _Node) :=
  match heapq.heappop lt (Leaf 0 0) heap with
  | Some r => Ok r
  | None => Raise IndexError line
  end.

(** [while len(heap) > 1] of [_build_tree]: each pass shortens the heap by
    one, so [len(heap)] passes are enough. *)
Fixpoint build_loop (fuel : nat) (heap : list _Node) : result (list _Node) :=
  match fuel with
  | O => Ok heap
  | S f =>
      if (1 <? length heap)%nat then
        '(n1, heap) <- heappop 146 heap ;;
        '(n2, heap) <- heappop 146 heap ;;
        build_loop f (heappush heap (Branch (freq n1 + freq n2) n1 n2))
      else Ok heap
  end.

Definition _build_tree (freq : list (Z * Z)) : result _Node :=
  let heap := map (fun '(s, f) => Leaf f s) freq in
  '(x, heap) <- heappop 144 heap ;;
  let heap := heappush heap x in
  heap <- build_loop (length heap) heap ;;
  index 148 heap 0.

Definition bits_eqb : list bool -> list bool -> bool :=
  fix go a b :=
    match a, b with
    | [], [] => true
    | x :: a', y :: b' => Bool.eqb x y && go a' b'
    | _, _ => false
    end.

Fixpoint _build_code_map (node : _Node) (prefix : list bool)
  : list (Z * list bool) :=
  match node with
  | Leaf _ s => [(s, match prefix with [] => [false] | _ => prefix end)]
  | Branch _ l r =>
      let m := update Z.eqb [] (_build_code_map l (prefix ++ [false])) in
      update Z.eqb m (_build_code_map r (prefix ++ [true]))
  end.

(** The digits of [bin(p)], most significant first. *)
Fixpoint pos_digits (p : positive) : list bool :=
  match p with
  | xH => [true]
  | xO q => pos_digits q ++ [false]
  | xI q => pos_digits q ++ [true]
  end.

(** [f"{code:0{ln}b}"] for [code >= 0]: the binary digits of [code],
    zero-padded on the left to at least [ln] characters. *)
Definition format_b (code ln : Z) : list bool :=
  let ds := match code with
            | Zpos p => pos_digits p
            | _ => [false]
            end in
  repeat false (Z.to_nat ln - length ds) ++ ds.

(** [d[k]] for a key [k] that was drawn from [d] itself. *)
Definition at_key (d : list (Z * Z)) (k : Z) : Z := count d k.

(** The order of the sort keys [(length, symbol)]. *)
Definition key_leb (a b : Z * Z) : bool :=
  (fst a <? fst b) || ((fst a =? fst b) && (snd a <=? snd b)).

(** The loop of lines 165-170 over [order]; also returns the running
    [code] and [prev_len]. *)
Fixpoint canon_loop (lengths : list (Z * Z)) (order : list Z)
    (canonical : list (Z * list bool)) (code prev_len : Z)
  : list (Z * list bool) :=
  match order with
  | [] => canonical
  | sym :: rest =>
      let ln := at_key lengths sym in
      let code := Z.shiftl code (ln - prev_len) in
      canon_loop lengths rest (set Z.eqb canonical sym (format_b code ln))
                 (code + 1) ln
  end.

Definition _to_canonical (code_map : list (Z * list bool))
  : list (Z * list bool) * list (Z * Z) :=
  let lengths := dict_of Z.eqb (map (fun '(s, b) => (s, len b)) code_map) in
  let order :=
    map snd (sorted (fun a b => key_leb (fst a) (fst b))
                    (map (fun s => ((at_key lengths s, s), s))
                         (keys code_map))) in
  (canon_loop lengths order [] 0 0, lengths).

(** [int(chunk, 2)] *)
Definition int2 (chunk : list bool) : Z :=
  fold_left (fun v b => 2 * v + Z.b2z b) chunk 0.

(** [s.ljust(8, "0")] *)
Definition ljust8 (s : list bool) : list bool :=
  s ++ repeat false (8 - length s).

(** [_pack_bits]: the bytes written to [buf]. *)
Definition _pack_bits (bits : list bool) : result (list byte) :=
  r <- mapM (fun i => to_bytes 178 (int2 (ljust8 (slice bits i (i + 8)))) 1)
            (range8 (length bits)) ;;
  Ok (concat r).

Definition RUN : list byte := Arithmetic.RUN.

(** Lines 62-68: the canonical map and the lengths for [data]. *)
Definition code_tables (data : list byte)
  : result (list (Z * list bool) * list (Z * Z)) :=
  root <- _build_tree (Counter data) ;;
  Ok (_to_canonical (_build_code_map root [])).

Definition encode (data : list byte) : result (list byte) :=
  match data with
  | [] => Ok []
  | _ =>
      let freq := Counter data in
      if (length freq =? 1)%nat then
        sym <- index 58 (keys freq) 0 ;;
        s <- bytes_of_ints 59 [sym] ;;
        n <- to_bytes 59 (len data) 4 ;;
        Ok (RUN ++ s ++ n)
      else
        '(canon, lengths) <- code_tables data ;;
        h_len <- to_bytes 71 (len data) 4 ;;
        h_cnt <- bytes_of_ints 72 [len canon] ;;
        h_tab <- mapM (fun s => bytes_of_ints 76 [s; at_key lengths s])
                      (keys canon) ;;
        let code_bits := concat (map snd canon) in
        h_clen <- to_bytes 80 (len code_bits) 2 ;;
        h_code <- _pack_bits code_bits ;;
        codes <- mapM (fun b => getitem Z.eqb 84 canon (byte_val b)) data ;;
        let payload_bits := concat codes in
        h_plen <- to_bytes 85 (len payload_bits) 4 ;;
        payload <- _pack_bits payload_bits ;;
        Ok (h_len ++ h_cnt ++ concat h_tab ++ h_clen ++ h_code
              ++ h_plen ++ payload)
  end.

(** *** [HuffmanCoder.decode] *)

(** ["".join(f"{b:08b}" for b in blob)] *)
Definition bits_of_bytes (blob : list byte) : list bool :=
  flat_map (fun b => map (fun i => Z.testbit (byte_val b) i)
                         [7; 6; 5; 4; 3; 2; 1; 0]) blob.

Record header := mkHeader {
  orig_len : Z;
  pairs : list (Z * Z);          (* zip(symbols, lengths), in header order *)
  canon_bits : list bool;        (* parsed, and used for nothing *)
  payload_bits : list bool
}.

(** Lines 105-107, [leaf_cnt] times. *)
Fixpoint parse_pairs (mv : list byte) (leaf_cnt : nat) (i : nat)
  : result (list (Z * Z)) :=
  match leaf_cnt with
  | O => Ok []
  | S k =>
      s <- index 106 mv i ;;
      l <- index 107 mv (i + 1) ;;
      rest <- parse_pairs mv k (i + 2) ;;
      Ok ((byte_val s, byte_val l) :: rest)
  end.

Definition parse_header (mv : list byte) : result header :=
  let i := 0%nat in
  let orig_len := from_bytes (slice mv i (i + 4)) in
  let i := (i + 4)%nat in
  leaf_cnt <- index 101 mv i ;;
  let leaf_cnt := Z.to_nat (byte_val leaf_cnt) in
  let i := (i + 1)%nat in
  pairs <- parse_pairs mv leaf_cnt i ;;
  let i := (i + 2 * leaf_cnt)%nat in
  let canon_len_bits := from_bytes (slice mv i (i + 2)) in
  let i := (i + 2)%nat in
  let canon_bytes := Z.to_nat ((canon_len_bits + 7) / 8) in
  let canon_blob := slice mv i (i + canon_bytes) in
  let i := (i + canon_bytes)%nat in
  let canon_bits := firstn (Z.to_nat canon_len_bits) (bits_of_bytes canon_blob) in
  let payload_len_bits := from_bytes (slice mv i (i + 4)) in
  let i := (i + 4)%nat in
  let payload_bytes := Z.to_nat ((payload_len_bits + 7) / 8) in
  let payload_bits :=
    firstn (Z.to_nat payload_len_bits)
           (bits_of_bytes (slice mv i (i + payload_bytes))) in
  Ok (mkHeader orig_len pairs canon_bits payload_bits).

(** Lines 115-123: the table rebuilt from the (symbol, length) pairs. *)
Fixpoint table_loop (order : list (Z * Z)) (table : list (list bool * Z))
    (code prev_len : Z) : list (list bool * Z) :=
  match order with
  | [] => table
  | (sym, ln) :: rest =>
      let code := if negb (ln =? prev_len) then Z.shiftl code (ln - prev_len)
                  else code in
      table_loop rest (set bits_eqb table (format_b code ln) sym)
                 (code + 1) ln
  end.

Definition dec_table (pairs : list (Z * Z)) : list (list bool * Z) :=
  table_loop (sorted (fun a b => key_leb (snd a, fst a) (snd b, fst b)) pairs)
             [] 0 0.

(** Lines 130-137: [out] is kept in reverse. *)
Fixpoint dec_loop (table : list (list bool * Z)) (orig_len : Z)
    (bits : list bool) (out : list Z) (cur : list bool) : list Z :=
  match bits with
  | [] => rev out
  | bit :: rest =>
      let cur := cur ++ [bit] in
      match get bits_eqb table cur with
      | Some s =>
          let out := s :: out in
          if len out =? orig_len then rev out
          else dec_loop table orig_len rest out []
      | None => dec_loop table orig_len rest out cur
      end
  end.

Definition decode (blob : list byte) : result (list byte) :=
  match blob with
  | [] => Ok []
  | _ =>
      if Arithmetic.startswith_RUN blob then Arithmetic.decode_run 94 blob
      else
        h <- parse_header blob ;;
        bytes_of_ints 134
          (dec_loop (dec_table (pairs h)) (orig_len h) (payload_bits h) [] [])
  end.

End Huffman.


(** ** Definitions used to state the properties *)

(** Bytes given by their values. *)
Definition ascii_bytes (l : list Z) : list byte := map byte_wrap l.

(** The RUN record: the 3-byte tag, the byte, the count on 4 bytes. *)
Definition run_record (s : byte) (n : Z) : list byte :=
  [x52; x55; x4e] ++ [s] ++ be_digits 4 n.

(** [k] successive calls of [get]: the bits returned, in order, and the
    source afterwards. *)
Fixpoint reads (k : nat) (s : Arithmetic._BitIn.t) : list Z * Arithmetic._BitIn.t :=
  match k with
  | O => ([], s)
  | S k' =>
      let '(b, s') := Arithmetic._BitIn.get s in
      let '(bs, s'') := reads k' s' in
      (b :: bs, s'')
  end.

(** Bit [i] of the stream a buffer stands for: bit [7 - i mod 8] of byte
    [i / 8], and 0 once the buffer is exhausted. *)
Definition stream_bit (blob : list byte) (i : nat) : Z :=
  match nth_error blob (i / 8) with
  | Some b => Z.b2z (Z.testbit (byte_val b) (Z.of_nat (7 - i mod 8)))
  | None => 0
  end.

(** ** Running the model *)

Example huffman_roundtrip_abracadabra :
  let d := ascii_bytes [97; 98; 114; 97; 99; 97; 100; 97; 98; 114; 97] in
  bind (Huffman.encode d) Huffman.decode = Ok d.
Proof. vm_compute. reflexivity. Qed.

Example arithmetic_roundtrip_abracadabra :
  let d := ascii_bytes [97; 98; 114; 97; 99; 97; 100; 97; 98; 114; 97] in
  bind (Arithmetic.encode d) Arithmetic.decode = Ok d.
Proof. vm_compute. reflexivity. Qed.

(** ** Bytes and big-endian integers *)

Lemma byte_val_range (b : byte) : 0 <= byte_val b < 256.
Proof.
  unfold byte_val. pose proof (Byte.to_N_bounded b). lia.
Qed.

Lemma mk_byte_val (b : byte) : mk_byte (byte_val b) = Some b.
Proof.
  unfold mk_byte. pose proof (byte_val_range b).
  replace ((0 <=? byte_val b) && (byte_val b <? 256)) with true
    by (symmetry; apply andb_true_iff; split; [apply Z.leb_le | apply Z.ltb_lt]; lia).
  unfold byte_val. rewrite N2Z.id. apply Byte.of_to_N.
Qed.

Lemma mk_byte_some (z : Z) (b : byte) : mk_byte z = Some b -> byte_val b = z.
Proof.
  unfold mk_byte. destruct ((0 <=? z) && (z <? 256)) eqn:E; [|discriminate].
  apply andb_true_iff in E. destruct E as [E1 E2].
  apply Z.leb_le in E1. intros H. apply Byte.to_of_N in H.
  unfold byte_val. rewrite H. lia.
Qed.

Lemma mk_byte_in_range (z : Z) : 0 <= z < 256 -> exists b, mk_byte z = Some b.
Proof.
  intros H. unfold mk_byte.
  replace ((0 <=? z) && (z <? 256)) with true
    by (symmetry; apply andb_true_iff; split; [apply Z.leb_le | apply Z.ltb_lt]; lia).
  destruct (Byte.of_N (Z.to_N z)) eqn:E; [eauto|].
  apply Byte.of_N_None_iff in E. lia.
Qed.

Lemma mk_byte_out_of_range (z : Z) : ~ 0 <= z < 256 -> mk_byte z = None.
Proof.
  intros H. unfold mk_byte.
  destruct (0 <=? z) eqn:E1; destruct (z <? 256) eqn:E2; simpl; try reflexivity.
  apply Z.leb_le in E1. apply Z.ltb_lt in E2. lia.
Qed.

Lemma byte_val_wrap (z : Z) : byte_val (byte_wrap z) = z mod 256.
Proof.
  unfold byte_wrap. pose proof (Z.mod_pos_bound z 256 eq_refl) as P.
  destruct (Byte.of_N (Z.to_N (z mod 256))) eqn:E.
  - apply Byte.to_of_N in E. unfold byte_val. rewrite E. lia.
  - apply Byte.of_N_None_iff in E. lia.
Qed.

Lemma byte_val_inj (a b : byte) : byte_val a = byte_val b -> a = b.
Proof.
  intros H. pose proof (mk_byte_val a) as Ha. rewrite H, mk_byte_val in Ha.
  congruence.
Qed.

Lemma byte_wrap_val (b : byte) : byte_wrap (byte_val b) = b.
Proof.
  apply byte_val_inj. rewrite byte_val_wrap.
  apply Z.mod_small, byte_val_range.
Qed.

Lemma from_bytes_app (l : list byte) (b : byte) :
  from_bytes (l ++ [b]) = from_bytes l * 256 + byte_val b.
Proof. unfold from_bytes. rewrite fold_left_app. reflexivity. Qed.

Lemma from_bytes_acc (l : list byte) (a : Z) :
  fold_left (fun acc b => acc * 256 + byte_val b) l a
  = a * 256 ^ Z.of_nat (length l) + from_bytes l.
Proof.
  unfold from_bytes. revert a. induction l as [|x l IH]; intros a.
  - simpl. lia.
  - cbn [fold_left length]. rewrite IH, (IH (0 * 256 + byte_val x)).
    rewrite Nat2Z.inj_succ, Z.pow_succ_r by lia. ring.
Qed.

Lemma be_digits_length (k : nat) (n : Z) : length (be_digits k n) = k.
Proof. induction k; simpl; congruence. Qed.

Lemma from_bytes_be_digits (k : nat) (n : Z) :
  from_bytes (be_digits k n) = n mod 256 ^ Z.of_nat k.
Proof.
  induction k as [|k IH].
  - simpl. rewrite Z.mod_1_r. reflexivity.
  - cbn [be_digits]. unfold from_bytes. cbn [fold_left].
    rewrite from_bytes_acc, be_digits_length, IH, byte_val_wrap.
    rewrite Nat2Z.inj_succ, Z.pow_succ_r by lia.
    assert (0 < 256 ^ Z.of_nat k) by (apply Z.pow_pos_nonneg; lia).
    rewrite (Z.mul_comm 256), Z.rem_mul_r by lia. simpl. lia.
Qed.

Lemma to_bytes_ok (line : nat) (n : Z) (k : nat) :
  0 <= n < 256 ^ Z.of_nat k -> to_bytes line n k = Ok (be_digits k n).
Proof.
  intros H. unfold to_bytes.
  replace ((0 <=? n) && (n <? 256 ^ Z.of_nat k)) with true; [reflexivity|].
  symmetry; apply andb_true_iff; split; [apply Z.leb_le | apply Z.ltb_lt]; lia.
Qed.

Lemma to_bytes_overflow (line : nat) (n : Z) (k : nat) :
  256 ^ Z.of_nat k <= n -> to_bytes line n k = Raise OverflowError line.
Proof.
  intros H. unfold to_bytes.
  replace (n <? 256 ^ Z.of_nat k) with false by (symmetry; apply Z.ltb_ge; lia).
  rewrite andb_false_r. reflexivity.
Qed.

Lemma to_bytes_inv (line : nat) (n : Z) (k : nat) (bs : list byte) :
  to_bytes line n k = Ok bs ->
  0 <= n < 256 ^ Z.of_nat k /\ bs = be_digits k n.
Proof.
  unfold to_bytes. destruct ((0 <=? n) && (n <? 256 ^ Z.of_nat k)) eqn:E;
    [|discriminate].
  apply andb_true_iff in E. destruct E as [E1 E2].
  apply Z.leb_le in E1. apply Z.ltb_lt in E2. intros [= <-]. auto.
Qed.

(** ** [Counter] *)

Lemma Counter_fold (data : list byte) : Counter data = fold_left tally data [].
Proof. reflexivity. Qed.

Lemma Counter_app (l1 l2 : list byte) :
  Counter (l1 ++ l2) = fold_left tally l2 (Counter l1).
Proof. rewrite !Counter_fold. apply fold_left_app. Qed.

Lemma get_set_same (d : list (Z * Z)) (k v : Z) :
  get Z.eqb (set Z.eqb d k v) k = Some v.
Proof.
  induction d as [|[k' v'] d IH]; simpl.
  - rewrite Z.eqb_refl. reflexivity.
  - destruct (k =? k') eqn:E; simpl; rewrite E; auto.
Qed.

Lemma set_set (d : list (Z * Z)) (k v w : Z) :
  set Z.eqb (set Z.eqb d k v) k w = set Z.eqb d k w.
Proof.
  induction d as [|[k' v'] d IH]; simpl.
  - rewrite Z.eqb_refl. reflexivity.
  - destruct (k =? k') eqn:E; simpl; rewrite E; congruence.
Qed.

Lemma set_length_present (d : list (Z * Z)) (k v c : Z) :
  get Z.eqb d k = Some c -> length (set Z.eqb d k v) = length d.
Proof.
  induction d as [|[k' v'] d IH]; simpl; [discriminate|].
  destruct (k =? k'); simpl; auto.
Qed.

Lemma tally_repeat (b : byte) (n : nat) (d : list (Z * Z)) (c : Z) :
  get Z.eqb d (byte_val b) = Some c ->
  fold_left tally (repeat b n) d = set Z.eqb d (byte_val b) (c + Z.of_nat n).
Proof.
  revert d c. induction n as [|n IH]; intros d c H.
  - cbn [repeat fold_left]. rewrite Z.add_0_r.
    clear -H. induction d as [|[k' v'] d IH]; simpl in *; [discriminate|].
    destruct (byte_val b =? k') eqn:E; [congruence|]. f_equal. auto.
  - cbn [repeat fold_left]. unfold tally at 2. rewrite H.
    rewrite (IH _ (c + 1)) by apply get_set_same.
    rewrite set_set. f_equal. lia.
Qed.

Lemma Counter_repeat (b : byte) (n : nat) :
  Counter (repeat b (S n)) = [(byte_val b, Z.of_nat (S n))].
Proof.
  rewrite Counter_fold. cbn [repeat fold_left]. unfold tally at 2. cbn [get set].
  rewrite (tally_repeat b n _ 1) by (simpl; rewrite Z.eqb_refl; reflexivity).
  cbn [set]. rewrite Z.eqb_refl. f_equal. f_equal. lia.
Qed.
(** ** Dictionaries, [Counter] and [sorted] *)

Definition values {K V} (d : list (K * V)) : list V := map snd d.

Definition sumZ (l : list Z) : Z := fold_right Z.add 0 l.

Section DictFacts.
Context {K V : Type} (eqb : K -> K -> bool).
Hypothesis eqb_spec : forall a b, reflect (a = b) (eqb a b).

Lemma dict_get_In (d : list (K * V)) (k : K) (v : V) :
  get eqb d k = Some v -> In (k, v) d.
Proof.
  induction d as [|[k' v'] d IH]; simpl; [discriminate|].
  destruct (eqb_spec k k') as [->|Hne].
  - intros [= ->]. auto.
  - auto.
Qed.

Lemma dict_get_None (d : list (K * V)) (k : K) :
  get eqb d k = None <-> ~ In k (keys d).
Proof.
  induction d as [|[k' v'] d IH]; simpl; [tauto|].
  destruct (eqb_spec k k') as [->|Hne].
  - split; [discriminate | intros H; exfalso; auto].
  - rewrite IH. split; intros H; [intros [E|E]; [congruence|auto] | auto].
Qed.

Lemma dict_get_Some_key (d : list (K * V)) (k : K) :
  In k (keys d) -> exists v, get eqb d k = Some v.
Proof.
  intros H. destruct (get eqb d k) eqn:E; [eauto|].
  apply dict_get_None in E. contradiction.
Qed.

Lemma dict_In_get (d : list (K * V)) (k : K) (v : V) :
  NoDup (keys d) -> In (k, v) d -> get eqb d k = Some v.
Proof.
  induction d as [|[k' v'] d IH]; simpl; [tauto|].
  intros ND [E|E].
  - injection E as -> ->. destruct (eqb_spec k k); [reflexivity | congruence].
  - inversion ND as [|? ? Hn ND']; subst.
    destruct (eqb_spec k k') as [->|Hne].
    + exfalso. apply Hn. change k' with (fst (k', v)). apply in_map. exact E.
    + auto.
Qed.

Lemma dict_keys_set_present (d : list (K * V)) (k : K) (v : V) :
  In k (keys d) -> keys (set eqb d k v) = keys d.
Proof.
  induction d as [|[k' v'] d IH]; simpl; [tauto|].
  destruct (eqb_spec k k') as [->|Hne]; [reflexivity|].
  intros [E|E]; [congruence|]. simpl. f_equal. auto.
Qed.

Lemma dict_set_absent (d : list (K * V)) (k : K) (v : V) :
  ~ In k (keys d) -> set eqb d k v = d ++ [(k, v)].
Proof.
  induction d as [|[k' v'] d IH]; simpl; [reflexivity|].
  destruct (eqb_spec k k') as [->|Hne]; [tauto|].
  intros H. f_equal. auto.
Qed.

Lemma dict_update_nodup (d e : list (K * V)) :
  NoDup (keys d ++ keys e) -> update eqb d e = d ++ e.
Proof.
  unfold update. revert d. induction e as [|[k v] e IH]; intros d ND.
  - symmetry. apply app_nil_r.
  - cbn [fold_left fst snd]. cbn [keys map fst] in ND.
    rewrite dict_set_absent
      by (apply NoDup_remove_2 in ND; intros H; apply ND, in_or_app; auto).
    rewrite IH.
    + rewrite <- app_assoc. reflexivity.
    + unfold keys in *. rewrite map_app, <- app_assoc. exact ND.
Qed.

End DictFacts.

Lemma get_In {V} (d : list (Z * V)) (k : Z) (v : V) :
  get Z.eqb d k = Some v -> In (k, v) d.
Proof. apply (dict_get_In _ Z.eqb_spec). Qed.

Lemma get_None {V} (d : list (Z * V)) (k : Z) :
  get Z.eqb d k = None <-> ~ In k (keys d).
Proof. apply (dict_get_None _ Z.eqb_spec). Qed.

Lemma get_Some_key {V} (d : list (Z * V)) (k : Z) :
  In k (keys d) -> exists v, get Z.eqb d k = Some v.
Proof. apply (dict_get_Some_key _ Z.eqb_spec). Qed.

Lemma In_get {V} (d : list (Z * V)) (k : Z) (v : V) :
  NoDup (keys d) -> In (k, v) d -> get Z.eqb d k = Some v.
Proof. apply (dict_In_get _ Z.eqb_spec). Qed.

Lemma keys_set_present {V} (d : list (Z * V)) (k : Z) (v : V) :
  In k (keys d) -> keys (set Z.eqb d k v) = keys d.
Proof. apply (dict_keys_set_present _ Z.eqb_spec). Qed.

Lemma set_absent {V} (d : list (Z * V)) (k : Z) (v : V) :
  ~ In k (keys d) -> set Z.eqb d k v = d ++ [(k, v)].
Proof. apply (dict_set_absent _ Z.eqb_spec). Qed.

Lemma update_nodup {V} (d e : list (Z * V)) :
  NoDup (keys d ++ keys e) -> update Z.eqb d e = d ++ e.
Proof. apply (dict_update_nodup _ Z.eqb_spec). Qed.

Lemma dict_of_nodup {V} (l : list (Z * V)) :
  NoDup (keys l) -> dict_of Z.eqb l = l.
Proof. intros H. apply (update_nodup [] l). exact H. Qed.

Lemma sumZ_app (a b : list Z) : sumZ (a ++ b) = sumZ a + sumZ b.
Proof. induction a; simpl; lia. Qed.

Lemma sumZ_set_present (d : list (Z * Z)) (k v c : Z) :
  get Z.eqb d k = Some c ->
  sumZ (values (set Z.eqb d k v)) = sumZ (values d) - c + v.
Proof.
  induction d as [|[k' v'] d IH]; simpl; [discriminate|].
  destruct (Z.eqb_spec k k') as [->|Hne].
  - intros [= ->]. simpl. lia.
  - intros H. simpl. rewrite IH by exact H. lia.
Qed.

Lemma Forall_values_set (P : Z -> Prop) (d : list (Z * Z)) (k v : Z) :
  Forall P (values d) -> P v -> Forall P (values (set Z.eqb d k v)).
Proof.
  induction d as [|[k' v'] d IH]; simpl; intros H Hv.
  - auto.
  - inversion H; subst. destruct (k =? k'); simpl; auto.
Qed.

(** What [Counter] builds: distinct keys, positive counts that add up to
    the number of bytes counted. *)
Record counted (d : list (Z * Z)) (n : Z) : Prop := {
  counted_nodup : NoDup (keys d);
  counted_pos : Forall (fun v => 1 <= v) (values d);
  counted_sum : sumZ (values d) = n
}.

Lemma tally_counted (d : list (Z * Z)) (n : Z) (b : byte) :
  counted d n ->
  counted (tally d b) (n + 1) /\ incl (keys d) (keys (tally d b))
  /\ In (byte_val b) (keys (tally d b)).
Proof.
  intros [ND Pos Sum]. unfold tally.
  destruct (get Z.eqb d (byte_val b)) as [c|] eqn:E.
  - assert (Hin : In (byte_val b) (keys d)).
    { apply get_In in E. change (byte_val b) with (fst (byte_val b, c)).
      apply in_map. exact E. }
    assert (Hc : 1 <= c).
    { apply get_In in E. rewrite Forall_forall in Pos. apply Pos.
      change c with (snd (byte_val b, c)). apply in_map. exact E. }
    pose proof (keys_set_present d _ (c + 1) Hin) as K.
    split; [split|]; rewrite ?K; auto.
    + apply Forall_values_set; [exact Pos | lia].
    + rewrite (sumZ_set_present _ _ _ c E). lia.
    + split; [apply incl_refl | exact Hin].
  - apply get_None in E. rewrite (set_absent _ _ _ E).
    split; [split|]; unfold keys, values; rewrite !map_app; simpl;
      [ | | | split].
    + apply NoDup_app; [exact ND | repeat constructor; simpl; tauto |].
      intros x Hx [<-|[]]. contradiction.
    + apply Forall_app. split; [exact Pos | repeat constructor; lia].
    + rewrite sumZ_app. fold (values d). simpl. lia.
    + apply incl_appl, incl_refl.
    + apply in_or_app. right. simpl. auto.
Qed.

Lemma fold_tally_counted (data : list byte) (d : list (Z * Z)) (n : Z) :
  counted d n ->
  counted (fold_left tally data d) (n + len data)
  /\ incl (keys d) (keys (fold_left tally data d))
  /\ (forall b, In b data -> In (byte_val b) (keys (fold_left tally data d))).
Proof.
  revert d n. induction data as [|b data IH]; intros d n C.
  - unfold len. simpl. rewrite Z.add_0_r. split; [exact C|].
    split; [apply incl_refl | tauto].
  - cbn [fold_left]. destruct (tally_counted d n b C) as (C' & I' & B').
    destruct (IH _ _ C') as (C'' & I'' & B'').
    split; [|split].
    + replace (n + len (b :: data)) with (n + 1 + len data); [exact C''|].
      unfold len. cbn [length]. lia.
    + eapply incl_tran; eassumption.
    + intros x [<-|Hx]; [apply I''; exact B' | apply B''; exact Hx].
Qed.

Lemma Counter_counted (data : list byte) : counted (Counter data) (len data).
Proof.
  apply (fold_tally_counted data [] 0).
  split; [constructor | constructor | reflexivity].
Qed.

Lemma Counter_keys (data : list byte) (b : byte) :
  In b data -> In (byte_val b) (keys (Counter data)).
Proof.
  apply (fold_tally_counted data [] 0).
  split; [constructor | constructor | reflexivity].
Qed.

Lemma count_pos (d : list (Z * Z)) (n k : Z) :
  counted d n -> In k (keys d) -> 1 <= count d k.
Proof.
  intros C H. unfold count. destruct (get_Some_key d k H) as [v E].
  rewrite E. apply get_In in E.
  pose proof (counted_pos _ _ C) as P. rewrite Forall_forall in P.
  apply P. change v with (snd (k, v)). apply in_map. exact E.
Qed.

Lemma Counter_nonempty (data : list byte) :
  (2 <= length (Counter data))%nat -> data <> [].
Proof. intros H ->. simpl in H. lia. Qed.

(** *** [sorted] *)

Section SortedFacts.
Context {A : Type} (leb : A -> A -> bool).

Lemma insert_perm (x : A) (l : list A) : Permutation (x :: l) (insert leb x l).
Proof.
  induction l as [|y l IH]; simpl; [reflexivity|].
  destruct (leb x y); [reflexivity|].
  rewrite perm_swap. constructor. exact IH.
Qed.

Lemma sorted_perm (l : list A) : Permutation l (sorted leb l).
Proof.
  induction l as [|x l IH]; simpl; [reflexivity|].
  rewrite <- insert_perm. constructor. exact IH.
Qed.

Lemma sorted_length (l : list A) : length (sorted leb l) = length l.
Proof. symmetry. apply Permutation_length, sorted_perm. Qed.
End SortedFacts.
(** ** Lists and [mapM] *)

Lemma mapM_ok {A B} (f : A -> result B) (l : list A) :
  (forall x, In x l -> exists y, f x = Ok y) ->
  exists ys, mapM f l = Ok ys /\ length ys = length l.
Proof.
  induction l as [|x l IH]; intros H.
  - exists []. split; reflexivity.
  - destruct (H x (or_introl eq_refl)) as [y Ey].
    destruct IH as (ys & Eys & L); [intros z Hz; apply H; simpl; auto|].
    exists (y :: ys). cbn [mapM]. rewrite Ey, Eys. cbn [bind length].
    split; [reflexivity | congruence].
Qed.

Lemma In_firstn {A} (n : nat) (l : list A) (x : A) :
  In x (firstn n l) -> In x l.
Proof.
  intros H. rewrite <- (firstn_skipn n l). apply in_or_app. auto.
Qed.

Lemma In_skipn {A} (n : nat) (l : list A) (x : A) :
  In x (skipn n l) -> In x l.
Proof.
  intros H. rewrite <- (firstn_skipn n l). apply in_or_app. auto.
Qed.

Lemma Forall_slice {A} (P : A -> Prop) (l : list A) (i j : nat) :
  Forall P l -> Forall P (slice l i j).
Proof.
  intros H. unfold slice. apply Forall_forall. intros x Hx.
  apply In_firstn, In_skipn in Hx. rewrite Forall_forall in H. auto.
Qed.

Lemma slice_length8 {A} (l : list A) (i : nat) :
  (length (slice l i (i + 8)) <= 8)%nat.
Proof.
  unfold slice. rewrite length_firstn. lia.
Qed.


Lemma bits_eqb_spec (a b : list bool) : reflect (a = b) (Huffman.bits_eqb a b).
Proof.
  revert b. induction a as [|x a IH]; intros [|y b]; simpl;
    try (constructor; congruence).
  destruct (Bool.eqb_spec x y) as [->|Hne]; simpl.
  - destruct (IH b) as [->|Hne]; constructor; congruence.
  - constructor. congruence.
Qed.

Lemma mapM_Forall2 {A B} (f : A -> result B) (l : list A) (ys : list B) :
  mapM f l = Ok ys -> Forall2 (fun x y => f x = Ok y) l ys.
Proof.
  revert ys. induction l as [|x l IH]; intros ys E.
  - injection E as <-. constructor.
  - cbn [mapM] in E. destruct (f x) as [y|] eqn:Ey; [|discriminate].
    cbn [bind] in E. destruct (mapM f l) as [ys'|]; [|discriminate].
    injection E as <-. constructor; [exact Ey | apply IH; reflexivity].
Qed.

Lemma nth_error_app_here {A} (pre rest : list A) (x : A) :
  nth_error (pre ++ x :: rest) (length pre) = Some x.
Proof.
  rewrite nth_error_app2 by lia. rewrite Nat.sub_diag. reflexivity.
Qed.

Lemma byte_of_int_val (line : nat) (z : Z) (b : byte) :
  byte_of_int line z = Ok b -> byte_val b = z.
Proof.
  unfold byte_of_int. destruct (mk_byte z) eqn:E; [|discriminate].
  intros [= <-]. apply mk_byte_some, E.
Qed.

Lemma skipn_app_here {A} (a b : list A) : skipn (length a) (a ++ b) = b.
Proof. induction a; simpl; auto. Qed.

Lemma firstn_app_here {A} (a b : list A) : firstn (length a) (a ++ b) = a.
Proof. induction a; simpl; congruence. Qed.

(** ** [sorted] sorts *)

Section SortedSorts.
Context {A : Type} (leb : A -> A -> bool).
Hypothesis leb_total : forall a b, leb a b = true \/ leb b a = true.

Definition le_by (a b : A) : Prop := leb a b = true.

Lemma insert_hd (x y : A) (l : list A) :
  le_by y x -> HdRel le_by y l -> HdRel le_by y (insert leb x l).
Proof.
  intros Hyx H. destruct l as [|z l]; simpl.
  - constructor. exact Hyx.
  - destruct (leb x z); constructor; [exact Hyx|].
    inversion H; assumption.
Qed.

Lemma insert_Sorted (x : A) (l : list A) :
  Sorted le_by l -> Sorted le_by (insert leb x l).
Proof.
  induction 1 as [|y l S IH H]; simpl.
  - repeat constructor.
  - destruct (leb x y) eqn:E.
    + constructor; [constructor; assumption | constructor; exact E].
    + constructor; [exact IH|]. apply insert_hd; [|exact H].
      destruct (leb_total x y) as [T|T]; [congruence | exact T].
Qed.

Lemma sorted_Sorted (l : list A) : Sorted le_by (sorted leb l).
Proof.
  induction l as [|x l IH]; simpl; [constructor | apply insert_Sorted, IH].
Qed.

Lemma sorted_id (l : list A) : Sorted le_by l -> sorted leb l = l.
Proof.
  induction 1 as [|x l S IH H]; simpl; [reflexivity|].
  rewrite IH. destruct H as [|y l H]; simpl; [reflexivity|].
  unfold le_by in H. rewrite H. reflexivity.
Qed.

End SortedSorts.

Lemma Sorted_map {A B} (R : A -> A -> Prop) (Q : B -> B -> Prop) (f : A -> B)
    (l : list A) :
  (forall a b, In a l -> In b l -> R a b -> Q (f a) (f b)) ->
  Sorted R l -> Sorted Q (map f l).
Proof.
  intros H S. induction S as [|x l S IH Hd]; simpl; [constructor|].
  constructor.
  - apply IH. intros a b Ha Hb. apply H; simpl; auto.
  - destruct Hd as [|y l Hd]; simpl; constructor.
    apply H; simpl; auto.
Qed.

Lemma key_leb_total (a b : Z * Z) :
  Huffman.key_leb a b = true \/ Huffman.key_leb b a = true.
Proof.
  unfold Huffman.key_leb.
  destruct (Z.ltb_spec (fst a) (fst b)); [left; reflexivity|].
  destruct (Z.ltb_spec (fst b) (fst a)); [right; reflexivity|].
  assert (E : fst a = fst b) by lia. rewrite E, Z.eqb_refl. cbn [orb andb].
  destruct (Z.leb_spec (snd a) (snd b)); [left; reflexivity|].
  right. apply Z.leb_le. lia.
Qed.

Lemma key_leb_fst (a b : Z * Z) :
  Huffman.key_leb a b = true -> fst a <= fst b.
Proof.
  unfold Huffman.key_leb. intros H. apply orb_true_iff in H.
  destruct H as [H|H]; [apply Z.ltb_lt in H; lia|].
  apply andb_true_iff in H. destruct H as [H _]. apply Z.eqb_eq in H. lia.
Qed.

(** ** The RUN record *)

Section Run.
Variables (s : byte) (n : nat).

Lemma huffman_encode_run :
  Huffman.encode (repeat s (S n))
  = (c <- to_bytes 59 (Z.of_nat (S n)) 4 ;; Ok ([x52; x55; x4e] ++ [s] ++ c)).
Proof.
  unfold Huffman.encode. rewrite Counter_repeat.
  cbn [repeat length Nat.eqb keys map fst index nth_error bind
       bytes_of_ints mapM].
  unfold byte_of_int. rewrite mk_byte_val. cbn [bind].
  unfold len. change (s :: repeat s n) with (repeat s (S n)).
  rewrite repeat_length. reflexivity.
Qed.

Lemma arithmetic_encode_run :
  Arithmetic.encode (repeat s (S n))
  = (c <- to_bytes 86 (Z.of_nat (S n)) 4 ;; Ok ([x52; x55; x4e] ++ [s] ++ c)).
Proof.
  unfold Arithmetic.encode. rewrite Counter_repeat.
  cbn [repeat length Nat.eqb keys map fst index nth_error bind
       bytes_of_ints mapM].
  unfold byte_of_int. rewrite mk_byte_val. cbn [bind].
  unfold len. change (s :: repeat s n) with (repeat s (S n)).
  rewrite repeat_length. reflexivity.
Qed.

Lemma decode_run_record (line : nat) (k : Z) :
  0 <= k < 2 ^ 32 ->
  Arithmetic.decode_run line (run_record s k) = Ok (repeat s (Z.to_nat k)).
Proof.
  intros H. unfold Arithmetic.decode_run, run_record.
  unfold slice.
  cbn [app index nth_error bind skipn Nat.sub].
  rewrite firstn_all2 by (rewrite be_digits_length; lia).
  rewrite from_bytes_be_digits. change (256 ^ Z.of_nat 4) with (2 ^ 32).
  rewrite Z.mod_small by lia. reflexivity.
Qed.
End Run.

(** C7, amended. For every nonempty input of fewer than [2^32] bytes that
    repeats a single byte value [s] ([n] copies), [encode] of either coder
    returns exactly the 8-byte record made of the 3-byte tag, the byte [s]
    and [n] as a 4-byte big-endian integer, and [decode] of that record
    returns the [n] copies of [s]. *)
Theorem run_shortcut (s : byte) (n : nat) :
  (0 < n)%nat -> Z.of_nat n < 2 ^ 32 ->
  Huffman.encode (repeat s n) = Ok (run_record s (Z.of_nat n))
  /\ Arithmetic.encode (repeat s n) = Ok (run_record s (Z.of_nat n))
  /\ length (run_record s (Z.of_nat n)) = 8%nat
  /\ Huffman.decode (run_record s (Z.of_nat n)) = Ok (repeat s n)
  /\ Arithmetic.decode (run_record s (Z.of_nat n)) = Ok (repeat s n).
Proof.
  intros Hpos Hlt. destruct n as [|n]; [lia|].
  assert (Hr : 0 <= Z.of_nat (S n) < 256 ^ Z.of_nat 4)
    by (change (256 ^ Z.of_nat 4) with (2 ^ 32); lia).
  split; [|split; [|split; [|split]]].
  - rewrite huffman_encode_run, to_bytes_ok by exact Hr. reflexivity.
  - rewrite arithmetic_encode_run, to_bytes_ok by exact Hr. reflexivity.
  - unfold run_record. cbn [app length]. rewrite be_digits_length. reflexivity.
  - change (Huffman.decode (run_record s (Z.of_nat (S n))))
      with (Arithmetic.decode_run 94 (run_record s (Z.of_nat (S n)))).
    rewrite decode_run_record, Nat2Z.id by (change (2 ^ 32) with (256 ^ Z.of_nat 4); lia).
    reflexivity.
  - change (Arithmetic.decode (run_record s (Z.of_nat (S n))))
      with (Arithmetic.decode_run 146 (run_record s (Z.of_nat (S n)))).
    rewrite decode_run_record, Nat2Z.id by (change (2 ^ 32) with (256 ^ Z.of_nat 4); lia).
    reflexivity.
Qed.

Lemma run_shortcut_witness :
  Huffman.encode (repeat x07 1000)
  = Ok [x52; x55; x4e; x07; x00; x00; x03; xe8]
  /\ Huffman.decode [x52; x55; x4e; x07; x00; x00; x03; xe8]
     = Ok (repeat x07 1000).
Proof.
  pose proof (run_shortcut x07 1000 ltac:(lia) ltac:(lia)) as (H1 & _ & _ & H2 & _).
  split; [exact H1 | exact H2].
Defined.

(** The claim as stated fails on [2^32] copies of a byte: the count does
    not fit the 4 bytes of the record and [encode] raises. *)
Lemma run_shortcut_too_long :
  let d := repeat x07 (Z.to_nat 4294967296) in
  Huffman.encode d = Raise OverflowError 59
  /\ Arithmetic.encode d = Raise OverflowError 86.
Proof.
  intros d.
  assert (E : exists m, Z.to_nat 4294967296 = S m /\ 4294967296 = Z.of_nat (S m)).
  { exists (Nat.pred (Z.to_nat 4294967296)). split; lia. }
  destruct E as (m & E1 & E2). subst d. rewrite E1. clear E1.
  rewrite huffman_encode_run, arithmetic_encode_run.
  rewrite !to_bytes_overflow; [split; reflexivity | |];
    rewrite <- E2; change (256 ^ Z.of_nat 4) with 4294967296; lia.
Qed.

(** C9. For both coders [encode] of the empty byte sequence returns the
    empty byte sequence, and so does [decode], without raising. *)
Theorem empty_input :
  Huffman.encode [] = Ok [] /\ Huffman.decode [] = Ok []
  /\ Arithmetic.encode [] = Ok [] /\ Arithmetic.decode [] = Ok [].
Proof. repeat split. Qed.

(** ** The bit source *)

Lemma land_shiftr_1 (a i : Z) :
  0 <= i -> Z.land (Z.shiftr a i) 1 = Z.b2z (Z.testbit a i).
Proof.
  intros H. change 1 with (Z.ones 1).
  rewrite Z.land_ones by lia. rewrite Z.pow_1_r.
  rewrite <- Z.bit0_mod, Z.shiftr_spec by lia. reflexivity.
Qed.

Lemma init_bits_nth (blob : list byte) (i : nat) :
  nth i (Arithmetic._BitIn.bits (Arithmetic._BitIn.init blob)) 0 = stream_bit blob i.
Proof.
  cbn [Arithmetic._BitIn.init Arithmetic._BitIn.bits]. revert i.
  induction blob as [|b blob IH]; intros i.
  - unfold stream_bit. destruct i, (_ / 8)%nat; reflexivity.
  - cbn [flat_map]. destruct (Nat.lt_ge_cases i 8) as [Hi|Hi].
    + rewrite app_nth1 by (simpl; lia).
      unfold stream_bit. rewrite Nat.div_small, Nat.mod_small by lia.
      cbn [nth_error map].
      do 8 (destruct i as [|i];
            [cbn [nth Nat.sub]; apply land_shiftr_1; lia|]).
      lia.
    + rewrite app_nth2 by (simpl; lia). cbn [map length].
      rewrite IH. unfold stream_bit.
      assert (Hd : (i / 8 = S ((i - 8) / 8))%nat).
      { replace i with ((i - 8) + 1 * 8)%nat at 1 by lia.
        rewrite Nat.div_add by lia. lia. }
      assert (Hm : (i mod 8 = (i - 8) mod 8)%nat).
      { replace i with ((i - 8) + 1 * 8)%nat at 1 by lia.
        apply Nat.Div0.mod_add. }
      rewrite Hd, Hm. reflexivity.
Qed.

Lemma get_value (s : Arithmetic._BitIn.t) :
  fst (Arithmetic._BitIn.get s) = nth (Arithmetic._BitIn.idx s) (Arithmetic._BitIn.bits s) 0.
Proof.
  unfold Arithmetic._BitIn.get.
  destruct (length (Arithmetic._BitIn.bits s)
            <=? Arithmetic._BitIn.idx s)%nat eqn:E; [|reflexivity].
  apply Nat.leb_le in E. cbn [fst]. symmetry. apply nth_overflow. exact E.
Qed.

Lemma get_bits (s : Arithmetic._BitIn.t) :
  Arithmetic._BitIn.bits (snd (Arithmetic._BitIn.get s)) = Arithmetic._BitIn.bits s.
Proof.
  unfold Arithmetic._BitIn.get.
  destruct (length (Arithmetic._BitIn.bits s) <=? Arithmetic._BitIn.idx s)%nat; reflexivity.
Qed.

(** After a read the cursor has advanced, or it is at or past the end
    and stays there. *)
Lemma get_idx (s : Arithmetic._BitIn.t) (j : nat) :
  nth (Arithmetic._BitIn.idx (snd (Arithmetic._BitIn.get s)) + j) (Arithmetic._BitIn.bits s) 0
  = nth (Arithmetic._BitIn.idx s + S j) (Arithmetic._BitIn.bits s) 0.
Proof.
  unfold Arithmetic._BitIn.get.
  destruct (length (Arithmetic._BitIn.bits s)
            <=? Arithmetic._BitIn.idx s)%nat eqn:E;
    cbn [snd Arithmetic._BitIn.idx].
  - apply Nat.leb_le in E. rewrite !nth_overflow by lia. reflexivity.
  - f_equal. lia.
Qed.

Lemma reads_from (k : nat) (s : Arithmetic._BitIn.t) :
  fst (reads k s)
  = map (fun j => nth (Arithmetic._BitIn.idx s + j) (Arithmetic._BitIn.bits s) 0) (seq 0 k).
Proof.
  revert s. induction k as [|k IH]; intros s; [reflexivity|].
  cbn [reads seq map].
  pose proof (get_value s) as Hv. pose proof (get_bits s) as Hb.
  pose proof (get_idx s) as Hi.
  destruct (Arithmetic._BitIn.get s) as [b s']. cbn [fst snd] in *.
  specialize (IH s'). destruct (reads k s') as [bs s'']. cbn [fst] in *.
  rewrite Nat.add_0_r. f_equal; [exact Hv|].
  rewrite IH, <- seq_shift, map_map, Hb. apply map_ext. intros j. apply Hi.
Qed.

(** C8. Any number [k] of successive reads from the bit source over any
    buffer succeeds and returns the first [k] bits of the buffer's stream:
    the bits of its bytes, most significant first, then zeros for ever. *)
Theorem bit_source_total (blob : list byte) (k : nat) :
  fst (reads k (Arithmetic._BitIn.init blob)) = map (stream_bit blob) (seq 0 k)
  /\ (forall i, (8 * length blob <= i)%nat -> stream_bit blob i = 0).
Proof.
  split.
  - rewrite reads_from. apply map_ext. intros j.
    change (Arithmetic._BitIn.idx (Arithmetic._BitIn.init blob)) with 0%nat.
    apply init_bits_nth.
  - intros i Hi. unfold stream_bit.
    replace (nth_error blob (i / 8)) with (@None byte); [reflexivity|].
    symmetry. apply nth_error_None.
    apply Nat.div_le_lower_bound; lia.
Qed.

(** ** The interval of the arithmetic coder *)

Module Interval.
Import Arithmetic.

(** The interval [low, high] lies within [0, 2^32 - 1] and is not empty. *)
Definition proper (l h : Z) : Prop := 0 <= l <= h /\ h <= 2 ^ 32 - 1.

(** The live width of the interval. *)
Definition width (l h : Z) : Z := h - l + 1.

(** The bounds after one pass of a renormalisation loop ([None]: the loop
    is left), in arithmetic terms. *)
Definition renorm_step (l h : Z) : option (Z * Z) :=
  if h <? 2 ^ 31 then Some ((2 * l) mod 2 ^ 32, (2 * h + 1) mod 2 ^ 32)
  else if l >=? 2 ^ 31 then
    Some ((2 * (l - 2 ^ 31)) mod 2 ^ 32, (2 * (h - 2 ^ 31) + 1) mod 2 ^ 32)
  else if (l >=? 2 ^ 30) && (h <? 3 * 2 ^ 30) then
    Some ((2 * (l - 2 ^ 30)) mod 2 ^ 32, (2 * (h - 2 ^ 30) + 1) mod 2 ^ 32)
  else None.

Fixpoint renorm_iter (fuel : nat) (l h : Z) : option (Z * Z) :=
  match fuel with
  | O => None
  | S f =>
      match renorm_step l h with
      | None => Some (l, h)
      | Some (l', h') => renorm_iter f l' h'
      end
  end.

Lemma shl0 (x : Z) : Z.land (Z.shiftl x 1) (_TOP - 1) = (2 * x) mod 2 ^ 32.
Proof.
  change (_TOP - 1) with (Z.ones 32).
  rewrite Z.land_ones, Z.shiftl_mul_pow2 by lia. f_equal. lia.
Qed.

Lemma lor_double_1 (x : Z) : Z.lor (2 * x) 1 = 2 * x + 1.
Proof.
  apply Z.bits_inj'. intros n Hn. rewrite Z.lor_spec.
  destruct (Z.eq_dec n 0) as [->|Hne].
  - rewrite Z.testbit_even_0, Z.testbit_odd_0. reflexivity.
  - replace n with (Z.succ (n - 1)) by lia.
    rewrite Z.testbit_even_succ by lia.
    rewrite (Z.testbit_odd_succ x) by lia.
    rewrite (Z.bits_above_log2 1) by (simpl; lia). apply orb_false_r.
Qed.

Lemma shl1 (x : Z) :
  Z.land (Z.lor (Z.shiftl x 1) 1) (_TOP - 1) = (2 * x + 1) mod 2 ^ 32.
Proof.
  change (_TOP - 1) with (Z.ones 32).
  rewrite Z.land_ones, Z.shiftl_mul_pow2 by lia.
  rewrite Z.pow_1_r, (Z.mul_comm x 2), lor_double_1. reflexivity.
Qed.

Lemma emit_bounds (bit : Z) (st : enc_state) :
  low (emit bit st) = low st /\ high (emit bit st) = high st.
Proof. unfold emit. destruct (pending st =? 0); split; reflexivity. Qed.

Lemma enc_shift_bounds (st : enc_state) :
  low (enc_shift st) = (2 * low st) mod 2 ^ 32
  /\ high (enc_shift st) = (2 * high st + 1) mod 2 ^ 32.
Proof. unfold enc_shift. cbn [low high]. split; [apply shl0 | apply shl1]. Qed.

Definition enc_bounds (st : enc_state) : Z * Z := (low st, high st).
Definition dec_bounds (st : dec_state) : Z * Z := (d_low st, d_high st).

(** Both renormalisation loops move the bounds by [renorm_step]. *)
Lemma enc_renorm_body_bounds (st : enc_state) :
  option_map enc_bounds (enc_renorm_body st)
  = renorm_step (low st) (high st).
Proof.
  unfold enc_renorm_body, renorm_step, enc_bounds.
  change _HALF with (2 ^ 31). change _QTR with (2 ^ 30).
  destruct (high st <? 2 ^ 31).
  { cbn [option_map]. destruct (enc_shift_bounds (emit 0 st)) as [-> ->].
    destruct (emit_bounds 0 st) as [-> ->]. reflexivity. }
  destruct (low st >=? 2 ^ 31).
  { cbn [option_map].
    match goal with |- context [enc_shift ?s] =>
      destruct (enc_shift_bounds s) as [-> ->] end.
    match goal with |- context [emit 1 ?s] =>
      destruct (emit_bounds 1 s) as [-> ->] end. reflexivity. }
  destruct ((low st >=? 2 ^ 30) && (high st <? 3 * 2 ^ 30)); [|reflexivity].
  cbn [option_map].
  match goal with |- context [enc_shift ?s] =>
    destruct (enc_shift_bounds s) as [-> ->] end. reflexivity.
Qed.

Lemma dec_shift_bounds (st : dec_state) :
  d_low (dec_shift st) = (2 * d_low st) mod 2 ^ 32
  /\ d_high (dec_shift st) = (2 * d_high st + 1) mod 2 ^ 32.
Proof.
  unfold dec_shift. destruct (_BitIn.get (d_in st)). cbn [d_low d_high].
  split; [apply shl0 | apply shl1].
Qed.

Lemma dec_renorm_body_bounds (st : dec_state) :
  option_map dec_bounds (dec_renorm_body st)
  = renorm_step (d_low st) (d_high st).
Proof.
  unfold dec_renorm_body, renorm_step, dec_bounds.
  change _HALF with (2 ^ 31). change _QTR with (2 ^ 30).
  destruct (d_high st <? 2 ^ 31).
  { cbn [option_map]. destruct (dec_shift_bounds st) as [-> ->]. reflexivity. }
  destruct (d_low st >=? 2 ^ 31).
  { cbn [option_map].
    match goal with |- context [dec_shift ?s] =>
      destruct (dec_shift_bounds s) as [-> ->] end. reflexivity. }
  destruct ((d_low st >=? 2 ^ 30) && (d_high st <? 3 * 2 ^ 30)); [|reflexivity].
  cbn [option_map].
  match goal with |- context [dec_shift ?s] =>
    destruct (dec_shift_bounds s) as [-> ->] end. reflexivity.
Qed.

(** *** One pass keeps a proper interval proper and doubles its width *)

Ltac step_cases H :=
  unfold renorm_step in H;
  repeat match type of H with
    | context [?a <? ?b] => destruct (Z.ltb_spec a b)
    | context [?a >=? ?b] =>
        let E := fresh "E" in
        destruct (a >=? b) eqn:E;
        [apply Z.geb_le in E | rewrite Z.geb_leb in E; apply Z.leb_gt in E]
    end; cbn [andb] in H; try discriminate.

Ltac some_pair H :=
  let E1 := fresh "E" in
  let E2 := fresh "E" in
  pose proof (f_equal (fun o => match o with Some p => fst p | None => 0 end) H)
    as E1;
  pose proof (f_equal (fun o => match o with Some p => snd p | None => 0 end) H)
    as E2;
  cbv beta iota delta [fst snd] in E1, E2; clear H;
  first [subst | idtac].

Lemma renorm_step_proper (l h l' h' : Z) :
  proper l h -> renorm_step l h = Some (l', h') ->
  proper l' h' /\ width l' h' = 2 * width l h.
Proof.
  unfold proper, width. intros P H. step_cases H;
    some_pair H; rewrite !Z.mod_small by lia; lia.
Qed.

Lemma renorm_step_exit (l h : Z) :
  proper l h -> renorm_step l h = None -> 2 ^ 30 + 2 <= width l h.
Proof. unfold proper, width. intros P H. step_cases H; lia. Qed.

Lemma renorm_step_range (l h l' h' : Z) :
  renorm_step l h = Some (l', h') ->
  0 <= l' < 2 ^ 32 /\ 0 <= h' < 2 ^ 32.
Proof.
  intros H. step_cases H; some_pair H;
    split; apply Z.mod_pos_bound; lia.
Qed.

(** *** Every renormalisation loop terminates *)

Definition terminates (fuel : nat) (l h : Z) : Prop :=
  renorm_iter fuel l h <> None.

Lemma terminates_mono (n m : nat) (l h : Z) :
  (n <= m)%nat -> terminates n l h -> terminates m l h.
Proof.
  unfold terminates. revert m l h. induction n as [|n IH]; intros m l h Hle H.
  - exfalso. apply H. reflexivity.
  - destruct m as [|m]; [lia|]. cbn [renorm_iter] in *.
    destruct (renorm_step l h) as [[l' h']|]; [|discriminate].
    apply IH; [lia | exact H].
Qed.

Lemma terminates_proper (n : nat) (l h : Z) :
  proper l h -> 2 ^ 32 < width l h * 2 ^ Z.of_nat n -> terminates (S n) l h.
Proof.
  revert l h. induction n as [|n IH]; intros l h P W.
  - exfalso. unfold proper, width in *. simpl in W. lia.
  - unfold terminates. cbn [renorm_iter].
    destruct (renorm_step l h) as [[l' h']|] eqn:E; [|discriminate].
    destruct (renorm_step_proper _ _ _ _ P E) as [P' W'].
    apply IH; [exact P'|]. rewrite W'.
    rewrite Nat2Z.inj_succ, Z.pow_succ_r in W by lia. lia.
Qed.

Lemma terminates_proper_34 (l h : Z) : proper l h -> terminates 34 l h.
Proof.
  intros P. apply terminates_proper; [exact P|].
  unfold proper, width in *. change (2 ^ Z.of_nat 33) with (2 * 2 ^ 32). lia.
Qed.

(** The low [k] bits of the bounds are settled: zeros in [l], ones in [h]. *)
Definition settled (k : nat) (l h : Z) : Prop :=
  (0 <= l < 2 ^ 32 /\ 0 <= h < 2 ^ 32)
  /\ (2 ^ Z.of_nat k | l) /\ (2 ^ Z.of_nat k | h + 1).

Lemma divide_mod_pow2 (k : nat) (a : Z) :
  (k <= 32)%nat -> (2 ^ Z.of_nat k | a) -> (2 ^ Z.of_nat k | a mod 2 ^ 32).
Proof.
  intros Hk Ha. rewrite Z.mod_eq by lia. apply Z.divide_sub_r; [exact Ha|].
  apply Z.divide_mul_l.
  exists (2 ^ (32 - Z.of_nat k)). rewrite <- Z.pow_add_r by lia. f_equal. lia.
Qed.

Lemma settled_step (k : nat) (l h l' h' : Z) :
  (k < 32)%nat -> settled k l h -> ~ proper l h ->
  renorm_step l h = Some (l', h') -> settled (S k) l' h'.
Proof.
  intros Hk (R & Dl & Dh) NP H.
  assert (Hp : 2 ^ Z.of_nat (S k) = 2 * 2 ^ Z.of_nat k)
    by (rewrite Nat2Z.inj_succ, Z.pow_succ_r by lia; reflexivity).
  split; [exact (renorm_step_range _ _ _ _ H)|].
  assert (D2l : (2 ^ Z.of_nat (S k) | 2 * l))
    by (rewrite Hp; apply Z.mul_divide_mono_l; exact Dl).
  assert (D2h : (2 ^ Z.of_nat (S k) | 2 * (h + 1)))
    by (rewrite Hp; apply Z.mul_divide_mono_l; exact Dh).
  assert (DT : (2 ^ Z.of_nat (S k) | 2 ^ 32)).
  { exists (2 ^ (32 - Z.of_nat (S k))). rewrite <- Z.pow_add_r by lia.
    f_equal. lia. }
  assert (Hmod : forall a, (2 ^ Z.of_nat (S k) | a) ->
                           (2 ^ Z.of_nat (S k) | a mod 2 ^ 32))
    by (intros a; apply divide_mod_pow2; lia).
  assert (Hmod1 : forall a, (2 ^ Z.of_nat (S k) | a + 1) ->
                            (2 ^ Z.of_nat (S k) | a mod 2 ^ 32 + 1)).
  { intros a Da. rewrite Z.mod_eq by lia.
    replace (a - 2 ^ 32 * (a / 2 ^ 32) + 1)
      with (a + 1 - 2 ^ 32 * (a / 2 ^ 32)) by ring.
    apply Z.divide_sub_r; [exact Da|]. apply Z.divide_mul_l. exact DT. }
  unfold proper in NP. step_cases H; some_pair H; try lia.
  all: split;
    [ apply Hmod;
      first [ exact D2l
            | replace (2 * (l - 2 ^ 31)) with (2 * l - 2 ^ 32) by ring;
              apply Z.divide_sub_r; assumption ]
    | apply Hmod1;
      first [ replace (2 * h + 1 + 1) with (2 * (h + 1)) by ring; exact D2h
            | replace (2 * (h - 2 ^ 31) + 1 + 1)
                with (2 * (h + 1) - 2 ^ 32) by ring;
              apply Z.divide_sub_r; assumption ] ].
Qed.

Lemma settled_32 (l h : Z) : settled 32 l h -> proper l h.
Proof.
  intros ((Rl & Rh) & [q Hq] & [p Hp]). unfold proper.
  change (2 ^ Z.of_nat 32) with (2 ^ 32) in *. lia.
Qed.

Lemma terminates_settled (j : nat) (l h : Z) :
  (j <= 32)%nat -> settled (32 - j) l h -> terminates (j + 34) l h.
Proof.
  revert l h. induction j as [|j IH]; intros l h Hj S.
  - apply terminates_proper_34, settled_32. exact S.
  - assert (Dec : proper l h \/ ~ proper l h) by (unfold proper; lia).
    destruct Dec as [P|NP].
    + apply (terminates_mono 34); [lia | apply terminates_proper_34, P].
    + unfold terminates. cbn [Nat.add renorm_iter].
      destruct (renorm_step l h) as [[l' h']|] eqn:E; [|discriminate].
      apply IH; [lia|].
      replace (32 - j)%nat with (Datatypes.S (32 - Datatypes.S j)) by lia.
      apply (settled_step _ l h); [lia | exact S | exact NP | exact E].
Qed.

Lemma renorm_iter_S (f : nat) (l h : Z) :
  renorm_iter (S f) l h
  = match renorm_step l h with
    | None => Some (l, h)
    | Some (l', h') => renorm_iter f l' h'
    end.
Proof. reflexivity. Qed.

Lemma renorm_terminates (l h : Z) : terminates renorm_fuel l h.
Proof.
  unfold terminates, renorm_fuel.
  change 70%nat with (S 69). rewrite renorm_iter_S.
  destruct (renorm_step l h) as [[l' h']|] eqn:E; [|discriminate].
  change (terminates 69 l' h').
  apply (terminates_mono (32 + 34)); [lia|].
  apply terminates_settled; [lia|].
  split; [exact (renorm_step_range _ _ _ _ E)|].
  change (2 ^ Z.of_nat (32 - 32)) with 1. split; apply Z.divide_1_l.
Qed.

Lemma enc_renorm_iter (fuel : nat) (st : enc_state) :
  option_map enc_bounds (enc_renorm fuel st)
  = renorm_iter fuel (low st) (high st).
Proof.
  revert st. induction fuel as [|f IH]; intros st; [reflexivity|].
  cbn [enc_renorm renorm_iter].
  pose proof (enc_renorm_body_bounds st) as B.
  destruct (enc_renorm_body st) as [st'|]; cbn [option_map] in B; rewrite <- B.
  - rewrite IH. reflexivity.
  - reflexivity.
Qed.

Lemma dec_renorm_iter (fuel : nat) (st : dec_state) :
  option_map dec_bounds (dec_renorm fuel st)
  = renorm_iter fuel (d_low st) (d_high st).
Proof.
  revert st. induction fuel as [|f IH]; intros st; [reflexivity|].
  cbn [dec_renorm renorm_iter].
  pose proof (dec_renorm_body_bounds st) as B.
  destruct (dec_renorm_body st) as [st'|]; cbn [option_map] in B; rewrite <- B.
  - rewrite IH. reflexivity.
  - reflexivity.
Qed.

(** The bounded unrolling never runs out: both loops always exit. *)
Lemma enc_renorm_total (st : enc_state) :
  exists st', enc_renorm renorm_fuel st = Some st'.
Proof.
  pose proof (renorm_terminates (low st) (high st)) as T.
  unfold terminates in T. rewrite <- enc_renorm_iter in T.
  destruct (enc_renorm renorm_fuel st); [eauto | contradiction].
Qed.

Lemma dec_renorm_total (st : dec_state) :
  exists st', dec_renorm renorm_fuel st = Some st'.
Proof.
  pose proof (renorm_terminates (d_low st) (d_high st)) as T.
  unfold terminates in T. rewrite <- dec_renorm_iter in T.
  destruct (dec_renorm renorm_fuel st); [eauto | contradiction].
Qed.

End Interval.

(** ** The frequency tables of the arithmetic coder *)

Module Tables.
Import Arithmetic.

(** The running sums of the weights [w] over [symbols], from [a]:
    one more entry than there are symbols. *)
Fixpoint psums (w : Z -> Z) (a : Z) (symbols : list Z) : list Z :=
  match symbols with
  | [] => [a]
  | s :: t => a :: psums w (a + w s) t
  end.

(** A symbol table fit for partitioning an interval: every symbol has a
    cumulative offset and a positive frequency inside [0, total]. *)
Definition partition (symbols : list Z) (fr : Z -> option Z)
    (cum : list (Z * Z)) (total : Z) : Prop :=
  forall s, In s symbols ->
    exists c f, get Z.eqb cum s = Some c /\ fr s = Some f
                /\ 0 <= c /\ 1 <= f /\ c + f <= total.

Lemma psums_length (w : Z -> Z) (a : Z) (l : list Z) :
  length (psums w a l) = S (length l).
Proof. revert a. induction l; intros; simpl; auto. Qed.

Lemma psums_last (w : Z -> Z) (a : Z) (l : list Z) :
  last (psums w a l) 0 = a + sumZ (map w l).
Proof.
  revert a. induction l as [|s l IH]; intros a.
  - simpl. lia.
  - cbn [psums map sumZ fold_right].
    change (last (a :: psums w (a + w s) l) 0)
      with (match psums w (a + w s) l with
            | [] => a | _ :: _ => last (psums w (a + w s) l) 0 end).
    destruct (psums w (a + w s) l) eqn:E.
    + pose proof (psums_length w (a + w s) l) as L. rewrite E in L. discriminate.
    + rewrite <- E, IH. unfold sumZ. lia.
Qed.

Lemma enc_cum_list_psums (freq : list (Z * Z)) (symbols : list Z) :
  enc_cum_list freq symbols = psums (count freq) 0 symbols.
Proof.
  unfold enc_cum_list.
  set (f := fun '(cum, running) s =>
              let running := running + count freq s in
              (cum ++ [running], running)).
  assert (G : forall l acc r,
            fst (fold_left f l (acc ++ [r], r))
            = acc ++ psums (count freq) r l).
  { induction l as [|s l IH]; intros acc r.
    - reflexivity.
    - cbn [fold_left psums].
      change (f (acc ++ [r], r) s)
        with ((acc ++ [r]) ++ [r + count freq s], r + count freq s).
      rewrite IH, <- app_assoc. reflexivity. }
  apply (G symbols [] 0).
Qed.

Lemma combine_psums_get (w : Z -> Z) (symbols : list Z) (a : Z) (s : Z) :
  (forall x, In x symbols -> 0 <= w x) -> NoDup symbols -> In s symbols ->
  exists c, get Z.eqb (combine symbols (psums w a symbols)) s = Some c
            /\ a <= c /\ c + w s <= a + sumZ (map w symbols).
Proof.
  revert a. induction symbols as [|x l IH]; intros a W ND H; [destruct H|].
  cbn [psums combine get map sumZ fold_right]. fold (sumZ (map w l)).
  assert (Wl : 0 <= sumZ (map w l)).
  { clear -W. induction l as [|y l IH]; simpl; [lia|].
    assert (0 <= w y) by (apply W; simpl; auto).
    assert (0 <= sumZ (map w l)) by (apply IH; intros; apply W; simpl in *; tauto).
    unfold sumZ in *. lia. }
  inversion ND as [|? ? Hn ND']; subst.
  destruct (Z.eqb_spec s x) as [->|Hne].
  - exists a. split; [reflexivity|]. lia.
  - destruct H as [E|H]; [congruence|].
    destruct (IH (a + w x) (fun y Hy => W y (or_intror Hy)) ND' H)
      as (c & G & L1 & L2).
    exists c. split; [exact G|].
    assert (0 <= w x) by (apply W; simpl; auto). lia.
Qed.

Lemma keys_combine (symbols cum : list Z) :
  (length symbols <= length cum)%nat -> keys (combine symbols cum) = symbols.
Proof.
  revert cum. induction symbols as [|s l IH]; intros [|c cum] H; simpl in *;
    try reflexivity; try lia.
  f_equal. apply IH. lia.
Qed.

Lemma sumZ_perm (a b : list Z) : Permutation a b -> sumZ a = sumZ b.
Proof. induction 1; simpl; lia. Qed.

Lemma sum_counts (d : list (Z * Z)) :
  NoDup (keys d) -> sumZ (map (count d) (keys d)) = sumZ (values d).
Proof.
  intros ND. unfold keys, values. rewrite map_map. f_equal.
  apply map_ext_in. intros [k v] H. unfold count. cbn [fst snd].
  rewrite (In_get d k v ND H). reflexivity.
Qed.

(** The tables the encoder builds from [Counter(data)]. *)
Lemma enc_tables_partition (data : list byte) :
  let freq := Counter data in
  let '(symbols, total, cum) := enc_tables freq in
  total = len data
  /\ Permutation (keys freq) symbols
  /\ partition symbols (fun s => Some (count freq s)) cum total.
Proof.
  intros freq. unfold enc_tables.
  pose proof (Counter_counted data) as C. fold freq in C.
  set (symbols := enc_symbols freq).
  assert (P : Permutation (keys freq) symbols) by apply sorted_perm.
  assert (ND : NoDup symbols)
    by (eapply Permutation_NoDup; [exact P | apply (counted_nodup _ _ C)]).
  assert (W : forall x, In x symbols -> 1 <= count freq x).
  { intros x Hx. apply (count_pos _ _ _ C).
    eapply Permutation_in; [symmetry; exact P | exact Hx]. }
  rewrite enc_cum_list_psums, psums_last.
  assert (T : 0 + sumZ (map (count freq) symbols) = len data).
  { rewrite <- (sumZ_perm _ _ (Permutation_map (count freq) P)).
    rewrite sum_counts by apply (counted_nodup _ _ C).
    rewrite (counted_sum _ _ C). lia. }
  split; [exact T|]. split; [exact P|].
  rewrite dict_of_nodup
    by (rewrite keys_combine; [exact ND | rewrite psums_length; lia]).
  intros s Hs.
  destruct (combine_psums_get (count freq) symbols 0 s) as (c & G & L1 & L2);
    [intros x Hx; specialize (W x Hx); lia | exact ND | exact Hs |].
  exists c, (count freq s). repeat split; auto; lia.
Qed.

End Tables.

(** ** A run of the arithmetic encoder *)

Module EncRun.
Import Arithmetic Interval Tables.

(** Where a run of a coder's main loop stands: about to narrow the
    interval for the next symbol, or inside the renormalisation loop. *)
Inductive phase : Type := AtSymbol | InRenorm.

Definition enc_config : Type := phase * list byte * enc_state.

(** One step of the loop of lines 109-125 over the bytes still to encode. *)
Inductive enc_step (freq cum : list (Z * Z)) (total : Z)
  : enc_config -> enc_config -> Prop :=
| enc_step_narrow b rest st st1 :
    enc_narrow freq cum total (byte_val b) st = Ok st1 ->
    enc_step freq cum total (AtSymbol, b :: rest, st) (InRenorm, rest, st1)
| enc_step_pass rest st st' :
    enc_renorm_body st = Some st' ->
    enc_step freq cum total (InRenorm, rest, st) (InRenorm, rest, st')
| enc_step_exit rest st :
    enc_renorm_body st = None ->
    enc_step freq cum total (InRenorm, rest, st) (AtSymbol, rest, st).

(** The configurations a run of the loop on [data] goes through. *)
Inductive enc_reach (freq cum : list (Z * Z)) (total : Z) (data : list byte)
  : enc_config -> Prop :=
| enc_reach_start : enc_reach freq cum total data (AtSymbol, data, enc_init)
| enc_reach_step c c' :
    enc_reach freq cum total data c -> enc_step freq cum total c c' ->
    enc_reach freq cum total data c'.

(** [q] is the exact floor of [x / t]. *)
Definition is_floor (q x t : Z) : Prop := q * t <= x < (q + 1) * t.

Lemma floor_div (x t : Z) : 0 < t -> is_floor (x / t) x t.
Proof.
  intros H. unfold is_floor.
  pose proof (Z.mul_div_le x t H). pose proof (Z.mul_succ_div_gt x t H). lia.
Qed.

Lemma narrow_proper (l h total c f : Z) :
  proper l h -> total <= width l h ->
  0 <= c -> 1 <= f -> c + f <= total ->
  let r := width l h in
  let l' := l + r * c / total in
  let h' := l' + r * f / total - 1 in
  proper l' h' /\ l <= l' /\ h' <= h.
Proof.
  unfold proper, width. intros P W Hc Hf Hcf. cbv zeta.
  set (r := h - l + 1) in *.
  assert (T : 0 < total) by lia.
  destruct (floor_div (r * c) total T) as [A1 A2].
  destruct (floor_div (r * f) total T) as [B1 B2].
  set (q := r * c / total) in *. set (q' := r * f / total) in *.
  assert (0 <= q) by (apply Z.div_pos; nia).
  assert (1 <= q') by (apply Z.div_le_lower_bound; nia).
  assert (q + q' <= r) by nia.
  lia.
Qed.

Lemma enc_narrow_value (freq cum : list (Z * Z)) (total b c : Z)
    (st : enc_state) :
  get Z.eqb cum b = Some c -> total <> 0 ->
  enc_narrow freq cum total b st
  = Ok (let r := high st - low st + 1 in
        let low' := low st + r * c / total in
        mkEnc low' (low' + r * count freq b / total - 1)
              (pending st) (bout st)).
Proof.
  intros G T. unfold enc_narrow, getitem, floordiv. rewrite G.
  apply Z.eqb_neq in T. rewrite T. reflexivity.
Qed.

Section Encoder.
Variable data : list byte.
Let freq := Counter data.
Let symbols := fst (fst (enc_tables freq)).
Let total := snd (fst (enc_tables freq)).
Let cum := snd (enc_tables freq).
Hypothesis short : len data <= 2 ^ 30.

Lemma tables_partition :
  total = len data
  /\ partition symbols (fun s => Some (count freq s)) cum total
  /\ forall b, In b data -> In (byte_val b) symbols.
Proof.
  pose proof (enc_tables_partition data) as H. cbv zeta in H.
  subst total symbols cum freq.
  destruct (enc_tables (Counter data)) as [[sy to] cu]. cbn [fst snd].
  destruct H as (T & P & Q). split; [exact T|]. split; [exact Q|].
  intros b Hb. eapply Permutation_in; [exact P|]. apply Counter_keys, Hb.
Qed.

(** The invariant of the run. *)
Definition enc_inv (c : enc_config) : Prop :=
  let '(ph, rest, st) := c in
  incl rest data
  /\ proper (low st) (high st)
  /\ (ph = AtSymbol -> 2 ^ 30 <= width (low st) (high st)).

Lemma enc_inv_step (c c' : enc_config) :
  enc_inv c -> enc_step freq cum total c c' -> enc_inv c'.
Proof.
  destruct tables_partition as (T & P & K).
  intros I S. destruct S as [b rest st st1 N | rest st st' B | rest st B];
    destruct I as (Hin & Pr & W).
  - assert (Hb : In (byte_val b) symbols) by (apply K, Hin; simpl; auto).
    destruct (P _ Hb) as (c & f & G & F & C0 & F1 & CF).
    injection F as <-.
    rewrite (enc_narrow_value _ _ _ _ c) in N by (auto; lia).
    injection N as <-. cbn [low high].
    split; [intros x Hx; apply Hin; simpl; auto|].
    split; [|discriminate].
    apply (narrow_proper (low st) (high st) total c (count freq (byte_val b)));
      auto.
    specialize (W eq_refl). lia.
  - split; [exact Hin|]. split; [|discriminate].
    pose proof (enc_renorm_body_bounds st) as E. rewrite B in E.
    cbn [option_map] in E. symmetry in E.
    apply (renorm_step_proper _ _ _ _ Pr E).
  - split; [exact Hin|]. split; [exact Pr|]. intros _.
    pose proof (enc_renorm_body_bounds st) as E. rewrite B in E.
    cbn [option_map] in E. symmetry in E.
    pose proof (renorm_step_exit _ _ Pr E). lia.
Qed.

Lemma enc_inv_reach (c : enc_config) :
  enc_reach freq cum total data c -> enc_inv c.
Proof.
  induction 1 as [|c c' R IH S].
  - split; [apply incl_refl|]. split; [|intros _]; cbn; unfold proper, width; lia.
  - exact (enc_inv_step _ _ IH S).
Qed.


Lemma enc_renorm_reach (fuel : nat) (rest : list byte) (st st' : enc_state) :
  enc_renorm fuel st = Some st' ->
  enc_reach freq cum total data (InRenorm, rest, st) ->
  enc_reach freq cum total data (AtSymbol, rest, st').
Proof.
  revert st. induction fuel as [|fuel IH]; intros st E R; [discriminate|].
  cbn [enc_renorm] in E. destruct (enc_renorm_body st) as [st1|] eqn:B.
  - apply (IH st1 E). eapply enc_reach_step; [exact R|].
    apply enc_step_pass. exact B.
  - injection E as <-. eapply enc_reach_step; [exact R|].
    apply enc_step_exit. exact B.
Qed.

(** The run completes, and ends in a configuration it goes through. *)
Lemma enc_loop_reach (rest : list byte) (st : enc_state) :
  enc_reach freq cum total data (AtSymbol, rest, st) ->
  exists st', enc_loop freq cum total st rest = Ok st'
              /\ enc_reach freq cum total data (AtSymbol, [], st').
Proof.
  destruct tables_partition as (T & P & K).
  revert st. induction rest as [|b rest IH]; intros st R.
  - exists st. split; [reflexivity | exact R].
  - pose proof (enc_inv_reach _ R) as (Hin & Pr & W).
    assert (Hb : In (byte_val b) symbols) by (apply K, Hin; simpl; auto).
    destruct (P _ Hb) as (c & f & G & F & C0 & F1 & CF).
    cbn [enc_loop]. unfold enc_symbol.
    rewrite (enc_narrow_value _ _ _ _ c) by (auto; lia). cbn [bind].
    match goal with |- context [enc_renorm renorm_fuel ?s] =>
      destruct (enc_renorm_total s) as [st2 E]; rewrite E;
      assert (R1 : enc_reach freq cum total data (InRenorm, rest, s))
    end.
    { eapply enc_reach_step; [exact R|]. apply enc_step_narrow.
      apply enc_narrow_value; [exact G | lia]. }
    cbn [bind]. apply IH. exact (enc_renorm_reach _ _ _ _ E R1).
Qed.

End Encoder.

(** For data of any length the loop runs to its end without raising. *)
Lemma enc_loop_ok (data : list byte) :
  let freq := Counter data in
  exists st,
    enc_loop freq (snd (enc_tables freq)) (snd (fst (enc_tables freq)))
             enc_init data = Ok st.
Proof.
  intros freq.
  pose proof (enc_tables_partition data) as H. cbv zeta in H. fold freq in H.
  destruct (enc_tables freq) as [[symbols total] cum]. cbn [fst snd].
  destruct H as (T & P & Q).
  assert (G : forall rest st, incl rest data ->
            exists st', enc_loop freq cum total st rest = Ok st').
  { induction rest as [|b rest IH]; intros st Hin; [eexists; reflexivity|].
    assert (Hb : In (byte_val b) symbols).
    { eapply Permutation_in; [exact P|]. apply Counter_keys, Hin. simpl; auto. }
    destruct (Q _ Hb) as (c & f & Gc & F & C0 & F1 & CF).
    cbn [enc_loop]. unfold enc_symbol.
    rewrite (enc_narrow_value _ _ _ _ c) by (auto; lia). cbn [bind].
    match goal with |- context [enc_renorm renorm_fuel ?s] =>
      destruct (enc_renorm_total s) as [st2 E]; rewrite E end.
    cbn [bind]. apply IH. intros x Hx. apply Hin. simpl; auto. }
  apply G, incl_refl.
Qed.

End EncRun.
(** ** The bit sink of the arithmetic encoder *)

Module Sink.
Import Arithmetic Interval Tables EncRun.

Definition is_bit (b : Z) : Prop := b = 0 \/ b = 1.

Lemma land_1_bit (b : Z) : is_bit (Z.land b 1).
Proof.
  change 1 with (Z.ones 1) at 1. rewrite Z.land_ones by lia.
  pose proof (Z.mod_pos_bound b (2 ^ 1) eq_refl). unfold is_bit.
  change (2 ^ 1) with 2 in *. lia.
Qed.

Lemma emit_bits (bit : Z) (st : enc_state) :
  Forall is_bit (bout st) -> Forall is_bit (bout (emit bit st)).
Proof.
  intros H. unfold emit, _BitOut.put, _BitOut.extend.
  destruct (pending st =? 0); cbn [bout].
  - apply Forall_app. split; [exact H | constructor; [apply land_1_bit | constructor]].
  - rewrite !Forall_app. repeat split; auto.
    + constructor; [apply land_1_bit | constructor].
    + apply Forall_forall. intros x Hx. apply repeat_spec in Hx. subst.
      apply land_1_bit.
Qed.

Lemma enc_renorm_body_bits (st st' : enc_state) :
  enc_renorm_body st = Some st' ->
  Forall is_bit (bout st) -> Forall is_bit (bout st').
Proof.
  unfold enc_renorm_body. intros E H.
  destruct (high st <? _HALF).
  { injection E as <-. cbn [enc_shift bout]. apply emit_bits, H. }
  destruct (low st >=? _HALF).
  { injection E as <-. cbn [enc_shift bout]. apply emit_bits, H. }
  destruct ((low st >=? _QTR) && (high st <? 3 * _QTR)); [|discriminate].
  injection E as <-. exact H.
Qed.

Lemma enc_renorm_bits (fuel : nat) (st st' : enc_state) :
  enc_renorm fuel st = Some st' ->
  Forall is_bit (bout st) -> Forall is_bit (bout st').
Proof.
  revert st. induction fuel as [|fuel IH]; intros st E H; [discriminate|].
  cbn [enc_renorm] in E. destruct (enc_renorm_body st) as [st1|] eqn:B.
  - apply (IH st1 E). exact (enc_renorm_body_bits _ _ B H).
  - injection E as <-. exact H.
Qed.

Lemma enc_narrow_bout (freq cum : list (Z * Z)) (total b : Z)
    (st st1 : enc_state) :
  enc_narrow freq cum total b st = Ok st1 ->
  bout st1 = bout st /\ pending st1 = pending st.
Proof.
  unfold enc_narrow, getitem, floordiv.
  destruct (get Z.eqb cum b); [|discriminate]. cbn [bind].
  destruct (total =? 0); [discriminate|]. cbn [bind].
  intros [= <-]. split; reflexivity.
Qed.

Lemma enc_loop_bits (freq cum : list (Z * Z)) (total : Z) (data : list byte)
    (st st' : enc_state) :
  enc_loop freq cum total st data = Ok st' ->
  Forall is_bit (bout st) -> Forall is_bit (bout st').
Proof.
  revert st. induction data as [|b data IH]; intros st E H.
  - injection E as <-. exact H.
  - cbn [enc_loop] in E. unfold enc_symbol in E.
    destruct (enc_narrow freq cum total (byte_val b) st) as [st1|] eqn:N;
      [|discriminate].
    cbn [bind] in E.
    destruct (enc_renorm renorm_fuel st1) as [st2|] eqn:R; [|discriminate].
    cbn [bind] in E. apply (IH st2 E).
    apply (enc_renorm_bits _ _ _ R).
    destruct (enc_narrow_bout _ _ _ _ _ _ N) as [-> _]. exact H.
Qed.

Lemma lor_bit (acc b : Z) :
  is_bit b -> Z.lor (Z.shiftl acc 1) b = 2 * acc + b.
Proof.
  rewrite Z.shiftl_mul_pow2 by lia. rewrite Z.pow_1_r, (Z.mul_comm acc 2).
  intros [-> | ->]; [rewrite Z.lor_0_r; lia | apply lor_double_1].
Qed.

Lemma pack_byte_range (chunk : list Z) :
  Forall is_bit chunk ->
  0 <= _BitOut.pack_byte chunk < 2 ^ Z.of_nat (length chunk).
Proof.
  unfold _BitOut.pack_byte.
  assert (G : forall l acc k, Forall is_bit l -> 0 <= acc < 2 ^ Z.of_nat k ->
            0 <= fold_left (fun byte b => Z.lor (Z.shiftl byte 1) b) l acc
            < 2 ^ Z.of_nat (k + length l)).
  { induction l as [|b l IH]; intros acc k F A.
    - simpl. rewrite Nat.add_0_r. exact A.
    - inversion F as [|? ? Hb F']; subst. cbn [fold_left length].
      replace (k + S (length l))%nat with (S k + length l)%nat by lia.
      apply IH; [exact F'|]. rewrite (lor_bit _ _ Hb).
      rewrite Nat2Z.inj_succ, Z.pow_succ_r by lia.
      destruct Hb as [-> | ->]; lia. }
  intros F. apply (G chunk 0 0%nat F). simpl. lia.
Qed.

(** [finish] never raises: the sink holds bits only. *)
Lemma finish_ok (bits : _BitOut.t) :
  Forall is_bit bits -> exists bs, _BitOut.finish bits = Ok bs.
Proof.
  intros F. unfold _BitOut.finish.
  set (padded := bits ++ _).
  assert (FP : Forall is_bit padded).
  { apply Forall_app. split; [exact F|]. apply Forall_forall.
    intros x Hx. apply repeat_spec in Hx. left. exact Hx. }
  destruct (mapM_ok (fun i => byte_of_int 47
                       (_BitOut.pack_byte (slice padded i (i + 8))))
                    (range8 (length padded))) as (bs & E & _); [|eauto].
  intros i _. unfold byte_of_int.
  pose proof (pack_byte_range _ (Forall_slice _ padded i (i + 8) FP)) as R.
  pose proof (slice_length8 padded i) as L.
  assert (2 ^ Z.of_nat (length (slice padded i (i + 8))) <= 2 ^ 8)
    by (apply Z.pow_le_mono_r; lia).
  destruct (mk_byte_in_range (_BitOut.pack_byte (slice padded i (i + 8))))
    as [b ->]; [change 256 with (2 ^ 8); lia | eauto].
Qed.

Lemma enc_final_bits (st : enc_state) :
  Forall is_bit (bout st) -> Forall is_bit (bout (enc_final st)).
Proof. intros H. unfold enc_final. apply emit_bits. exact H. Qed.

End Sink.

Import Arithmetic Interval Tables EncRun Sink.

(** ** A run of the arithmetic decoder *)

Module DecRun.
Import Arithmetic Interval Tables EncRun.

(** A header the decoder can partition the interval with: distinct
    symbols, positive frequencies, and a total of at most [2^30]. *)
Fixpoint nodupb (l : list Z) : bool :=
  match l with
  | [] => true
  | x :: t => negb (existsb (Z.eqb x) t) && nodupb t
  end.

Definition header_ok (h : header) : bool :=
  nodupb (h_symbols h)
  && forallb (fun kv => 1 <=? snd kv) (h_freq h)
  && negb (h_total h =? 0)
  && (h_total h <=? 2 ^ 30).

Definition dec_config : Type := phase * nat * option Z * dec_state.

(** One step of the loop of lines 177-201 with [k] symbols to produce. *)
Inductive dec_step (h : header) (cum : list (Z * Z))
  : dec_config -> dec_config -> Prop :=
| dec_step_narrow k s0 st scaled s st1 :
    floordiv 179 ((d_code st - d_low st + 1) * h_total h - 1)
             (d_high st - d_low st + 1) = Ok scaled ->
    dec_scan (h_freq h) cum scaled (h_symbols h) s0 = Ok (Some s) ->
    dec_narrow (h_freq h) cum (h_total h) s st = Ok st1 ->
    dec_step h cum (AtSymbol, S k, s0, st) (InRenorm, k, Some s, st1)
| dec_step_pass k s st st' :
    dec_renorm_body st = Some st' ->
    dec_step h cum (InRenorm, k, s, st) (InRenorm, k, s, st')
| dec_step_exit k s st :
    dec_renorm_body st = None ->
    dec_step h cum (InRenorm, k, s, st) (AtSymbol, k, s, st).

(** The configurations a run of [decode] on [blob] goes through. *)
Inductive dec_reach (h : header) (cum : list (Z * Z)) (blob : list byte)
  : dec_config -> Prop :=
| dec_reach_start :
    dec_reach h cum blob
      (AtSymbol, Z.to_nat (h_n h), last (map Some (h_symbols h)) None,
       dec_init h blob)
| dec_reach_step c c' :
    dec_reach h cum blob c -> dec_step h cum c c' -> dec_reach h cum blob c'.

Lemma nodupb_NoDup (l : list Z) : nodupb l = true -> NoDup l.
Proof.
  induction l as [|x l IH]; intros H; [constructor|].
  cbn in H. apply andb_true_iff in H. destruct H as [H1 H2].
  constructor; [|apply IH; exact H2].
  intros Hin. apply negb_true_iff in H1.
  assert (existsb (Z.eqb x) l = true)
    by (apply existsb_exists; exists x; split; [exact Hin | apply Z.eqb_refl]).
  congruence.
Qed.

(** *** What [parse_table] returns *)

Lemma parse_table_entries (mv : list byte) (sc i : nat) (symbols : list Z)
    (freq : list (Z * Z)) (total : Z) r :
  parse_table mv sc i symbols freq total = Ok r ->
  exists entries : list (Z * Z),
    r = (symbols ++ keys entries, update Z.eqb freq entries,
         total + sumZ (values entries), (i + 5 * sc)%nat)
    /\ Forall (fun kv => 0 <= fst kv < 256) entries.
Proof.
  revert i symbols freq total. induction sc as [|sc IH];
    intros i symbols freq total E.
  - injection E as <-. exists []. cbn. rewrite app_nil_r, Z.add_0_r, Nat.add_0_r.
    split; [reflexivity | constructor].
  - cbn [parse_table] in E. unfold index in E.
    destruct (nth_error mv i) as [s|]; [|discriminate]. cbn [bind] in E.
    destruct (IH _ _ _ _ E) as (entries & -> & F).
    exists ((byte_val s, from_bytes (slice mv (i + 1) (i + 5))) :: entries).
    split.
    + unfold keys, values, update. cbn [map fst snd fold_left sumZ fold_right].
      rewrite <- app_assoc. cbn [app].
      replace (i + 5 + 5 * sc)%nat with (i + 5 * S sc)%nat by lia.
      fold (sumZ (map snd entries)).
      rewrite Z.add_assoc. reflexivity.
    + constructor; [apply byte_val_range | exact F].
Qed.

Lemma parse_header_tables (mv : list byte) (h : header) :
  parse_header mv = Ok h -> NoDup (h_symbols h) ->
  keys (h_freq h) = h_symbols h
  /\ h_total h = sumZ (values (h_freq h))
  /\ Forall (fun s => 0 <= s < 256) (h_symbols h).
Proof.
  unfold parse_header, index. destruct (nth_error mv 4) as [sc|]; [|discriminate].
  cbn [bind].
  destruct (parse_table mv (Z.to_nat (byte_val sc)) 5 [] [] 0) as [r|] eqn:E;
    [|discriminate].
  destruct (parse_table_entries _ _ _ _ _ _ _ E) as (entries & -> & F).
  cbn [bind]. intros [= <-]. cbn [h_symbols h_freq h_total app]. intros ND.
  rewrite update_nodup by exact ND. cbn [app].
  split; [reflexivity|]. split; [lia|].
  unfold keys. rewrite Forall_map. exact F.
Qed.

(** *** What [dec_cum] returns *)

Lemma dec_cum_psums (symbols : list Z) (freq : list (Z * Z)) :
  NoDup symbols -> (forall s, In s symbols -> In s (keys freq)) ->
  dec_cum symbols freq
  = Ok (combine (sorted Z.leb symbols)
                (psums (count freq) 0 (sorted Z.leb symbols))).
Proof.
  intros ND K. unfold dec_cum.
  assert (NDs : NoDup (sorted Z.leb symbols))
    by (eapply Permutation_NoDup; [apply sorted_perm | exact ND]).
  assert (Ks : forall s, In s (sorted Z.leb symbols) -> In s (keys freq)).
  { intros s Hs. apply K. eapply Permutation_in; [symmetry; apply sorted_perm|].
    exact Hs. }
  set (go := fix go (l : list Z) (cum : list (Z * Z)) (run : Z) := _).
  assert (G : forall l cum run,
            NoDup (keys cum ++ l) -> (forall s, In s l -> In s (keys freq)) ->
            exists run', go l cum run
                         = Ok (cum ++ combine l (psums (count freq) run l), run')).
  { induction l as [|s l IH]; intros cum run N Kl.
    - exists run. cbn. rewrite app_nil_r. reflexivity.
    - cbn [go]. fold go. unfold getitem.
      destruct (get_Some_key freq s (Kl s (or_introl eq_refl))) as [f Ef].
      rewrite Ef. cbn [bind].
      rewrite set_absent
        by (apply NoDup_remove_2 in N; intros H; apply N, in_or_app; auto).
      destruct (IH (cum ++ [(s, run)]) (run + f)) as [run' ->].
      + unfold keys. rewrite map_app, <- app_assoc. exact N.
      + intros x Hx. apply Kl. simpl; auto.
      + exists run'. rewrite <- app_assoc. cbn [psums combine app].
        unfold count. rewrite Ef. reflexivity. }
  destruct (G (sorted Z.leb symbols) [] 0 NDs Ks) as [run' ->].
  reflexivity.
Qed.

Lemma header_partition (mv : list byte) (h : header) (cum : list (Z * Z)) :
  parse_header mv = Ok h ->
  dec_cum (h_symbols h) (h_freq h) = Ok cum ->
  header_ok h = true ->
  partition (h_symbols h) (get Z.eqb (h_freq h)) cum (h_total h)
  /\ 0 < h_total h <= 2 ^ 30
  /\ Forall (fun s => 0 <= s < 256) (h_symbols h)
  /\ h_symbols h <> [].
Proof.
  intros P C OK. unfold header_ok in OK.
  repeat (apply andb_true_iff in OK; destruct OK as [OK ?]).
  apply nodupb_NoDup in OK.
  destruct (parse_header_tables _ _ P OK) as (K & T & R).
  assert (Pos : forall s, In s (h_symbols h) -> 1 <= count (h_freq h) s).
  { intros s Hs. unfold count. rewrite <- K in Hs.
    destruct (get_Some_key _ _ Hs) as [f Ef]. rewrite Ef.
    apply get_In in Ef. rewrite forallb_forall in H1.
    apply H1 in Ef. cbn [snd] in Ef. lia. }
  rewrite dec_cum_psums in C by (auto; intros s Hs; rewrite K; exact Hs).
  injection C as <-.
  assert (Ps : Permutation (h_symbols h) (sorted Z.leb (h_symbols h)))
    by apply sorted_perm.
  assert (Tot : h_total h = 0 + sumZ (map (count (h_freq h))
                                          (sorted Z.leb (h_symbols h)))).
  { rewrite <- (sumZ_perm _ _ (Permutation_map _ Ps)), T, <- K.
    rewrite sum_counts by (rewrite K; exact OK). lia. }
  assert (Hne : h_total h <> 0) by (apply negb_true_iff in H0; lia).
  split; [|split; [|split; [exact R|]]].
  - intros s Hs.
    destruct (combine_psums_get (count (h_freq h))
                (sorted Z.leb (h_symbols h)) 0 s) as (c & G & L1 & L2).
    + intros x Hx. assert (1 <= count (h_freq h) x); [|lia].
      apply Pos. eapply Permutation_in; [symmetry; exact Ps | exact Hx].
    + eapply Permutation_NoDup; [exact Ps | exact OK].
    + eapply Permutation_in; [exact Ps | exact Hs].
    + exists c, (count (h_freq h) s). pose proof (Pos s Hs).
      repeat split; auto; try lia.
      unfold count in *. rewrite <- K in Hs.
      destruct (get_Some_key _ _ Hs) as [f Ef]. rewrite Ef. reflexivity.
  - split; [|lia].
    destruct (h_symbols h) as [|s l] eqn:E.
    + cbn in Tot. lia.
    + assert (1 <= count (h_freq h) s) by (apply Pos; simpl; auto).
      assert (0 <= sumZ (map (count (h_freq h)) (sorted Z.leb (s :: l)))).
      { rewrite <- (sumZ_perm _ _ (Permutation_map _ Ps)).
        clear -Pos. induction (s :: l) as [|y t IH]; simpl; [lia|].
        assert (1 <= count (h_freq h) y) by (apply Pos; simpl; auto).
        assert (0 <= sumZ (map (count (h_freq h)) t))
          by (apply IH; intros; apply Pos; simpl; auto).
        unfold sumZ in *. lia. }
      lia.
  - intros E. rewrite E in Tot. cbn in Tot. lia.
Qed.


Lemma dec_scan_some (freq cum : list (Z * Z)) (total scaled : Z)
    (symbols l : list Z) (cur : option Z) :
  partition symbols (get Z.eqb freq) cum total -> incl l symbols ->
  exists r, dec_scan freq cum scaled l cur = Ok r
            /\ match l with
               | [] => r = cur
               | _ => exists s, r = Some s /\ In s symbols
               end.
Proof.
  intros P. revert cur. induction l as [|s l IH]; intros cur Hin.
  - exists cur. split; reflexivity.
  - destruct (P s (Hin s (or_introl eq_refl))) as (c & f & Gc & Gf & _).
    cbn [dec_scan]. unfold getitem. rewrite Gc, Gf. cbn [bind].
    destruct ((scaled <? c + f) && (c <=? scaled)).
    + exists (Some s). split; [reflexivity|]. exists s. split; [reflexivity|].
      apply Hin. simpl; auto.
    + destruct (IH (Some s)) as (r & E & Hr);
        [intros x Hx; apply Hin; simpl; auto|].
      exists r. split; [exact E|]. destruct l as [|y l].
      * subst r. exists s. split; [reflexivity | apply Hin; simpl; auto].
      * exact Hr.
Qed.

Lemma dec_narrow_value (freq cum : list (Z * Z)) (total s c f : Z)
    (st : dec_state) :
  get Z.eqb cum s = Some c -> get Z.eqb freq s = Some f -> total <> 0 ->
  dec_narrow freq cum total s st
  = Ok (let r := d_high st - d_low st + 1 in
        let low' := d_low st + r * c / total in
        mkDec low' (low' + r * f / total - 1) (d_code st) (d_in st)).
Proof.
  intros Gc Gf T. unfold dec_narrow, getitem, floordiv. rewrite Gc, Gf.
  apply Z.eqb_neq in T. rewrite T. reflexivity.
Qed.

Section Decoder.
Variables (blob : list byte) (h : header) (cum : list (Z * Z)).
Hypothesis parsed : parse_header blob = Ok h.
Hypothesis cum_built : dec_cum (h_symbols h) (h_freq h) = Ok cum.
Hypothesis well_formed : header_ok h = true.

(** The invariant of the run. *)
Definition dec_inv (c : dec_config) : Prop :=
  let '(ph, k, s, st) := c in
  proper (d_low st) (d_high st)
  /\ (ph = AtSymbol -> 2 ^ 30 <= width (d_low st) (d_high st)).

Lemma dec_inv_step (c c' : dec_config) :
  dec_inv c -> dec_step h cum c c' -> dec_inv c'.
Proof.
  destruct (header_partition _ _ _ parsed cum_built well_formed)
    as (P & T & R & NE).
  intros I S.
  destruct S as [k s0 st scaled s st1 D Sc N | k s st st' B | k s st B];
    destruct I as (Pr & W).
  - destruct (dec_scan_some (h_freq h) cum (h_total h) scaled
                (h_symbols h) (h_symbols h) s0 P (incl_refl _))
      as (r & E & Hr).
    rewrite E in Sc. injection Sc as ->.
    destruct (h_symbols h) as [|y l] eqn:Es; [congruence|].
    destruct Hr as (s' & [= <-] & Hs).
    destruct (P s Hs) as (c & f & Gc & Gf & C0 & F1 & CF).
    rewrite (dec_narrow_value _ _ _ _ c f) in N by (auto; lia).
    injection N as <-. cbn [d_low d_high]. split; [|discriminate].
    apply (narrow_proper (d_low st) (d_high st) (h_total h) c f); auto.
    specialize (W eq_refl). lia.
  - split; [|discriminate].
    pose proof (dec_renorm_body_bounds st) as E. rewrite B in E.
    cbn [option_map] in E. symmetry in E.
    apply (renorm_step_proper _ _ _ _ Pr E).
  - split; [exact Pr|]. intros _.
    pose proof (dec_renorm_body_bounds st) as E. rewrite B in E.
    cbn [option_map] in E. symmetry in E.
    pose proof (renorm_step_exit _ _ Pr E). lia.
Qed.

Lemma dec_init_bounds :
  d_low (dec_init h blob) = 0 /\ d_high (dec_init h blob) = 2 ^ 32 - 1.
Proof.
  unfold dec_init. destruct (dec_fill 32 0 _). split; reflexivity.
Qed.

Lemma dec_inv_reach (c : dec_config) : dec_reach h cum blob c -> dec_inv c.
Proof.
  induction 1 as [|c c' R IH S].
  - destruct dec_init_bounds as [L H]. unfold dec_inv. rewrite L, H.
    unfold proper, width. lia.
  - exact (dec_inv_step _ _ IH S).
Qed.

Lemma dec_renorm_reach (fuel k : nat) (s : option Z) (st st' : dec_state) :
  dec_renorm fuel st = Some st' ->
  dec_reach h cum blob (InRenorm, k, s, st) ->
  dec_reach h cum blob (AtSymbol, k, s, st').
Proof.
  revert st. induction fuel as [|fuel IH]; intros st E R; [discriminate|].
  cbn [dec_renorm] in E. destruct (dec_renorm_body st) as [st1|] eqn:B.
  - apply (IH st1 E). eapply dec_reach_step; [exact R|].
    apply dec_step_pass. exact B.
  - injection E as <-. eapply dec_reach_step; [exact R|].
    apply dec_step_exit. exact B.
Qed.

(** The run completes and produces the declared number of bytes. *)
Lemma dec_loop_reach (k : nat) (s0 : option Z) (st : dec_state) :
  dec_reach h cum blob (AtSymbol, k, s0, st) ->
  exists out, dec_loop h cum k s0 st = Ok out /\ length out = k.
Proof.
  destruct (header_partition _ _ _ parsed cum_built well_formed)
    as (P & T & Rg & NE).
  revert s0 st. induction k as [|k IH]; intros s0 st R.
  - exists []. split; reflexivity.
  - pose proof (dec_inv_reach _ R) as (Pr & W). specialize (W eq_refl).
    cbn [dec_loop]. unfold dec_symbol, floordiv.
    unfold proper, width in Pr, W.
    destruct (Z.eqb_spec (d_high st - d_low st + 1) 0) as [|_]; [lia|].
    cbn [bind].
    match goal with |- context [dec_scan _ _ ?sc _ _] =>
      destruct (dec_scan_some (h_freq h) cum (h_total h) sc
                  (h_symbols h) (h_symbols h) s0 P (incl_refl _))
        as (r & E & Hr); set (scaled := sc) in * end.
    rewrite E. cbn [bind].
    destruct (h_symbols h) as [|y l] eqn:Es; [congruence|].
    destruct Hr as (s & -> & Hs). rewrite <- Es in *.
    destruct (P s Hs) as (c & f & Gc & Gf & C0 & F1 & CF).
    unfold byte_of_int.
    rewrite Forall_forall in Rg.
    destruct (mk_byte_in_range s (Rg s Hs)) as [b ->]. cbn [bind].
    rewrite (dec_narrow_value _ _ _ _ c f) by (auto; lia). cbn [bind].
    match goal with |- context [dec_renorm renorm_fuel ?s1] =>
      destruct (dec_renorm_total s1) as [st2 E2]; rewrite E2;
      assert (R1 : dec_reach h cum blob (InRenorm, k, Some s, s1))
    end.
    { eapply dec_reach_step; [exact R|].
      apply (dec_step_narrow h cum k s0 st scaled s).
      - unfold floordiv.
        destruct (Z.eqb_spec (d_high st - d_low st + 1) 0); [lia|reflexivity].
      - exact E.
      - apply dec_narrow_value; auto; lia. }
    cbn [bind].
    destruct (IH (Some s) st2 (dec_renorm_reach _ _ _ _ _ E2 R1))
      as (out & -> & L).
    exists (b :: out). split; [reflexivity | simpl; congruence].
Qed.

End Decoder.
End DecRun.
Import Arithmetic Interval Tables EncRun Sink DecRun.

Lemma arithmetic_symbols_length (data : list byte) :
  length (fst (fst (enc_tables (Counter data)))) = length (Counter data).
Proof.
  unfold enc_tables. cbn [fst]. unfold enc_symbols.
  rewrite sorted_length. unfold keys. apply length_map.
Qed.

(** What the arithmetic encoder does up to the first header field. *)
Lemma arithmetic_encode_general (data : list byte) :
  (2 <= length (Counter data))%nat ->
  exists code_bits,
    Arithmetic.encode data
    = (h_len <- to_bytes 134 (len data) 4 ;;
       h_cnt <- bytes_of_ints 135 [Z.of_nat (length (Counter data))] ;;
       h_tab <- mapM (fun s =>
                        a <- bytes_of_ints 137 [s] ;;
                        f <- to_bytes 138 (count (Counter data) s) 4 ;;
                        Ok (a ++ f))
                     (fst (fst (enc_tables (Counter data)))) ;;
       Ok (h_len ++ h_cnt ++ concat h_tab ++ code_bits)).
Proof.
  intros H2. pose proof (Counter_nonempty data H2) as NE.
  unfold Arithmetic.encode. destruct data as [|b0 data0]; [congruence|].
  set (data := b0 :: data0) in *.
  replace (length (Counter data) =? 1)%nat with false
    by (symmetry; apply Nat.eqb_neq; lia).
  destruct (enc_loop_ok data) as [st Est]. cbv zeta in Est.
  pose proof (arithmetic_symbols_length data) as SL.
  destruct (enc_tables (Counter data)) as [[symbols total] cum].
  cbn [fst snd] in *. rewrite Est. cbn [bind].
  destruct (finish_ok (bout (enc_final st))) as [cb Ecb].
  { apply enc_final_bits. apply (enc_loop_bits _ _ _ _ _ _ Est). constructor. }
  rewrite Ecb. cbn [bind]. exists cb. unfold len at 2. rewrite SL. reflexivity.
Qed.

(** ** The header of the arithmetic coder *)

Module ArithHeader.

(** The five bytes written for one (symbol, frequency) entry. *)
Definition entry_bytes (e : Z * Z) (bs : list byte) : Prop :=
  exists sb, bs = sb :: be_digits 4 (snd e) /\ byte_val sb = fst e
             /\ 0 <= snd e < 2 ^ 32.

Lemma NoDup_nodupb (l : list Z) : NoDup l -> nodupb l = true.
Proof.
  induction 1 as [|x l H ND IH]; [reflexivity|].
  cbn [nodupb]. rewrite IH, andb_true_r. apply negb_true_iff.
  destruct (existsb (Z.eqb x) l) eqn:E; [|reflexivity].
  apply existsb_exists in E. destruct E as (y & Hy & Ey).
  apply Z.eqb_eq in Ey. subst y. contradiction.
Qed.

Lemma parse_table_app (tab : list (list byte)) (ents : list (Z * Z))
    (pre rest : list byte) (symbols : list Z) (freq : list (Z * Z))
    (total : Z) :
  Forall2 entry_bytes ents tab ->
  parse_table (pre ++ concat tab ++ rest) (length tab) (length pre)
              symbols freq total
  = Ok (symbols ++ keys ents, update Z.eqb freq ents,
        total + sumZ (values ents), (length pre + 5 * length tab)%nat).
Proof.
  intros F. revert pre symbols freq total.
  induction F as [|[s f] bs ents tab H F IH]; intros pre symbols freq total.
  - cbn. rewrite app_nil_r, Z.add_0_r, Nat.add_0_r. reflexivity.
  - destruct H as (sb & -> & Es & Rf). cbn [fst snd] in Es, Rf.
    cbn [length parse_table concat app fst snd]. unfold index.
    rewrite (nth_error_app_here pre). cbn [bind].
    assert (Ef : from_bytes
                   (slice (pre ++ sb :: (be_digits 4 f ++ concat tab) ++ rest)
                          (length pre + 1) (length pre + 5)) = f).
    { unfold slice.
      replace (length pre + 5 - (length pre + 1))%nat with 4%nat by lia.
      replace (pre ++ sb :: (be_digits 4 f ++ concat tab) ++ rest)
        with ((pre ++ [sb]) ++ be_digits 4 f ++ concat tab ++ rest)
        by (rewrite <- !app_assoc; reflexivity).
      replace (length pre + 1)%nat with (length (pre ++ [sb]))
        by (rewrite length_app; simpl; lia).
      rewrite skipn_app_here.
      rewrite <- (be_digits_length 4 f) at 1. rewrite firstn_app_here.
      rewrite from_bytes_be_digits.
      apply Z.mod_small. exact Rf. }
    rewrite Ef, Es.
    replace (pre ++ sb :: (be_digits 4 f ++ concat tab) ++ rest)
      with ((pre ++ sb :: be_digits 4 f) ++ concat tab ++ rest)
      by (rewrite <- !app_assoc; reflexivity).
    replace (length pre + 5)%nat with (length (pre ++ sb :: be_digits 4 f))
      by (rewrite length_app; cbn [length]; rewrite be_digits_length; lia).
    rewrite IH. unfold keys, values, update.
    cbn [map fst snd fold_left sumZ fold_right].
    rewrite <- app_assoc. cbn [app].
    fold (sumZ (map snd ents)). rewrite Z.add_assoc.
    rewrite length_app. cbn [length]. rewrite be_digits_length.
    do 2 f_equal. lia.
Qed.

Lemma entry_bytes_written (freq : list (Z * Z)) (symbols : list Z)
    (tab : list (list byte)) :
  mapM (fun s =>
          a <- bytes_of_ints 137 [s] ;;
          f <- to_bytes 138 (count freq s) 4 ;;
          Ok (a ++ f)) symbols = Ok tab ->
  Forall2 entry_bytes (map (fun s => (s, count freq s)) symbols) tab.
Proof.
  intros E. apply mapM_Forall2 in E.
  induction E as [|s bs symbols tab H F IH]; cbn [map]; constructor;
    [|exact IH].
  unfold bytes_of_ints in H. cbn [mapM] in H.
  destruct (byte_of_int 137 s) as [sb|] eqn:E1; [|discriminate].
  cbn [bind] in H.
  destruct (to_bytes 138 (count freq s) 4) as [d|] eqn:E2; [|discriminate].
  cbn [bind] in H. injection H as <-.
  apply to_bytes_inv in E2. destruct E2 as [R ->].
  exists sb. cbn [fst snd app]. split; [reflexivity|].
  split; [eapply byte_of_int_val; exact E1 | exact R].
Qed.

(** The header of a blob of the arithmetic encoder is parsed back to the
    encoder's tables. *)
Lemma encode_header (data blob : list byte) :
  (2 <= length (Counter data))%nat -> len data <= 2 ^ 30 ->
  Arithmetic.encode data = Ok blob ->
  exists h cum,
    parse_header blob = Ok h
    /\ dec_cum (h_symbols h) (h_freq h) = Ok cum
    /\ header_ok h = true
    /\ h_n h = len data
    /\ startswith_RUN blob = false.
Proof.
  intros H2 Hlen E.
  destruct (arithmetic_encode_general data H2) as [code_bits G].
  rewrite G in E. clear G.
  destruct (to_bytes 134 (len data) 4) as [h_len|] eqn:E1; [|discriminate].
  cbn [bind] in E.
  destruct (bytes_of_ints 135 [Z.of_nat (length (Counter data))])
    as [h_cnt|] eqn:E2; [|discriminate].
  cbn [bind] in E.
  match type of E with context [mapM ?f ?l] =>
    destruct (mapM f l) as [h_tab|] eqn:E3; [|discriminate] end.
  cbn [bind] in E. injection E as <-.
  apply to_bytes_inv in E1. destruct E1 as [R1 ->].
  unfold bytes_of_ints in E2. cbn [mapM] in E2.
  destruct (byte_of_int 135 (Z.of_nat (length (Counter data)))) as [cb|] eqn:Ecb;
    [|discriminate].
  cbn [bind] in E2. injection E2 as <-. apply byte_of_int_val in Ecb.
  pose proof (entry_bytes_written _ _ _ E3) as F.
  pose proof (enc_tables_partition data) as TP. cbv zeta in TP.
  pose proof (arithmetic_symbols_length data) as SL.
  destruct (enc_tables (Counter data)) as [[symbols total] ecum].
  cbn [fst snd] in *. destruct TP as (T & P & Q).
  pose proof (Counter_counted data) as C.
  assert (ND : NoDup symbols)
    by (eapply Permutation_NoDup; [exact P | apply (counted_nodup _ _ C)]).
  set (ents := map (fun s => (s, count (Counter data) s)) symbols) in *.
  assert (Kents : keys ents = symbols)
    by (unfold ents, keys; rewrite map_map; apply map_id).
  assert (Lt : length h_tab = length (Counter data)).
  { apply Forall2_length in F. unfold ents in F. rewrite length_map in F.
    congruence. }
  pose proof (parse_table_app h_tab ents (be_digits 4 (len data) ++ [cb])
                code_bits [] [] 0 F) as PT.
  rewrite length_app, be_digits_length in PT. cbn [length Nat.add app] in PT.
  rewrite update_nodup in PT by (cbn [keys map app]; rewrite Kents; exact ND).
  cbn [app] in PT. rewrite Kents in PT.
  assert (Hh : parse_header (be_digits 4 (len data) ++ [cb] ++ concat h_tab
                               ++ code_bits)
               = Ok (mkHeader (len data) symbols ents
                              (0 + sumZ (values ents))
                              (5 + 5 * length h_tab))).
  { unfold parse_header, index.
    replace (nth_error (be_digits 4 (len data) ++ [cb] ++ concat h_tab
                          ++ code_bits) 4) with (Some cb)
      by (symmetry; apply (nth_error_app_here (be_digits 4 (len data)))).
    cbn [bind]. rewrite Ecb, Nat2Z.id, <- Lt.
    replace (be_digits 4 (len data) ++ [cb] ++ concat h_tab ++ code_bits)
      with ((be_digits 4 (len data) ++ [cb]) ++ concat h_tab ++ code_bits)
      by (rewrite <- app_assoc; reflexivity).
    rewrite PT. cbn [bind]. f_equal. f_equal.
    unfold slice. cbn [skipn Nat.sub]. rewrite <- !app_assoc.
    rewrite <- (be_digits_length 4 (len data)) at 1. rewrite firstn_app_here.
    rewrite from_bytes_be_digits. apply Z.mod_small. exact R1. }
  assert (Sum : sumZ (values ents) = len data).
  { unfold ents, values. rewrite map_map. cbn [snd].
    change (sumZ (map (count (Counter data)) symbols) = len data).
    rewrite <- (sumZ_perm _ _ (Permutation_map (count (Counter data)) P)).
    rewrite sum_counts by apply (counted_nodup _ _ C).
    apply (counted_sum _ _ C). }
  assert (Hpos : 0 < len data).
  { pose proof (Counter_nonempty data H2). unfold len.
    destruct data; [congruence | simpl; lia]. }
  eexists. eexists. split; [exact Hh|]. cbn [h_symbols h_freq h_n].
  split; [apply dec_cum_psums; [exact ND | rewrite Kents; auto]|].
  split; [|split; [reflexivity|]].
  - unfold header_ok. cbn [h_symbols h_freq h_total].
    rewrite (NoDup_nodupb _ ND), Sum. cbn [andb].
    replace (forallb (fun kv => 1 <=? snd kv) ents) with true.
    + cbn [andb]. apply andb_true_iff. split.
      * apply negb_true_iff. apply Z.eqb_neq. lia.
      * apply Z.leb_le. lia.
    + symmetry. apply forallb_forall. intros [s f] Hin.
      unfold ents in Hin. apply in_map_iff in Hin.
      destruct Hin as (s' & [= -> <-] & Hs). cbn [snd]. apply Z.leb_le.
      apply (count_pos _ _ _ C).
      eapply Permutation_in; [symmetry; exact P | exact Hs].
  - (* the first byte is at most 0x40 *)
    cbn [be_digits app]. unfold startswith_RUN.
    assert (B : byte_val (byte_wrap (len data / 256 ^ Z.of_nat 3)) <= 64).
    { rewrite byte_val_wrap. change (256 ^ Z.of_nat 3) with 16777216.
      assert (len data / 16777216 <= 64)
        by (apply Z.div_le_upper_bound; lia).
      assert (0 <= len data / 16777216) by (apply Z.div_pos; lia).
      rewrite Z.mod_small by lia. lia. }
    destruct (byte_wrap (len data / 256 ^ Z.of_nat 3)) eqn:Eb;
      try reflexivity.
    exfalso. vm_compute in B. apply B. reflexivity.
Qed.

End ArithHeader.

Import DecRun.

(** A sample input and its arithmetic encoding. *)
Definition sample : list byte :=
  ascii_bytes [97; 98; 114; 97; 99; 97; 100; 97; 98; 114; 97].

Definition sample_arithmetic_blob : list byte :=
  Eval vm_compute in
    match Arithmetic.encode sample with Ok b => b | Raise _ _ => [] end.

(** On a long input the interval does not stay proper: after the second
    byte of [0, 1, 0, 0, ...] (4294967295 bytes) the encoder's interval is
    empty. *)
Lemma long_input_tables (n : nat) :
  Z.of_nat n = 4294967293 ->
  Counter (x00 :: x01 :: repeat x00 n) = [(0, 4294967294); (1, 1)].
Proof.
  intros Hn. change (x00 :: x01 :: repeat x00 n)
    with ([x00; x01] ++ repeat x00 n).
  rewrite Counter_app.
  change (Counter [x00; x01]) with [(0, 1); (1, 1)].
  rewrite (tally_repeat x00 n _ 1) by reflexivity.
  change (byte_val x00) with 0. cbn [set Z.eqb]. rewrite Hn. reflexivity.
Qed.

Lemma interval_invariant_long_input :
  let data := x00 :: x01 :: repeat x00 (Z.to_nat 4294967293) in
  let freq := Counter data in
  let total := snd (fst (enc_tables freq)) in
  let ecum := snd (enc_tables freq) in
  exists rest st,
    enc_reach freq ecum total data (InRenorm, rest, st)
    /\ low st = 4294967293 /\ high st = 4294967292.
Proof.
  intros data freq total ecum.
  assert (Hn : Z.of_nat (Z.to_nat 4294967293) = 4294967293) by lia.
  subst data freq total ecum.
  generalize dependent (Z.to_nat 4294967293). intros n Hn.
  rewrite (long_input_tables n Hn).
  set (freq := [(0, 4294967294); (1, 1)]).
  change (enc_tables freq)
    with ([0; 1], 4294967295, [(0, 0); (1, 4294967294)]).
  cbn [fst snd].
  exists (repeat x00 n), (mkEnc 4294967293 4294967292 0 []).
  split; [|split; reflexivity].
  eapply enc_reach_step.
  - eapply enc_reach_step.
    + eapply enc_reach_step.
      * apply enc_reach_start.
      * apply enc_step_narrow. reflexivity.
    + apply enc_step_exit. reflexivity.
  - apply enc_step_narrow. reflexivity.
Qed.

(** ** The heap keeps its items *)

Module HeapFacts.
Import heapq.
Section Facts.
Context {A : Type} (lt : A -> A -> bool) (dflt : A).

Lemma store_length (heap : list A) (i : nat) (x : A) :
  length (store heap i x) = length heap.
Proof.
  revert i. induction heap as [|y heap IH]; intros [|i]; simpl; auto.
Qed.

Lemma store_perm (heap : list A) (i : nat) (x : A) :
  (i < length heap)%nat ->
  Permutation (x :: heap) (item dflt heap i :: store heap i x).
Proof.
  revert i. induction heap as [|y heap IH]; intros [|i] H; simpl in *; try lia.
  - apply perm_swap.
  - unfold item in *. cbn [nth].
    rewrite perm_swap.
    rewrite (perm_swap y (nth i heap dflt)). constructor. apply IH. lia.
Qed.

Lemma item_store_other (heap : list A) (i j : nat) (x : A) :
  i <> j -> item dflt (store heap i x) j = item dflt heap j.
Proof.
  unfold item. revert i j. induction heap as [|y heap IH]; intros [|i] [|j] H;
    simpl; auto; try lia.
Qed.

Lemma swap_perm (heap : list A) (i j : nat) :
  (i < length heap)%nat -> (j < length heap)%nat -> i <> j ->
  Permutation heap (swap dflt heap i j).
Proof.
  intros Hi Hj Hne. unfold swap.
  apply (Permutation_cons_inv (a := item dflt heap j)).
  rewrite (store_perm heap i (item dflt heap j) Hi).
  rewrite (store_perm (store heap i (item dflt heap j)) j (item dflt heap i))
    by (rewrite store_length; exact Hj).
  rewrite item_store_other by exact Hne. reflexivity.
Qed.

Lemma swap_length (heap : list A) (i j : nat) :
  length (swap dflt heap i j) = length heap.
Proof. unfold swap. rewrite !store_length. reflexivity. Qed.

Lemma siftdown_loop_perm (fuel : nat) (heap : list A) (startpos pos : nat) :
  (pos < length heap)%nat ->
  Permutation heap (siftdown_loop lt dflt fuel heap startpos pos).
Proof.
  revert heap pos. induction fuel as [|fuel IH]; intros heap pos H;
    [reflexivity|].
  cbn [siftdown_loop]. destruct (startpos <? pos)%nat eqn:E; [|reflexivity].
  apply Nat.ltb_lt in E.
  destruct (lt (item dflt heap pos) (item dflt heap ((pos - 1) / 2)));
    [|reflexivity].
  assert (P : ((pos - 1) / 2 < pos)%nat).
  { apply (Nat.le_lt_trans _ (pos - 1)); [apply Nat.Div0.div_le_upper_bound|];
      lia. }
  rewrite <- IH by (rewrite swap_length; lia).
  apply swap_perm; lia.
Qed.

Lemma siftup_loop_perm (fuel : nat) (heap : list A) (pos : nat) :
  (pos < length heap)%nat ->
  Permutation heap (fst (siftup_loop lt dflt fuel heap pos))
  /\ (snd (siftup_loop lt dflt fuel heap pos) < length heap)%nat.
Proof.
  revert heap pos. induction fuel as [|fuel IH]; intros heap pos H;
    [split; [reflexivity | exact H]|].
  cbn [siftup_loop]. destruct (2 * pos + 1 <? length heap)%nat eqn:E;
    [|split; [reflexivity | exact H]].
  apply Nat.ltb_lt in E.
  match goal with |- context [swap _ _ _ ?c] => set (child := c) end.
  assert (C : (pos < child < length heap)%nat).
  { subst child.
    destruct ((2 * pos + 1 + 1 <? length heap)%nat) eqn:E2; cbn [andb].
    - apply Nat.ltb_lt in E2. destruct (negb _); lia.
    - lia. }
  destruct (IH (swap dflt heap pos child) child) as [P L];
    [rewrite swap_length; lia|].
  rewrite swap_length in L. split; [|exact L].
  rewrite <- P. apply swap_perm; lia.
Qed.

Lemma siftup_perm (heap : list A) (pos : nat) :
  (pos < length heap)%nat -> Permutation heap (_siftup lt dflt heap pos).
Proof.
  intros H. unfold _siftup.
  destruct (siftup_loop_perm (length heap) heap pos H) as [P L].
  destruct (siftup_loop lt dflt (length heap) heap pos) as [heap' pos'].
  cbn [fst snd] in *. rewrite P at 1. apply siftdown_loop_perm.
  rewrite <- (Permutation_length P). exact L.
Qed.

Lemma heappush_perm (heap : list A) (x : A) :
  Permutation (x :: heap) (heappush lt dflt heap x).
Proof.
  unfold heappush, _siftdown.
  rewrite <- siftdown_loop_perm by (rewrite length_app; simpl; lia).
  apply Permutation_cons_append.
Qed.

Lemma heappop_perm (heap : list A) :
  heap <> [] ->
  exists x rest, heappop lt dflt heap = Some (x, rest)
                 /\ Permutation heap (x :: rest).
Proof.
  intros H. unfold heappop.
  destruct (exists_last H) as (front & lastelt & ->).
  rewrite rev_app_distr, removelast_last. cbn [rev app].
  destruct front as [|returnitem t].
  - exists lastelt, []. split; reflexivity.
  - exists returnitem, (_siftup lt dflt (lastelt :: t) 0). split; [reflexivity|].
    rewrite <- siftup_perm by (simpl; lia).
    cbn [app]. constructor. symmetry. apply Permutation_cons_append.
Qed.

End Facts.
End HeapFacts.

(** ** The prefix tree *)

Module Tree.
Import Huffman HeapFacts.

(** The symbols at the leaves, left to right. *)
Fixpoint leaf_symbols (t : _Node) : list Z :=
  match t with
  | Leaf _ s => [s]
  | Branch _ l r => leaf_symbols l ++ leaf_symbols r
  end.

Definition forest_symbols (heap : list _Node) : list Z :=
  flat_map leaf_symbols heap.

(** The code of every leaf: the path to it from a node reached by
    [prefix], 0 for left and 1 for right. *)
Fixpoint codes (t : _Node) (prefix : list bool) : list (Z * list bool) :=
  match t with
  | Leaf _ s => [(s, match prefix with [] => [false] | _ => prefix end)]
  | Branch _ l r => codes l (prefix ++ [false]) ++ codes r (prefix ++ [true])
  end.

Definition is_branch (t : _Node) : Prop :=
  match t with Leaf _ _ => False | Branch _ _ _ => True end.

Lemma forest_symbols_perm (h1 h2 : list _Node) :
  Permutation h1 h2 -> Permutation (forest_symbols h1) (forest_symbols h2).
Proof.
  unfold forest_symbols. induction 1; simpl.
  - reflexivity.
  - apply Permutation_app_head. assumption.
  - rewrite !app_assoc. apply Permutation_app_tail, Permutation_app_comm.
  - etransitivity; eassumption.
Qed.

Lemma heappop_ok (line : nat) (heap : list _Node) :
  heap <> [] ->
  exists x rest, heappop line heap = Ok (x, rest)
                 /\ Permutation heap (x :: rest).
Proof.
  intros H. unfold heappop.
  destruct (heappop_perm lt (Leaf 0 0) heap H) as (x & rest & -> & P).
  exists x, rest. split; [reflexivity | exact P].
Qed.

Lemma build_loop_ok (fuel : nat) (heap : list _Node) :
  (length heap <= fuel)%nat -> heap <> [] ->
  exists root, build_loop fuel heap = Ok [root]
               /\ Permutation (forest_symbols heap) (leaf_symbols root)
               /\ (length heap = 1%nat -> heap = [root])
               /\ ((2 <= length heap)%nat -> is_branch root).
Proof.
  revert heap. induction fuel as [|fuel IH]; intros heap L NE.
  - destruct heap; [congruence | simpl in L; lia].
  - cbn [build_loop]. destruct (1 <? length heap)%nat eqn:E.
    + apply Nat.ltb_lt in E.
      destruct (heappop_ok 146 heap NE) as (n1 & h1 & -> & P1). cbn [bind].
      assert (L1 : length heap = S (length h1))
        by (rewrite (Permutation_length P1); reflexivity).
      assert (NE1 : h1 <> []) by (destruct h1; [simpl in L1; lia | congruence]).
      destruct (heappop_ok 146 h1 NE1) as (n2 & h2 & -> & P2). cbn [bind].
      assert (L2 : length h1 = S (length h2))
        by (rewrite (Permutation_length P2); reflexivity).
      set (m := Branch (freq n1 + freq n2) n1 n2).
      pose proof (heappush_perm lt (Leaf 0 0) h2 m) as P3.
      fold (heappush h2 m) in P3.
      assert (L3 : length (heappush h2 m) = S (length h2))
        by (rewrite <- (Permutation_length P3); reflexivity).
      destruct (IH (heappush h2 m)) as (root & -> & P & B1 & B2).
      * lia.
      * intros E0. rewrite E0 in L3. discriminate.
      * exists root. split; [reflexivity|]. split; [|split; [lia|]].
        -- rewrite <- P, <- (forest_symbols_perm _ _ P3).
           rewrite (forest_symbols_perm _ _ P1).
           unfold forest_symbols at 1. cbn [flat_map].
           fold (forest_symbols h1). rewrite (forest_symbols_perm _ _ P2).
           unfold forest_symbols. cbn [flat_map leaf_symbols].
           rewrite app_assoc. reflexivity.
        -- intros _. destruct (Nat.le_gt_cases 2 (length (heappush h2 m)))
             as [G|G]; [exact (B2 G)|].
           assert (Hh2 : h2 = []) by (destruct h2; [reflexivity | simpl in L3; lia]).
           subst h2. rewrite (B1 L3) in P3.
           apply Permutation_length_1 in P3. subst root. exact I.
    + apply Nat.ltb_ge in E. destruct heap as [|root [|y heap]];
        [congruence | | simpl in E; lia].
      exists root. split; [reflexivity|]. split; [|split].
      * unfold forest_symbols. simpl. rewrite app_nil_r. reflexivity.
      * reflexivity.
      * simpl. lia.
Qed.

Lemma forest_leaves (freq : list (Z * Z)) :
  forest_symbols (map (fun '(s, f) => Leaf f s) freq) = keys freq.
Proof.
  unfold forest_symbols. induction freq as [|[s f] freq IH]; simpl; congruence.
Qed.

(** [_build_tree] returns a tree whose leaves are the counted symbols, and
    that is not a single leaf when there are two symbols or more. *)
Lemma build_tree_ok (freq : list (Z * Z)) :
  freq <> [] ->
  exists root, _build_tree freq = Ok root
               /\ Permutation (keys freq) (leaf_symbols root)
               /\ ((2 <= length freq)%nat -> is_branch root).
Proof.
  intros NE. unfold _build_tree.
  set (heap := map _ freq).
  assert (Lh : length heap = length freq) by apply length_map.
  assert (NEh : heap <> []) by (destruct freq; [congruence | discriminate]).
  destruct (heappop_ok 144 heap NEh) as (x & rest & -> & P1). cbn [bind].
  pose proof (heappush_perm lt (Leaf 0 0) rest x) as P2.
  fold (heappush rest x) in P2.
  assert (P : Permutation heap (heappush rest x))
    by (rewrite P1; exact P2).
  destruct (build_loop_ok (length (heappush rest x)) (heappush rest x))
    as (root & -> & Q & _ & B).
  - lia.
  - intros E. rewrite E in P. apply Permutation_sym, Permutation_nil in P.
    congruence.
  - cbn [bind index nth_error]. exists root. split; [reflexivity|]. split.
    + rewrite <- Q, <- (forest_symbols_perm _ _ P). subst heap.
      rewrite forest_leaves. reflexivity.
    + intros G. apply B. rewrite <- (Permutation_length P). lia.
Qed.


Fixpoint height (t : _Node) : Z :=
  match t with
  | Leaf _ _ => 0
  | Branch _ l r => 1 + Z.max (height l) (height r)
  end.

(** The Kraft sum of code lengths, scaled by [2^L]. *)
Definition kraft (L : Z) (lens : list Z) : Z :=
  sumZ (map (fun l => 2 ^ (L - l)) lens).

Definition code_lengths (m : list (Z * list bool)) : list Z :=
  map (fun kv => len (snd kv)) m.

Lemma codes_keys (t : _Node) (p : list bool) :
  keys (codes t p) = leaf_symbols t.
Proof.
  revert p. induction t as [f s|f l IHl r IHr]; intros p; simpl.
  - reflexivity.
  - unfold keys in *. rewrite map_app, IHl, IHr. reflexivity.
Qed.

Lemma build_code_map_codes (t : _Node) (p : list bool) :
  NoDup (leaf_symbols t) -> _build_code_map t p = codes t p.
Proof.
  revert p. induction t as [f s|f l IHl r IHr]; intros p ND; simpl.
  - reflexivity.
  - simpl in ND. rewrite IHl, IHr by eauto using NoDup_app_remove_l,
                                       NoDup_app_remove_r.
    rewrite (update_nodup [] (codes l _))
      by (simpl; rewrite codes_keys; eauto using NoDup_app_remove_r).
    simpl. apply update_nodup. rewrite !codes_keys. exact ND.
Qed.

Lemma height_nonneg (t : _Node) : 0 <= height t.
Proof. induction t; cbn [height]; lia. Qed.

Lemma kraft_app (L : Z) (a b : list Z) :
  kraft L (a ++ b) = kraft L a + kraft L b.
Proof. unfold kraft. rewrite map_app. apply sumZ_app. Qed.

Lemma len_app {A} (a b : list A) : len (a ++ b) = len a + len b.
Proof. unfold len. rewrite length_app. lia. Qed.

Lemma len_nonneg {A} (a : list A) : 0 <= len a.
Proof. unfold len. lia. Qed.

(** The codes below a node add up to the weight of the node. *)
Lemma codes_kraft (t : _Node) (p : list bool) (L : Z) :
  p <> [] \/ is_branch t -> len p + height t <= L ->
  kraft L (code_lengths (codes t p)) = 2 ^ (L - len p)
  /\ Forall (fun l => 1 <= l <= L) (code_lengths (codes t p)).
Proof.
  revert p. induction t as [f s|f l IHl r IHr]; intros p C H.
  - destruct C as [C|[]]. destruct p as [|b p]; [congruence|].
    cbn [codes code_lengths map snd kraft sumZ fold_right].
    split; [lia|]. constructor; [|constructor].
    cbn [height] in H. unfold len in *. cbn [length] in *. lia.
  - cbn [codes]. unfold code_lengths in *. rewrite map_app, kraft_app.
    cbn [height] in H.
    pose proof (height_nonneg l). pose proof (height_nonneg r).
    pose proof (len_nonneg p).
    assert (Hp : forall b, len (p ++ [b]) = len p + 1)
      by (intros b; rewrite len_app; reflexivity).
    destruct (IHl (p ++ [false])) as [Kl Fl];
      [left; destruct p; discriminate | rewrite Hp; lia |].
    destruct (IHr (p ++ [true])) as [Kr Fr];
      [left; destruct p; discriminate | rewrite Hp; lia |].
    rewrite Kl, Kr, !Hp. split.
    + replace (L - len p) with (Z.succ (L - (len p + 1))) by lia.
      rewrite Z.pow_succ_r by lia. lia.
    + apply Forall_app. split; assumption.
Qed.

Lemma height_bound (t : _Node) : height t < len (leaf_symbols t).
Proof.
  induction t as [f s|f l IHl r IHr]; cbn [height leaf_symbols].
  - reflexivity.
  - rewrite len_app. pose proof (height_nonneg l).
    pose proof (height_nonneg r). lia.
Qed.

End Tree.
(** ** Canonical codes *)

Module Canon.
Import Huffman Tree.

(** [a] is a prefix of [b]. *)
Definition is_prefix (a b : list bool) : Prop := exists r, b = a ++ r.

(** No symbol's code is a prefix of another symbol's code. *)
Definition prefix_free (m : list (Z * list bool)) : Prop :=
  forall s1 c1 s2 c2,
    In (s1, c1) m -> In (s2, c2) m -> s1 <> s2 -> ~ is_prefix c1 c2.

(** The code values the canonicalisation gives to the (symbol, length)
    pairs [ord], in order, from the running [code] and [prev_len]. *)
Fixpoint assign (ord : list (Z * Z)) (code prev_len : Z)
  : list (Z * (Z * Z)) :=
  match ord with
  | [] => []
  | (sym, ln) :: rest =>
      let code := Z.shiftl code (ln - prev_len) in
      (sym, (code, ln)) :: assign rest (code + 1) ln
  end.

(** The entries occupy consecutive intervals of [0, 2^L), from [S]. *)
Fixpoint chain (L S : Z) (out : list (Z * (Z * Z))) : Prop :=
  match out with
  | [] => True
  | (_, (v, l)) :: t => v * 2 ^ (L - l) = S /\ chain L (S + 2 ^ (L - l)) t
  end.

(** Lengths that never decrease, from [prev]. *)
Fixpoint ascending (prev : Z) (lens : list Z) : Prop :=
  match lens with
  | [] => True
  | l :: t => prev <= l /\ ascending l t
  end.

Definition render (e : Z * (Z * Z)) : Z * list bool :=
  (fst e, format_b (fst (snd e)) (snd (snd e))).

(** *** [format_b] *)

Lemma int2_acc (bits : list bool) (a : Z) :
  fold_left (fun v b => 2 * v + Z.b2z b) bits a
  = a * 2 ^ len bits + int2 bits.
Proof.
  unfold int2. revert a. induction bits as [|b bits IH]; intros a.
  - unfold len. simpl. lia.
  - cbn [fold_left]. rewrite IH, (IH (2 * 0 + Z.b2z b)).
    unfold len. cbn [length]. rewrite Nat2Z.inj_succ, Z.pow_succ_r by lia. ring.
Qed.

Lemma int2_app (a b : list bool) :
  int2 (a ++ b) = int2 a * 2 ^ len b + int2 b.
Proof. unfold int2 at 1. rewrite fold_left_app. apply int2_acc. Qed.

Lemma int2_range (bits : list bool) : 0 <= int2 bits < 2 ^ len bits.
Proof.
  induction bits as [|b bits IH] using rev_ind.
  - change (0 <= 0 < 1). lia.
  - rewrite int2_app, len_app. change (len [b]) with 1.
    rewrite Z.pow_add_r, Z.pow_1_r by (try apply len_nonneg; lia).
    change (int2 [b]) with (2 * 0 + Z.b2z b). destruct b; simpl Z.b2z; lia.
Qed.

Lemma int2_zeros (n : nat) (bits : list bool) :
  int2 (repeat false n ++ bits) = int2 bits.
Proof.
  rewrite int2_app.
  assert (int2 (repeat false n) = 0); [|lia].
  induction n as [|n IH]; [reflexivity|].
  change (repeat false (S n)) with ([false] ++ repeat false n).
  rewrite int2_app, IH. reflexivity.
Qed.

Lemma int2_pos_digits (p : positive) : int2 (pos_digits p) = Z.pos p.
Proof.
  induction p as [p IH|p IH|]; cbn [pos_digits]; try reflexivity;
    rewrite int2_app, IH; change (len [_]) with 1; cbn [int2 fold_left Z.b2z];
    lia.
Qed.

Lemma int2_format_b (v l : Z) : 0 <= v -> int2 (format_b v l) = v.
Proof.
  intros H. unfold format_b. rewrite int2_zeros.
  destruct v as [|p|p]; [reflexivity | apply int2_pos_digits | lia].
Qed.

Lemma pow2_gt_1 (l : Z) : 1 < 2 ^ l -> 0 < l.
Proof.
  intros H. destruct l as [|q|q]; [simpl in H; lia | lia |].
  rewrite Z.pow_neg_r in H by lia. lia.
Qed.

Lemma pos_digits_length (p : positive) (l : Z) :
  Z.pos p < 2 ^ l -> len (pos_digits p) <= l.
Proof.
  revert l. induction p as [p IH|p IH|]; intros l H; cbn [pos_digits].
  - assert (0 < l) by (apply pow2_gt_1; lia).
    rewrite len_app. change (len [true]) with 1.
    assert (Z.pos p < 2 ^ (l - 1)); [|specialize (IH (l - 1)); lia].
    replace l with (Z.succ (l - 1)) in H by lia.
    rewrite Z.pow_succ_r in H by lia. lia.
  - assert (0 < l) by (apply pow2_gt_1; lia).
    rewrite len_app. change (len [false]) with 1.
    assert (Z.pos p < 2 ^ (l - 1)); [|specialize (IH (l - 1)); lia].
    replace l with (Z.succ (l - 1)) in H by lia.
    rewrite Z.pow_succ_r in H by lia. lia.
  - change (len [true]) with 1. apply pow2_gt_1 in H. lia.
Qed.

Lemma format_b_length (v l : Z) :
  0 <= v < 2 ^ l -> 1 <= l -> len (format_b v l) = l.
Proof.
  intros H Hl. unfold format_b.
  set (ds := match v with Z.pos p => pos_digits p | _ => [false] end).
  assert (D : len ds <= l).
  { subst ds. destruct v as [|p|p]; [change (len [false]) with 1; lia | | lia].
    apply pos_digits_length. lia. }
  rewrite len_app. unfold len in *. rewrite repeat_length. lia.
Qed.

(** A prefix of a bit string stands for an interval that holds it. *)
Lemma prefix_interval (a b : list bool) :
  is_prefix a b ->
  int2 a * 2 ^ (len b - len a) <= int2 b < (int2 a + 1) * 2 ^ (len b - len a).
Proof.
  intros [r ->]. rewrite int2_app, len_app.
  replace (len a + len r - len a) with (len r) by lia.
  pose proof (int2_range r). lia.
Qed.


(** *** The assigned code values *)

Definition entry_len (e : Z * (Z * Z)) : Z := snd (snd e).
Definition entry_val (e : Z * (Z * Z)) : Z := fst (snd e).

(** Every value fits its length. *)
Definition fits (L : Z) (e : Z * (Z * Z)) : Prop :=
  0 <= entry_val e < 2 ^ entry_len e /\ 1 <= entry_len e <= L.

Lemma pow2_pos (x : Z) : 0 <= x -> 0 < 2 ^ x.
Proof. intros H. apply Z.pow_pos_nonneg; lia. Qed.

Lemma pow2_split (a b L : Z) :
  0 <= a <= b -> b <= L -> 2 ^ (b - a) * 2 ^ (L - b) = 2 ^ (L - a).
Proof.
  intros H1 H2. rewrite <- Z.pow_add_r by lia. f_equal. lia.
Qed.

Lemma assign_symbols (ord : list (Z * Z)) (code prev : Z) :
  map fst (assign ord code prev) = map fst ord
  /\ map entry_len (assign ord code prev) = map snd ord.
Proof.
  revert code prev. induction ord as [|[s l] ord IH]; intros code prev.
  - split; reflexivity.
  - cbn [assign map fst snd]. destruct (IH (Z.shiftl code (l - prev) + 1) l)
      as [-> ->]. split; reflexivity.
Qed.

Lemma assign_chain (L : Z) (ord : list (Z * Z)) (code prev : Z) :
  0 <= prev -> ascending prev (map snd ord) ->
  Forall (fun l => l <= L) (map snd ord) ->
  chain L (code * 2 ^ (L - prev)) (assign ord code prev).
Proof.
  revert code prev. induction ord as [|[s l] ord IH]; intros code prev P A F.
  - exact I.
  - cbn [map snd ascending] in A, F. destruct A as [A1 A2].
    inversion F as [|? ? F1 F2]; subst.
    cbn [assign chain]. rewrite Z.shiftl_mul_pow2 by lia.
    assert (E : code * 2 ^ (l - prev) * 2 ^ (L - l) = code * 2 ^ (L - prev))
      by (rewrite <- Z.mul_assoc, pow2_split by lia; reflexivity).
    split; [exact E|].
    replace (code * 2 ^ (L - prev) + 2 ^ (L - l))
      with ((code * 2 ^ (l - prev) + 1) * 2 ^ (L - l)) by (rewrite <- E; ring).
    apply IH; [lia | exact A2 | exact F2].
Qed.

Lemma chain_ge (L S : Z) (out : list (Z * (Z * Z))) (e : Z * (Z * Z)) :
  chain L S out -> In e out -> S <= entry_val e * 2 ^ (L - entry_len e).
Proof.
  revert S. induction out as [|[s [v l]] out IH]; intros S C H; [destruct H|].
  cbn [chain] in C. destruct C as [C1 C2]. destruct H as [<-|H].
  - cbn. lia.
  - specialize (IH _ C2 H). pose proof (Z.pow_nonneg 2 (L - l)). lia.
Qed.

Lemma chain_fits (L S : Z) (out : list (Z * (Z * Z))) :
  chain L S out -> 0 <= S ->
  S + kraft L (map entry_len out) <= 2 ^ L ->
  Forall (fun l => 1 <= l <= L) (map entry_len out) ->
  Forall (fits L) out.
Proof.
  revert S. induction out as [|[s [v l]] out IH]; intros S C S0 K F;
    [constructor|].
  cbn [chain] in C. destruct C as [C1 C2].
  cbn [map entry_len snd] in K, F. inversion F as [|? ? F1 F2]; subst.
  unfold kraft in K. cbn [map sumZ fold_right] in K.
  fold (sumZ (map (fun l0 => 2 ^ (L - l0)) (map entry_len out))) in K.
  fold (kraft L (map entry_len out)) in K.
  pose proof (pow2_pos (L - l)) as Pw.
  assert (Kn : 0 <= kraft L (map entry_len out)).
  { unfold kraft. clear. induction (map entry_len out) as [|x t IH]; simpl;
      [lia|]. pose proof (Z.pow_nonneg 2 (L - x)). unfold sumZ in *. lia. }
  constructor.
  - unfold fits, entry_val, entry_len. cbn [fst snd]. split; [|exact F1].
    assert (E : 2 ^ l * 2 ^ (L - l) = 2 ^ L)
      by (rewrite <- Z.pow_add_r by lia; f_equal; lia).
    split; [nia|]. nia.
  - apply (IH (v * 2 ^ (L - l) + 2 ^ (L - l))); try assumption; lia.
Qed.

Lemma render_value (L : Z) (e : Z * (Z * Z)) :
  fits L e ->
  int2 (snd (render e)) = entry_val e /\ len (snd (render e)) = entry_len e.
Proof.
  intros [H1 H2]. unfold render. cbn [snd]. fold (entry_val e) (entry_len e).
  split; [apply int2_format_b; lia | apply format_b_length; lia].
Qed.

Lemma prefix_len (a b : list bool) : is_prefix a b -> len a <= len b.
Proof. intros [r ->]. rewrite len_app. pose proof (len_nonneg r). lia. Qed.

(** Two entries of a chain: the code of neither is a prefix of the code
    of the other. *)
Lemma chain_no_prefix (L S : Z) (e : Z * (Z * Z)) (out : list (Z * (Z * Z)))
    (x : Z * (Z * Z)) :
  chain L S (e :: out) -> Forall (fits L) (e :: out) -> In x out ->
  ~ is_prefix (snd (render e)) (snd (render x))
  /\ ~ is_prefix (snd (render x)) (snd (render e)).
Proof.
  intros C F Hx. destruct e as [s [v l]]. cbn [chain] in C.
  destruct C as [C1 C2]. inversion F as [|? ? Fe Fo]; subst.
  rewrite Forall_forall in Fo. pose proof (Fo x Hx) as Fx.
  pose proof (chain_ge _ _ _ _ C2 Hx) as G.
  destruct (render_value L _ Fe) as [Ve Le].
  destruct (render_value L _ Fx) as [Vx Lx].
  destruct Fe as [Fe1 Fe2]. destruct Fx as [Fx1 Fx2].
  unfold entry_val, entry_len in Ve, Le, Fe1, Fe2. cbn [fst snd] in Ve, Le, Fe1, Fe2.
  set (vx := entry_val x) in *. set (lx := entry_len x) in *.
  pose proof (pow2_pos (L - l)). pose proof (pow2_pos (L - lx)).
  split; intros P; pose proof (prefix_len _ _ P) as PL;
    apply prefix_interval in P; rewrite Ve, Vx, Le, Lx in *.
  - pose proof (pow2_split l lx L). nia.
  - pose proof (pow2_split lx l L). nia.
Qed.

Lemma chain_prefix_free (L S : Z) (out : list (Z * (Z * Z))) :
  chain L S out -> Forall (fits L) out -> NoDup (map fst out) ->
  prefix_free (map render out).
Proof.
  revert S. induction out as [|e out IH]; intros S C F ND; [intros ? ? ? ? []|].
  assert (C' : chain L (S + 2 ^ (L - entry_len e)) out)
    by (destruct e as [s [v l]]; apply C).
  inversion F as [|? ? Fe Fo]; subst. inversion ND as [|? ? Hn ND']; subst.
  specialize (IH _ C' Fo ND').
  intros s1 c1 s2 c2 H1 H2 Hne.
  cbn [map] in H1, H2. destruct H1 as [H1|H1]; destruct H2 as [H2|H2].
  - rewrite H1 in H2. injection H2 as E _. congruence.
  - apply in_map_iff in H2. destruct H2 as (x & Ex & Hx).
    destruct (chain_no_prefix L S e out x C F Hx) as [N _].
    rewrite H1, Ex in N. exact N.
  - apply in_map_iff in H1. destruct H1 as (x & Ex & Hx).
    destruct (chain_no_prefix L S e out x C F Hx) as [_ N].
    rewrite H2, Ex in N. exact N.
  - exact (IH _ _ _ _ H1 H2 Hne).
Qed.

Lemma prefix_free_codes_nodup (m : list (Z * list bool)) :
  NoDup (keys m) -> prefix_free m -> NoDup (map snd m).
Proof.
  induction m as [|[s c] m IH]; intros ND PF; [constructor|].
  inversion ND as [|? ? Hn ND']; subst. cbn [map snd]. constructor.
  - intros H. apply in_map_iff in H. destruct H as ([s' c'] & E & H').
    cbn [snd] in E. subst c'.
    apply (PF s c s' c); [left; reflexivity | right; exact H' | |exists []].
    + intros ->. apply Hn. change s' with (fst (s', c)). apply in_map, H'.
    + symmetry. apply app_nil_r.
  - apply IH; [exact ND'|]. intros s1 c1 s2 c2 H1 H2.
    apply PF; right; assumption.
Qed.

End Canon.
(** ** The tables of the Huffman encoder *)

Module HuffTables.
Import Huffman Tree Canon.

(** The (symbol, length) pairs in canonical order for a raw code map. *)
Definition canon_order (code_map : list (Z * list bool)) : list Z :=
  let lengths := dict_of Z.eqb (map (fun '(s, b) => (s, len b)) code_map) in
  map snd (sorted (fun a b => key_leb (fst a) (fst b))
                  (map (fun s => ((at_key lengths s, s), s)) (keys code_map))).

Definition canon_pairs (code_map : list (Z * list bool)) : list (Z * Z) :=
  let lengths := dict_of Z.eqb (map (fun '(s, b) => (s, len b)) code_map) in
  map (fun s => (s, at_key lengths s)) (canon_order code_map).

Lemma canon_loop_assign (lengths : list (Z * Z)) (order : list Z)
    (canonical : list (Z * list bool)) (code prev : Z) :
  NoDup (keys canonical ++ order) ->
  canon_loop lengths order canonical code prev
  = canonical
      ++ map render (assign (map (fun s => (s, at_key lengths s)) order)
                            code prev).
Proof.
  revert canonical code prev.
  induction order as [|s order IH]; intros canonical code prev ND.
  - symmetry. apply app_nil_r.
  - cbn [canon_loop map assign]. rewrite set_absent
      by (apply NoDup_remove_2 in ND; intros H; apply ND, in_or_app; auto).
    rewrite IH.
    + rewrite <- app_assoc. reflexivity.
    + unfold keys in *. rewrite map_app, <- app_assoc. exact ND.
Qed.

Lemma sorted_ascending (l : list (Z * Z * Z)) (p : Z) :
  Sorted (le_by (fun a b => key_leb (fst a) (fst b))) l ->
  match l with [] => True | y :: _ => p <= fst (fst y) end ->
  ascending p (map (fun x => fst (fst x)) l).
Proof.
  intros S. revert p. induction S as [|x l S IH H]; intros p Hp; [exact I|].
  cbn [map ascending]. split; [exact Hp|]. apply IH.
  destruct H as [|y l H]; [exact I|].
  apply key_leb_fst. exact H.
Qed.

Section Maps.
Variable code_map : list (Z * list bool).
Hypothesis nodup : NoDup (keys code_map).

Let lengths := dict_of Z.eqb (map (fun '(s, b) => (s, len b)) code_map).

Lemma lengths_eq : lengths = map (fun '(s, b) => (s, len b)) code_map.
Proof.
  apply dict_of_nodup. unfold keys. rewrite map_map.
  erewrite map_ext; [exact nodup|]. intros [s b]. reflexivity.
Qed.

Lemma at_key_len (s : Z) (b : list bool) :
  In (s, b) code_map -> at_key lengths s = len b.
Proof.
  intros H. unfold at_key, count. rewrite lengths_eq.
  rewrite (In_get _ s (len b)); [reflexivity | |].
  - unfold keys. rewrite map_map.
    erewrite map_ext; [exact nodup|]. intros [s' b']. reflexivity.
  - apply in_map_iff. exists (s, b). split; [reflexivity | exact H].
Qed.

Lemma canon_order_perm : Permutation (keys code_map) (canon_order code_map).
Proof.
  unfold canon_order. fold lengths.
  rewrite <- (sorted_perm _ _).
  rewrite map_map. cbn [snd]. rewrite map_id. reflexivity.
Qed.

Lemma canon_pairs_fst : map fst (canon_pairs code_map) = canon_order code_map.
Proof.
  unfold canon_pairs. rewrite map_map. cbn [fst]. apply map_id.
Qed.

Lemma canon_pairs_lens :
  Permutation (map snd (canon_pairs code_map)) (code_lengths code_map).
Proof.
  unfold canon_pairs. fold lengths. rewrite map_map. cbn [snd].
  rewrite <- (Permutation_map _ canon_order_perm).
  unfold keys, code_lengths. rewrite map_map.
  erewrite map_ext_in; [reflexivity|].
  intros [s b] H. cbn [fst snd]. apply at_key_len. exact H.
Qed.

Lemma canon_pairs_ascending :
  ascending 0 (map snd (canon_pairs code_map)).
Proof.
  unfold canon_pairs, canon_order. fold lengths.
  set (leb := fun a b : Z * Z * Z => key_leb (fst a) (fst b)).
  set (dec := map (fun s => ((at_key lengths s, s), s)) (keys code_map)).
  assert (S : Sorted (le_by leb) (sorted leb dec))
    by (apply sorted_Sorted; intros a b; apply key_leb_total).
  assert (F : forall x, In x (sorted leb dec) ->
                        fst (fst x) = at_key lengths (snd x)
                        /\ 0 <= fst (fst x)).
  { intros x Hx.
    apply (Permutation_in _ (Permutation_sym (sorted_perm leb dec))) in Hx.
    subst dec. apply in_map_iff in Hx. destruct Hx as (s & <- & Hs).
    cbn [fst snd]. split; [reflexivity|].
    unfold keys in Hs. apply in_map_iff in Hs.
    destruct Hs as ([s' b] & <- & Hb). cbn [fst].
    rewrite (at_key_len _ _ Hb). apply len_nonneg. }
  rewrite !map_map. cbn [snd].
  rewrite (map_ext_in _ (fun x => fst (fst x)))
    by (intros x Hx; symmetry; apply F, Hx).
  apply sorted_ascending; [exact S|].
  destruct (sorted leb dec) as [|y l]; [exact I|]. apply F. simpl; auto.
Qed.


(** The decoder's sort leaves the pairs of the header as they are. *)
Lemma canon_pairs_sorted :
  sorted (fun a b => key_leb (snd a, fst a) (snd b, fst b))
         (canon_pairs code_map)
  = canon_pairs code_map.
Proof.
  apply sorted_id. unfold canon_pairs, canon_order. fold lengths.
  set (leb := fun a b : Z * Z * Z => key_leb (fst a) (fst b)).
  set (dec := map (fun s => ((at_key lengths s, s), s)) (keys code_map)).
  rewrite map_map.
  apply (Sorted_map (le_by leb)); [|apply sorted_Sorted;
                                     intros a b; apply key_leb_total].
  assert (F : forall x, In x (sorted leb dec) ->
                        fst x = (at_key lengths (snd x), snd x)).
  { intros x Hx.
    apply (Permutation_in _ (Permutation_sym (sorted_perm leb dec))) in Hx.
    subst dec. apply in_map_iff in Hx. destruct Hx as (s & <- & _).
    reflexivity. }
  intros a b Ha Hb R. unfold le_by, leb in *. cbn [fst snd].
  rewrite <- (F a Ha), <- (F b Hb). exact R.
Qed.

Variable L : Z.
Hypothesis kraft_sum : kraft L (code_lengths code_map) = 2 ^ L.
Hypothesis lens_range : Forall (fun l => 1 <= l <= L) (code_lengths code_map).

Let out := assign (canon_pairs code_map) 0 0.

Lemma to_canonical_render :
  _to_canonical code_map = (map render out, lengths).
Proof.
  unfold _to_canonical. fold lengths. f_equal.
  change (map snd (sorted _ _)) with (canon_order code_map).
  rewrite canon_loop_assign.
  - reflexivity.
  - cbn [keys map app].
    eapply Permutation_NoDup; [apply canon_order_perm | exact nodup].
Qed.

Lemma kraft_perm (a b : list Z) :
  Permutation a b -> kraft L a = kraft L b.
Proof. intros P. unfold kraft. apply sumZ_perm, Permutation_map, P. Qed.

Lemma out_symbols : map fst out = canon_order code_map.
Proof.
  unfold out. rewrite (proj1 (assign_symbols _ _ _)). apply canon_pairs_fst.
Qed.

Lemma out_lens : map entry_len out = map snd (canon_pairs code_map).
Proof. unfold out. apply assign_symbols. Qed.

Lemma out_range : Forall (fun l => 1 <= l <= L) (map entry_len out).
Proof.
  rewrite out_lens. rewrite Forall_forall in *. intros l Hl.
  apply lens_range. eapply Permutation_in; [apply canon_pairs_lens | exact Hl].
Qed.

Lemma out_chain : chain L 0 out /\ Forall (fits L) out.
Proof.
  pose proof out_range as R.
  assert (C : chain L 0 out).
  { replace 0 with (0 * 2 ^ (L - 0)) at 1 by lia.
    apply assign_chain; [lia | apply canon_pairs_ascending |].
    rewrite <- out_lens. eapply Forall_impl; [|exact R].
    cbv beta. intros; lia. }
  split; [exact C|].
  apply (chain_fits L 0); [exact C | lia | | exact R].
  rewrite out_lens, (kraft_perm _ _ canon_pairs_lens), kraft_sum. lia.
Qed.

Lemma out_nodup : NoDup (map fst out).
Proof.
  rewrite out_symbols.
  eapply Permutation_NoDup; [apply canon_order_perm | exact nodup].
Qed.

(** The canonical map is prefix-free. *)
Lemma canonical_prefix_free : prefix_free (fst (_to_canonical code_map)).
Proof.
  rewrite to_canonical_render. cbn [fst].
  destruct out_chain as [C F].
  exact (chain_prefix_free L 0 out C F out_nodup).
Qed.

Lemma canonical_keys :
  keys (fst (_to_canonical code_map)) = canon_order code_map.
Proof.
  rewrite to_canonical_render. cbn [fst]. unfold keys.
  rewrite map_map. rewrite <- out_symbols. apply map_ext.
  intros e. reflexivity.
Qed.

(** The pairs written to the header are the canonical pairs. *)
Lemma header_pairs :
  map (fun s => (s, at_key (snd (_to_canonical code_map)) s))
      (keys (fst (_to_canonical code_map)))
  = canon_pairs code_map.
Proof.
  rewrite canonical_keys. rewrite to_canonical_render. reflexivity.
Qed.

Lemma table_loop_assign (pairs : list (Z * Z)) (table : list (list bool * Z))
    (code prev : Z) :
  NoDup (keys table ++ map snd (map render (assign pairs code prev))) ->
  table_loop pairs table code prev
  = table ++ map (fun e => (snd (render e), fst e)) (assign pairs code prev).
Proof.
  revert table code prev.
  induction pairs as [|[s l] pairs IH]; intros table code prev ND.
  - symmetry. apply app_nil_r.
  - cbn [table_loop assign map].
    assert (E : (if negb (l =? prev) then Z.shiftl code (l - prev) else code)
                = Z.shiftl code (l - prev)).
    { destruct (Z.eqb_spec l prev) as [->|]; [|reflexivity].
      cbn [negb]. rewrite Z.sub_diag. symmetry. apply Z.shiftl_0_r. }
    rewrite E. cbn [assign map render fst snd] in ND.
    rewrite (dict_set_absent bits_eqb).
    + rewrite IH.
      * rewrite <- app_assoc. reflexivity.
      * unfold keys in *. rewrite map_app, <- app_assoc. exact ND.
    + apply bits_eqb_spec.
    + apply NoDup_remove_2 in ND. intros H. apply ND, in_or_app. auto.
Qed.

(** The table the decoder rebuilds from the header's pairs holds the
    canonical codes with their symbols. *)
Lemma dec_table_render :
  dec_table (canon_pairs code_map)
  = map (fun e => (snd (render e), fst e)) out.
Proof.
  unfold dec_table. rewrite canon_pairs_sorted.
  rewrite table_loop_assign; [reflexivity|].
  cbn [keys map app]. fold out.
  apply prefix_free_codes_nodup.
  - unfold keys. rewrite map_map.
    erewrite map_ext; [exact out_nodup|]. reflexivity.
  - destruct out_chain as [C F].
    exact (chain_prefix_free L 0 out C F out_nodup).
Qed.

End Maps.
End HuffTables.
(** ** Decoding with a prefix-free table *)

Module HuffDecode.
Import Huffman Tree Canon HuffTables.

(** [table] maps every code of [m] to its symbol, and nothing else. *)
Definition inverse_of (table : list (list bool * Z))
    (m : list (Z * list bool)) : Prop :=
  forall c s, get bits_eqb table c = Some s <-> get Z.eqb m s = Some c.

Section Decode.
Variables (m : list (Z * list bool)) (table : list (list bool * Z)).
Hypothesis m_nodup : NoDup (keys m).
Hypothesis m_prefix_free : prefix_free m.
Hypothesis m_nonempty : forall s c, In (s, c) m -> c <> [].
Hypothesis table_inverse : inverse_of table m.

Lemma table_partial (s : Z) (c done todo : list bool) :
  In (s, c) m -> c = done ++ todo -> todo <> [] ->
  get bits_eqb table done = None.
Proof.
  intros H E T. destruct (get bits_eqb table done) as [s'|] eqn:G;
    [|reflexivity].
  exfalso. apply table_inverse in G. apply get_In in G.
  destruct (Z.eq_dec s' s) as [->|Hne].
  - assert (Ec : Some done = Some c)
      by (rewrite <- (In_get m s done m_nodup G);
          apply (In_get m s c m_nodup H)).
    injection Ec as Ec. rewrite E in Ec.
    apply (f_equal (@length bool)) in Ec. rewrite length_app in Ec.
    destruct todo; [congruence | simpl in Ec; lia].
  - apply (m_prefix_free s' done s c G H Hne). exists todo. exact E.
Qed.

(** Reading the code of one symbol. *)
Lemma read_code (n : Z) (s : Z) (c : list bool) (rest : list bool)
    (out : list Z) :
  In (s, c) m ->
  forall todo done, c = done ++ todo -> todo <> [] ->
    dec_loop table n (todo ++ rest) out done
    = if len (s :: out) =? n then rev (s :: out)
      else dec_loop table n rest (s :: out) [].
Proof.
  intros H. induction todo as [|b todo IH]; intros done E T; [congruence|].
  cbn [app dec_loop]. destruct todo as [|b' todo].
  - rewrite <- E.
    assert (G : get bits_eqb table c = Some s)
      by (apply table_inverse, (In_get m s c m_nodup H)).
    rewrite G. reflexivity.
  - rewrite (table_partial s c (done ++ [b]) (b' :: todo) H)
      by (try (rewrite <- app_assoc; exact E); discriminate).
    apply IH; [rewrite <- app_assoc; exact E | discriminate].
Qed.

(** Decoding the concatenated codes of [ss] gives [ss] back. *)
Lemma dec_loop_codes (ss : list Z) (cs : list (list bool)) (out : list Z) :
  Forall2 (fun s c => In (s, c) m) ss cs ->
  dec_loop table (len out + len ss) (concat cs) out [] = rev out ++ ss.
Proof.
  intros F. revert out. induction F as [|s c ss cs H F IH]; intros out.
  - cbn. symmetry. apply app_nil_r.
  - cbn [concat].
    rewrite (read_code _ s c (concat cs) out H c [] eq_refl
               (m_nonempty s c H)).
    assert (E : len out + len (s :: ss) = len (s :: out) + len ss)
      by (unfold len; cbn [length]; lia).
    destruct (Z.eqb_spec (len (s :: out)) (len out + len (s :: ss)))
      as [Q|Q].
    + assert (ss = []) by (destruct ss; [reflexivity |
                             unfold len in *; cbn [length] in *; lia]).
      subst ss. cbn [rev]. reflexivity.
    + rewrite E, IH. cbn [rev]. rewrite <- app_assoc. reflexivity.
Qed.

End Decode.
End HuffDecode.

(** ** The Huffman encoder's tables for an input *)

Module HuffSpec.
Import Huffman Tree Canon HuffTables HuffDecode.

(** What [encode] computes before it writes anything, for an input with
    two distinct symbols or more. *)
Record tables_spec (data : list byte) (canon : list (Z * list bool))
    (lengths : list (Z * Z)) : Prop := {
  ts_nodup : NoDup (keys canon);
  ts_symbols : Permutation (keys (Counter data)) (keys canon);
  ts_prefix_free : prefix_free canon;
  ts_nonempty : forall s c, In (s, c) canon -> c <> [];
  ts_sorted :
    sorted (fun a b => key_leb (snd a, fst a) (snd b, fst b))
           (map (fun s => (s, at_key lengths s)) (keys canon))
    = map (fun s => (s, at_key lengths s)) (keys canon);
  ts_inverse :
    inverse_of (dec_table (map (fun s => (s, at_key lengths s)) (keys canon)))
               canon;
  ts_lengths : forall s c, In (s, c) canon -> at_key lengths s = len c;
  ts_short : forall s c, In (s, c) canon -> len c < len canon
}.

Lemma assign_pairs (ord : list (Z * Z)) (code prev : Z) :
  map (fun e => (fst e, entry_len e)) (assign ord code prev) = ord.
Proof.
  revert code prev. induction ord as [|[s l] ord IH]; intros code prev.
  - reflexivity.
  - cbn [assign map]. rewrite IH. reflexivity.
Qed.

Lemma code_tables_spec (data : list byte) :
  (2 <= length (Counter data))%nat ->
  exists canon lengths,
    code_tables data = Ok (canon, lengths) /\ tables_spec data canon lengths.
Proof.
  intros H2. unfold code_tables.
  pose proof (Counter_counted data) as C.
  destruct (build_tree_ok (Counter data)) as (root & -> & P & B);
    [destruct (Counter data); [simpl in H2; lia | discriminate]|].
  specialize (B H2). cbn [bind].
  assert (ND : NoDup (leaf_symbols root))
    by (eapply Permutation_NoDup; [exact P | apply (counted_nodup _ _ C)]).
  rewrite (build_code_map_codes root [] ND).
  set (code_map := codes root []).
  assert (NDk : NoDup (keys code_map))
    by (unfold code_map; rewrite codes_keys; exact ND).
  destruct (codes_kraft root [] (height root)) as [K R];
    [right; exact B | change (len (@nil bool)) with 0; lia|].
  fold code_map in K, R. change (len (@nil bool)) with 0 in K.
  rewrite Z.sub_0_r in K.
  set (L := height root) in *.
  pose proof (to_canonical_render code_map NDk) as TR.
  pose proof (canonical_prefix_free code_map NDk L K R) as PF.
  pose proof (canonical_keys code_map NDk) as CK.
  pose proof (header_pairs code_map NDk) as HP.
  pose proof (canon_pairs_sorted code_map) as CS.
  pose proof (dec_table_render code_map NDk L K R) as DT.
  pose proof (out_chain code_map NDk L K R) as [Ch Fi].
  pose proof (out_nodup code_map NDk) as ON.
  pose proof (out_symbols code_map) as OS.
  pose proof (out_lens code_map) as OL.
  destruct (_to_canonical code_map) as [canon lengths] eqn:E.
  injection TR as -> ->. cbn [fst snd] in *.
  set (out := assign (canon_pairs code_map) 0 0) in *.
  exists (map render out), (dict_of Z.eqb (map (fun '(s, b) => (s, len b))
                                              code_map)).
  split; [reflexivity|].
  assert (Kc : NoDup (keys (map render out)))
    by (rewrite CK; eapply Permutation_NoDup;
        [apply canon_order_perm | exact NDk]).
  assert (Len : forall s c, In (s, c) (map render out) ->
                exists e, In e out /\ s = fst e /\ c = snd (render e)
                          /\ len c = entry_len e /\ 1 <= entry_len e <= L).
  { intros s c Hin. apply in_map_iff in Hin. destruct Hin as (e & Ee & He).
    exists e. rewrite Forall_forall in Fi. pose proof (Fi e He) as Fe.
    destruct (render_value L e Fe) as [_ Le]. destruct Fe as [_ Fe].
    pose proof (f_equal fst Ee) as E1. pose proof (f_equal snd Ee) as E2.
    cbn [fst snd render] in E1, E2. subst s c.
    repeat split; auto; lia. }
  split.
  - exact Kc.
  - rewrite CK. etransitivity; [exact P|]. unfold code_map in *.
    rewrite <- (codes_keys root []). apply canon_order_perm.
  - exact PF.
  - intros s c Hin Ec. destruct (Len s c Hin) as (e & _ & _ & _ & Le & R1 & _).
    subst c. change (len (@nil bool)) with 0 in Le. lia.
  - rewrite HP. exact CS.
  - rewrite HP, DT. intros c s. split; intros G.
    + apply (dict_get_In _ bits_eqb_spec) in G. apply in_map_iff in G.
      destruct G as (e & Ee & He). injection Ee as <- <-.
      apply (In_get _ _ _ Kc). apply in_map_iff. exists e.
      split; [reflexivity | exact He].
    + apply get_In in G. apply in_map_iff in G.
      destruct G as (e & Ee & He). injection Ee as <- <-.
      apply (dict_In_get _ bits_eqb_spec).
      * unfold keys. rewrite map_map. cbn [fst].
        apply (prefix_free_codes_nodup (map render out) Kc) in PF.
        rewrite map_map in PF. exact PF.
      * apply in_map_iff. exists e. split; [reflexivity | exact He].
  - intros s c Hin. destruct (Len s c Hin) as (e & He & -> & -> & Le & _).
    rewrite Le.
    assert (Hp : In (fst e, entry_len e) (canon_pairs code_map)).
    { pose proof (assign_pairs (canon_pairs code_map) 0 0) as Q. fold out in Q.
      rewrite <- Q. apply in_map_iff. exists e. split; [reflexivity | exact He]. }
    rewrite <- HP in Hp. apply in_map_iff in Hp.
    destruct Hp as (s' & Es & _). injection Es as -> <-. reflexivity.
  - intros s c Hin. destruct (Len s c Hin) as (e & _ & _ & _ & Le & _ & Le2).
    rewrite Le. pose proof (height_bound root) as HB. fold L in HB.
    assert (len (map render out) = len (leaf_symbols root)); [|lia].
    unfold len. f_equal.
    rewrite <- (length_map fst (map render out)). fold (keys (map render out)).
    rewrite CK. rewrite <- (Permutation_length (canon_order_perm code_map)).
    unfold code_map. rewrite codes_keys. reflexivity.
Qed.


(** *** The header *)

(** The two bytes written for one (symbol, length) pair. *)
Definition pair_bytes (p : Z * Z) (bs : list byte) : Prop :=
  exists b1 b2, bs = [b1; b2] /\ byte_val b1 = fst p /\ byte_val b2 = snd p.

Lemma parse_pairs_app (tab : list (list byte)) (ps : list (Z * Z))
    (pre rest : list byte) :
  Forall2 pair_bytes ps tab ->
  parse_pairs (pre ++ concat tab ++ rest) (length tab) (length pre) = Ok ps.
Proof.
  intros F. revert pre. induction F as [|p bs ps tab H F IH]; intros pre.
  - reflexivity.
  - destruct H as (b1 & b2 & -> & E1 & E2).
    cbn [length parse_pairs concat app]. unfold index.
    rewrite (nth_error_app_here pre). cbn [bind].
    replace (pre ++ b1 :: b2 :: concat tab ++ rest)
      with ((pre ++ [b1]) ++ b2 :: concat tab ++ rest)
      by (rewrite <- app_assoc; reflexivity).
    replace (length pre + 1)%nat with (length (pre ++ [b1]))
      by (rewrite length_app; reflexivity).
    rewrite nth_error_app_here. cbn [bind].
    replace ((pre ++ [b1]) ++ b2 :: concat tab ++ rest)
      with ((pre ++ [b1; b2]) ++ concat tab ++ rest)
      by (rewrite <- !app_assoc; reflexivity).
    replace (length pre + 2)%nat with (length (pre ++ [b1; b2]))
      by (rewrite length_app; reflexivity).
    rewrite IH. cbn [bind]. rewrite E1, E2. destruct p; reflexivity.
Qed.

(** Whatever follows them, the length, the count and the pairs at the
    head of a blob are parsed back. *)
Lemma parse_header_prefix (h_len : list byte) (cb : byte)
    (tab : list (list byte)) (ps : list (Z * Z)) (rest : list byte) :
  length h_len = 4%nat -> byte_val cb = len tab -> Forall2 pair_bytes ps tab ->
  exists h, parse_header (h_len ++ [cb] ++ concat tab ++ rest) = Ok h
            /\ pairs h = ps /\ orig_len h = from_bytes h_len.
Proof.
  intros L4 Ec F. unfold parse_header. cbv zeta.
  cbn [Nat.add]. unfold index.
  replace (nth_error (h_len ++ [cb] ++ concat tab ++ rest) 4) with (Some cb)
    by (rewrite <- L4; symmetry; apply nth_error_app_here).
  cbn [bind]. rewrite Ec. unfold len. rewrite Nat2Z.id.
  replace (h_len ++ [cb] ++ concat tab ++ rest)
    with ((h_len ++ [cb]) ++ concat tab ++ rest)
    by (rewrite <- app_assoc; reflexivity).
  pose proof (parse_pairs_app tab ps (h_len ++ [cb]) rest F) as Hpp.
  rewrite length_app, L4 in Hpp. cbn [length Nat.add] in Hpp.
  rewrite Hpp. cbn [bind].
  eexists. split; [reflexivity|]. cbn [pairs orig_len]. split; [reflexivity|].
  f_equal. unfold slice. cbn [skipn Nat.sub].
  rewrite <- app_assoc, <- L4. rewrite firstn_app, firstn_all, Nat.sub_diag.
  cbn [firstn]. apply app_nil_r.
Qed.

Lemma pair_bytes_written (line : nat) (lengths : list (Z * Z))
    (ks : list Z) (tab : list (list byte)) :
  mapM (fun s => bytes_of_ints line [s; at_key lengths s]) ks = Ok tab ->
  Forall2 pair_bytes (map (fun s => (s, at_key lengths s)) ks) tab.
Proof.
  intros E. apply mapM_Forall2 in E.
  induction E as [|s bs ks tab H F IH]; cbn [map]; constructor; [|exact IH].
  unfold bytes_of_ints in H. cbn [mapM] in H.
  destruct (byte_of_int line s) as [b1|] eqn:E1; [|discriminate].
  cbn [bind] in H.
  destruct (byte_of_int line (at_key lengths s)) as [b2|] eqn:E2;
    [|discriminate].
  cbn [bind] in H. injection H as <-.
  exists b1, b2. split; [reflexivity|]. cbn [fst snd].
  split; eapply byte_of_int_val; eassumption.
Qed.

End HuffSpec.
Import Huffman Tree Canon HuffTables HuffDecode HuffSpec.

Definition sample_huffman_blob : list byte :=
  Eval vm_compute in
    match Huffman.encode sample with Ok b => b | Raise _ _ => [] end.

Definition sample_canon : list (Z * list bool) :=
  Eval vm_compute in
    match code_tables sample with Ok t => fst t | Raise _ _ => [] end.

Definition sample_lengths : list (Z * Z) :=
  Eval vm_compute in
    match code_tables sample with Ok t => snd t | Raise _ _ => [] end.

(** C3. For an input with two distinct symbols or more that [encode]
    accepts, the table [decode] rebuilds from the (symbol, length) pairs of
    the header, sorted by (length, symbol) and run through the
    canonicalisation, is exactly the inverse of the encoder's canonical map:
    it sends a bit string to a symbol if and only if the canonical map sends
    that symbol to that bit string.  The bytes of the serialized canonical
    bit patterns play no part: replacing them by any other bytes leaves the
    rebuilt table unchanged. *)
Theorem decoder_rebuilds_canonical_table (data blob : list byte) :
  (2 <= length (Counter data))%nat ->
  Huffman.encode data = Ok blob ->
  exists canon lengths hdr cblob rest h,
    code_tables data = Ok (canon, lengths)
    /\ _pack_bits (concat (map snd canon)) = Ok cblob
    /\ blob = hdr ++ cblob ++ rest
    /\ parse_header blob = Ok h
    /\ pairs h = map (fun s => (s, at_key lengths s)) (keys canon)
    /\ inverse_of (dec_table (pairs h)) canon
    /\ forall junk,
         exists h', parse_header (hdr ++ junk ++ rest) = Ok h'
                    /\ dec_table (pairs h') = dec_table (pairs h).
Proof.
  intros H2 E.
  destruct (code_tables_spec data H2) as (canon & lengths & Hc & TS).
  pose proof (Counter_nonempty data H2) as NE.
  unfold Huffman.encode in E. destruct data as [|b0 data0]; [congruence|].
  set (data := b0 :: data0) in *.
  replace (length (Counter data) =? 1)%nat with false in E
    by (symmetry; apply Nat.eqb_neq; lia).
  rewrite Hc in E. cbn [bind] in E.
  destruct (to_bytes 71 (len data) 4) as [h_len|] eqn:E1; [|discriminate].
  cbn [bind] in E.
  destruct (bytes_of_ints 72 [len canon]) as [h_cnt|] eqn:E2; [|discriminate].
  cbn [bind] in E.
  destruct (mapM (fun s => bytes_of_ints 76 [s; at_key lengths s]) (keys canon))
    as [h_tab|] eqn:E3; [|discriminate].
  cbn [bind] in E.
  destruct (to_bytes 80 (len (concat (map snd canon))) 2) as [h_clen|] eqn:E4;
    [|discriminate].
  cbn [bind] in E.
  destruct (_pack_bits (concat (map snd canon))) as [h_code|] eqn:E5;
    [|discriminate].
  cbn [bind] in E.
  destruct (mapM (fun b => getitem Z.eqb 84 canon (byte_val b)) data)
    as [codes|] eqn:E6; [|discriminate].
  cbn [bind] in E.
  destruct (to_bytes 85 (len (concat codes)) 4) as [h_plen|] eqn:E7;
    [|discriminate].
  cbn [bind] in E.
  destruct (_pack_bits (concat codes)) as [payload|] eqn:E8; [|discriminate].
  cbn [bind] in E. injection E as <-.
  (* the pieces of the header *)
  apply to_bytes_inv in E1. destruct E1 as [_ ->].
  unfold bytes_of_ints in E2. cbn [mapM] in E2.
  destruct (byte_of_int 72 (len canon)) as [cb|] eqn:Ecb; [|discriminate].
  cbn [bind] in E2. injection E2 as <-. apply byte_of_int_val in Ecb.
  pose proof (pair_bytes_written _ _ _ _ E3) as F.
  assert (Lt : len h_tab = len canon).
  { unfold len. f_equal. apply Forall2_length in F.
    rewrite length_map in F. unfold keys in F. rewrite length_map in F.
    congruence. }
  assert (P : forall tail,
            exists h, parse_header (be_digits 4 (len data) ++ [cb]
                                      ++ concat h_tab ++ tail) = Ok h
                      /\ pairs h
                         = map (fun s => (s, at_key lengths s)) (keys canon)).
  { intros tail.
    destruct (parse_header_prefix (be_digits 4 (len data)) cb h_tab _ tail
                (be_digits_length 4 _) (eq_trans Ecb (eq_sym Lt)) F)
      as (h & Hh & Hp & _).
    exists h. split; assumption. }
  destruct (P (h_clen ++ h_code ++ h_plen ++ payload)) as (h & Hh & Hp).
  exists canon, lengths,
    (be_digits 4 (len data) ++ [cb] ++ concat h_tab ++ h_clen),
    h_code, (h_plen ++ payload), h.
  split; [exact Hc|]. split; [exact E5|].
  split; [rewrite <- !app_assoc; reflexivity|].
  split; [exact Hh|]. split; [exact Hp|].
  split; [rewrite Hp; apply (ts_inverse _ _ _ TS)|].
  intros junk. destruct (P (h_clen ++ junk ++ h_plen ++ payload))
    as (h' & Hh' & Hp').
  exists h'. split; [|rewrite Hp', Hp; reflexivity].
  rewrite <- Hh'. f_equal. rewrite <- !app_assoc. reflexivity.
Qed.

Lemma decoder_rebuilds_canonical_table_witness :
  exists h, parse_header sample_huffman_blob = Ok h
            /\ inverse_of (dec_table (pairs h)) sample_canon.
Proof.
  destruct (decoder_rebuilds_canonical_table sample sample_huffman_blob)
    as (canon & lengths & hdr & cblob & rest & h & Hc & _ & _ & Hh & _ & Hi & _).
  - vm_compute. lia.
  - vm_compute. reflexivity.
  - exists h. split; [exact Hh|].
    assert (E : Ok (canon, lengths) = Ok (sample_canon, sample_lengths))
      by (rewrite <- Hc; vm_compute; reflexivity).
    injection E as -> _. exact Hi.
Defined.

(** C4. For an input with two distinct symbols or more, no code of the
    encoder's canonical map is a prefix of the code of another symbol (so
    none is a proper prefix, and no two are equal), and the decoder's loop,
    which accumulates bits and takes the first match in the table it
    rebuilt, turns the concatenated codes of the input back into the
    input. *)
Theorem canonical_codes_prefix_free (data : list byte) :
  (2 <= length (Counter data))%nat ->
  exists canon lengths codes,
    code_tables data = Ok (canon, lengths)
    /\ (forall s1 c1 s2 c2,
          get Z.eqb canon s1 = Some c1 -> get Z.eqb canon s2 = Some c2 ->
          s1 <> s2 -> ~ is_prefix c1 c2)
    /\ mapM (fun b => getitem Z.eqb 84 canon (byte_val b)) data = Ok codes
    /\ dec_loop (dec_table (map (fun s => (s, at_key lengths s)) (keys canon)))
                (len data) (concat codes) [] []
       = map byte_val data.
Proof.
  intros H2.
  destruct (code_tables_spec data H2) as (canon & lengths & Hc & TS).
  destruct (mapM_ok (fun b => getitem Z.eqb 84 canon (byte_val b)) data)
    as (codes & Ec & _).
  { intros b Hb. unfold getitem.
    destruct (get_Some_key canon (byte_val b)) as [c ->]; [|eauto].
    eapply Permutation_in; [apply (ts_symbols _ _ _ TS)|].
    apply Counter_keys, Hb. }
  exists canon, lengths, codes. split; [exact Hc|]. split; [|split; [exact Ec|]].
  - intros s1 c1 s2 c2 G1 G2. apply get_In in G1. apply get_In in G2.
    exact (ts_prefix_free _ _ _ TS s1 c1 s2 c2 G1 G2).
  - pose proof (dec_loop_codes canon _ (ts_nodup _ _ _ TS)
                  (ts_prefix_free _ _ _ TS) (ts_nonempty _ _ _ TS)
                  (ts_inverse _ _ _ TS) (map byte_val data) codes []) as D.
    change (len (@nil Z)) with 0 in D. cbn [rev app] in D.
    replace (0 + len (map byte_val data)) with (len data) in D
      by (unfold len; rewrite length_map; lia).
    apply D. apply mapM_Forall2 in Ec. clear -Ec.
    induction Ec as [|b c data codes H F IH]; cbn [map]; constructor;
      [|exact IH].
    unfold getitem in H. destruct (get Z.eqb canon (byte_val b)) eqn:G;
      [|discriminate].
    injection H as <-. apply get_In, G.
Qed.

Lemma canonical_codes_prefix_free_witness :
  get Z.eqb sample_canon 97 = Some [false]
  /\ get Z.eqb sample_canon 98 = Some [true; false; false]
  /\ ~ is_prefix [false] [true; false; false].
Proof.
  destruct (canonical_codes_prefix_free sample)
    as (canon & lengths & codes & Hc & Hp & _).
  - vm_compute. lia.
  - assert (E : Ok (canon, lengths) = Ok (sample_canon, sample_lengths))
      by (rewrite <- Hc; vm_compute; reflexivity).
    injection E as -> _.
    split; [reflexivity|]. split; [reflexivity|].
    apply (Hp 97 _ 98 _); [reflexivity | reflexivity | discriminate].
Defined.

(** Every byte value once, in ascending order. *)
Definition all_bytes : list byte := map byte_wrap (map Z.of_nat (seq 0 256)).

(** What the Huffman encoder does up to the first header field. *)
Lemma huffman_encode_general (data : list byte) :
  (2 <= length (Counter data))%nat ->
  exists k,
    Huffman.encode data
    = (h_len <- to_bytes 71 (len data) 4 ;;
       h_cnt <- bytes_of_ints 72 [Z.of_nat (length (Counter data))] ;;
       k h_len h_cnt).
Proof.
  intros H2. pose proof (Counter_nonempty data H2) as NE.
  destruct (code_tables_spec data H2) as (canon & lengths & Hc & TS).
  unfold Huffman.encode. destruct data as [|b0 data0]; [congruence|].
  set (data := b0 :: data0) in *.
  replace (length (Counter data) =? 1)%nat with false
    by (symmetry; apply Nat.eqb_neq; lia).
  rewrite Hc. cbn [bind].
  assert (Lc : len canon = Z.of_nat (length (Counter data))).
  { unfold len. f_equal.
    rewrite <- (length_map fst canon), <- (length_map fst (Counter data)).
    symmetry. apply Permutation_length, (ts_symbols _ _ _ TS). }
  rewrite Lc. eexists (fun h_len h_cnt => _). reflexivity.
Qed.

(** C10, amended. For every input of fewer than [2^32] bytes that has
    exactly 256 distinct byte values, [encode] of either coder raises
    [ValueError] on the line that writes the one-byte count of distinct
    symbols (line 72 of huffman.py, line 135 of arithmetic.py), and so
    returns no blob. *)
Theorem symbol_count_overflow (data : list byte) :
  length (Counter data) = 256%nat -> len data < 2 ^ 32 ->
  Huffman.encode data = Raise ValueError 72
  /\ Arithmetic.encode data = Raise ValueError 135.
Proof.
  intros H256 Hlen.
  assert (H2 : (2 <= length (Counter data))%nat) by lia.
  assert (R : 0 <= len data < 256 ^ Z.of_nat 4)
    by (change (256 ^ Z.of_nat 4) with (2 ^ 32); unfold len in *; lia).
  split.
  - destruct (huffman_encode_general data H2) as [k ->].
    rewrite to_bytes_ok by exact R. rewrite H256. reflexivity.
  - destruct (arithmetic_encode_general data H2) as [cb ->].
    rewrite to_bytes_ok by exact R. rewrite H256. reflexivity.
Qed.

Lemma symbol_count_overflow_witness :
  Huffman.encode all_bytes = Raise ValueError 72
  /\ Arithmetic.encode all_bytes = Raise ValueError 135.
Proof.
  apply (symbol_count_overflow all_bytes).
  - vm_compute. reflexivity.
  - vm_compute. reflexivity.
Defined.

(** Longer inputs fail earlier, on the line that writes the length. *)
Lemma length_overflow (data : list byte) :
  (2 <= length (Counter data))%nat -> 2 ^ 32 <= len data ->
  Huffman.encode data = Raise OverflowError 71
  /\ Arithmetic.encode data = Raise OverflowError 134.
Proof.
  intros H2 Hlen.
  assert (R : 256 ^ Z.of_nat 4 <= len data)
    by (change (256 ^ Z.of_nat 4) with (2 ^ 32); lia).
  split.
  - destruct (huffman_encode_general data H2) as [k ->].
    rewrite to_bytes_overflow by exact R. reflexivity.
  - destruct (arithmetic_encode_general data H2) as [cb ->].
    rewrite to_bytes_overflow by exact R. reflexivity.
Qed.

Lemma Counter_padded (n : nat) :
  length (Counter (all_bytes ++ repeat x00 n)) = 256%nat.
Proof.
  rewrite Counter_app.
  rewrite (tally_repeat x00 n (Counter all_bytes) 1) by (vm_compute; reflexivity).
  rewrite (set_length_present _ _ _ 1) by (vm_compute; reflexivity).
  vm_compute. reflexivity.
Qed.

(** The claim as stated fails on an input of [2^32] bytes with 256
    distinct values: the error is raised one line earlier, by the 4-byte
    length. *)
Lemma symbol_count_overflow_long_input :
  let data := all_bytes ++ repeat x00 (Z.to_nat 4294967040) in
  length (Counter data) = 256%nat
  /\ Huffman.encode data = Raise OverflowError 71
  /\ Arithmetic.encode data = Raise OverflowError 134.
Proof.
  intros data. subst data.
  assert (Hn : Z.of_nat (Z.to_nat 4294967040) = 4294967040) by lia.
  generalize dependent (Z.to_nat 4294967040). intros n Hn.
  pose proof (Counter_padded n) as C. split; [exact C|].
  apply length_overflow; [lia|].
  unfold len. rewrite length_app, repeat_length.
  change (length all_bytes) with 256%nat. change (2 ^ 32) with 4294967296. lia.
Qed.

(** C1. The round trip fails on the input that holds every byte value
    once: neither coder returns a blob for it. *)
Theorem round_trip_fails_on_all_bytes :
  Huffman.encode all_bytes = Raise ValueError 72
  /\ Arithmetic.encode all_bytes = Raise ValueError 135
  /\ bind (Huffman.encode all_bytes) Huffman.decode <> Ok all_bytes
  /\ bind (Arithmetic.encode all_bytes) Arithmetic.decode <> Ok all_bytes.
Proof.
  assert (H : Huffman.encode all_bytes = Raise ValueError 72)
    by (vm_compute; reflexivity).
  assert (A : Arithmetic.encode all_bytes = Raise ValueError 135)
    by (vm_compute; reflexivity).
  rewrite H, A. repeat split; discriminate.
Qed.

(** The inputs on which the tree construction departs from the claim. *)
Definition counts_54321 : list byte :=
  ascii_bytes [97; 97; 97; 97; 97; 98; 98; 98; 98; 99; 99; 99; 100; 100; 101].

Definition with_symbol_0 : list byte := ascii_bytes [1; 2; 0; 0].

(** The heap [_build_tree] enters its loop with (after line 144). *)
Definition initial_heap (data : list byte) : list _Node :=
  match heappop 144 (map (fun '(s, f) => Leaf f s) (Counter data)) with
  | Ok (x, heap) => heappush heap x
  | Raise _ _ => []
  end.

(** C6. On [aaaaabbbbcccdde] the first pass of the loop extracts the
    nodes of frequency 1 and 3 while a node of frequency 2 waits in the
    heap; and an internal node does not sort before the leaf of symbol 0 of
    the same frequency, so that on [1, 2, 0, 0] the leaf of symbol 0 is
    extracted before the internal node. *)
Theorem build_tree_departs :
  (exists h1 h2,
     heappop 146 (initial_heap counts_54321) = Ok (Leaf 1 101, h1)
     /\ heappop 146 h1 = Ok (Leaf 3 99, h2)
     /\ In (Leaf 2 100) h2)
  /\ lt (Branch 2 (Leaf 1 1) (Leaf 1 2)) (Leaf 2 0) = false
  /\ _build_tree (Counter with_symbol_0)
     = Ok (Branch 4 (Leaf 2 0) (Branch 2 (Leaf 1 1) (Leaf 1 2))).
Proof.
  split; [|split; vm_compute; reflexivity].
  eexists. eexists. split; [vm_compute; reflexivity|].
  split; [vm_compute; reflexivity|]. vm_compute. auto.
Qed.

(** ** Packing bits into bytes and back *)

Module Pack.

Lemma range8_step (n : nat) :
  (0 < n)%nat -> range8 n = 0%nat :: map (Nat.add 8) (range8 (n - 8)).
Proof.
  intros H. unfold range8.
  assert (E : ((n + 7) / 8 = S ((n - 8 + 7) / 8))%nat).
  { destruct (Nat.lt_ge_cases n 8) as [L|G].
    - replace (n - 8)%nat with 0%nat by lia.
      change ((0 + 7) / 8)%nat with 0%nat.
      assert ((n + 7) / 8 < 2)%nat by (apply Nat.Div0.div_lt_upper_bound; lia).
      assert (1 <= (n + 7) / 8)%nat by (apply Nat.div_le_lower_bound; lia).
      lia.
    - replace (n + 7)%nat with ((n - 8 + 7) + 1 * 8)%nat by lia.
      rewrite Nat.div_add by lia. lia. }
  rewrite E. cbn [seq map]. f_equal.
  rewrite <- seq_shift, !map_map. apply map_ext. intros k. lia.
Qed.

Lemma mapM_map {A B C} (f : B -> result C) (g : A -> B) (l : list A) :
  mapM f (map g l) = mapM (fun x => f (g x)) l.
Proof.
  induction l as [|x l IH]; cbn [map mapM]; [reflexivity|].
  rewrite IH. reflexivity.
Qed.

Lemma mapM_ext {A B} (f g : A -> result B) (l : list A) :
  (forall x, f x = g x) -> mapM f l = mapM g l.
Proof.
  intros H. induction l as [|x l IH]; cbn [mapM]; [reflexivity|].
  rewrite H, IH. reflexivity.
Qed.

Lemma slice_shift {A} (l : list A) (i : nat) :
  slice l (8 + i) (8 + i + 8) = slice (skipn 8 l) i (i + 8).
Proof.
  unfold slice. rewrite skipn_skipn.
  replace (8 + i + 8 - (8 + i))%nat with 8%nat by lia.
  replace (i + 8 - i)%nat with 8%nat by lia.
  replace (8 + i)%nat with (i + 8)%nat by lia. reflexivity.
Qed.

(** The byte written for one chunk of at most eight bits. *)
Definition chunk_byte (chunk : list bool) : byte :=
  byte_wrap (int2 (ljust8 chunk)).

Lemma ljust8_length (c : list bool) :
  (length c <= 8)%nat -> length (ljust8 c) = 8%nat.
Proof. intros H. unfold ljust8. rewrite length_app, repeat_length. lia. Qed.

Lemma chunk_written (c : list bool) :
  (length c <= 8)%nat -> to_bytes 178 (int2 (ljust8 c)) 1 = Ok [chunk_byte c].
Proof.
  intros H. rewrite to_bytes_ok.
  - cbn [be_digits]. change (256 ^ Z.of_nat 0) with 1. rewrite Z.div_1_r.
    reflexivity.
  - pose proof (int2_range (ljust8 c)) as R. unfold len in R.
    rewrite (ljust8_length c H) in R. exact R.
Qed.

(** [_pack_bits], chunk by chunk. *)
Lemma pack_bits_step (bits : list bool) :
  bits <> [] ->
  _pack_bits bits
  = (rest <- _pack_bits (skipn 8 bits) ;;
     Ok (chunk_byte (firstn 8 bits) :: rest)).
Proof.
  intros NE. unfold _pack_bits.
  rewrite range8_step by (destruct bits; [congruence | simpl; lia]).
  cbn [mapM]. change (slice bits 0 (0 + 8)) with (firstn 8 bits).
  rewrite chunk_written by apply firstn_le_length. cbn [bind].
  rewrite mapM_map.
  rewrite (mapM_ext _ (fun i => to_bytes 178
                          (int2 (ljust8 (slice (skipn 8 bits) i (i + 8)))) 1))
    by (intros i; rewrite slice_shift; reflexivity).
  rewrite length_skipn.
  destruct (mapM _ (range8 (length bits - 8))); reflexivity.
Qed.

Lemma byte_bits (c : list bool) :
  length c = 8%nat ->
  map (fun i => Z.testbit (byte_val (byte_wrap (int2 c))) i)
      [7; 6; 5; 4; 3; 2; 1; 0] = c.
Proof.
  intros H.
  do 8 (destruct c as [|? c]; [discriminate|]).
  destruct c; [|discriminate].
  repeat match goal with b : bool |- _ => destruct b end; reflexivity.
Qed.

Lemma bits_of_chunk (c : list bool) :
  (length c <= 8)%nat -> bits_of_bytes [chunk_byte c] = ljust8 c.
Proof.
  intros H. unfold bits_of_bytes, chunk_byte. cbn [flat_map].
  rewrite app_nil_r. apply byte_bits, ljust8_length, H.
Qed.

(** Unpacking what [_pack_bits] wrote gives the bits back, followed by
    the padding. *)
Lemma pack_unpack (n : nat) (bits : list bool) (bytes : list byte) :
  (length bits <= 8 * n)%nat -> _pack_bits bits = Ok bytes ->
  firstn (length bits) (bits_of_bytes bytes) = bits
  /\ length bytes = ((length bits + 7) / 8)%nat.
Proof.
  revert bits bytes. induction n as [|n IH]; intros bits bytes L E.
  - destruct bits; [|simpl in L; lia]. injection E as <-. split; reflexivity.
  - destruct bits as [|b0 bits0].
    { injection E as <-. split; reflexivity. }
    remember (b0 :: bits0) as bits eqn:Eb.
    assert (NE : bits <> []) by (rewrite Eb; discriminate).
    rewrite (pack_bits_step bits NE) in E.
    destruct (_pack_bits (skipn 8 bits)) as [rest|] eqn:Er; [|discriminate].
    cbn [bind] in E.
    assert (Ebytes : bytes = chunk_byte (firstn 8 bits) :: rest) by congruence.
    subst bytes. clear E.
    destruct (IH (skipn 8 bits) rest) as [U Lr];
      [rewrite length_skipn; lia | exact Er |].
    rewrite length_skipn in U, Lr.
    change (bits_of_bytes (chunk_byte (firstn 8 bits) :: rest))
      with (bits_of_bytes [chunk_byte (firstn 8 bits)] ++ bits_of_bytes rest).
    rewrite bits_of_chunk by apply firstn_le_length.
    split.
    + destruct (Nat.le_gt_cases (length bits) 8) as [Le|Gt].
      * rewrite firstn_all2 with (n := 8%nat) by exact Le.
        unfold ljust8. rewrite <- app_assoc. apply firstn_app_here.
      * assert (L8 : length (firstn 8 bits) = 8%nat)
          by (rewrite length_firstn; lia).
        unfold ljust8. rewrite L8. cbn [Nat.sub repeat]. rewrite app_nil_r.
        rewrite firstn_app, L8.
        rewrite firstn_all2 with (l := firstn 8 bits) by lia.
        rewrite U. apply firstn_skipn.
    + cbn [length]. rewrite Lr.
      assert (0 < length bits)%nat by (rewrite Eb; simpl; lia).
      destruct (Nat.lt_ge_cases (length bits) 8) as [Lt|Ge].
      * replace (length bits - 8)%nat with 0%nat by lia.
        change ((0 + 7) / 8)%nat with 0%nat.
        assert ((length bits + 7) / 8 < 2)%nat
          by (apply Nat.Div0.div_lt_upper_bound; lia).
        assert (1 <= (length bits + 7) / 8)%nat
          by (apply Nat.div_le_lower_bound; lia).
        lia.
      * replace (length bits + 7)%nat
          with ((length bits - 8 + 7) + 1 * 8)%nat by lia.
        rewrite Nat.div_add by lia. lia.
Qed.

End Pack.

(** ** The round trip of the Huffman coder *)

Module HuffRoundTrip.
Import Pack.

Lemma slice_middle {A} (l pre x post : list A) (i j : nat) :
  l = pre ++ x ++ post -> i = length pre -> j = (i + length x)%nat ->
  slice l i j = x.
Proof.
  intros -> -> ->. unfold slice. rewrite skipn_app_here.
  replace (length pre + length x - length pre)%nat with (length x) by lia.
  apply firstn_app_here.
Qed.

Lemma pair_table_length (ps : list (Z * Z)) (tab : list (list byte)) :
  Forall2 pair_bytes ps tab -> length (concat tab) = (2 * length tab)%nat.
Proof.
  induction 1 as [|p bs ps tab H F IH]; [reflexivity|].
  destruct H as (b1 & b2 & -> & _). cbn [concat length app]. lia.
Qed.

Lemma to_nat_div8 (n : nat) :
  Z.to_nat ((Z.of_nat n + 7) / 8) = ((n + 7) / 8)%nat.
Proof.
  rewrite <- (Nat2Z.id ((n + 7) / 8)). f_equal.
  rewrite Nat2Z.inj_div, Nat2Z.inj_add. reflexivity.
Qed.

(** A whole Huffman record is parsed back field by field. *)
Lemma parse_record (n : Z) (cb : byte) (tab : list (list byte))
    (ps : list (Z * Z)) (cbits pbits : list bool)
    (h_code payload : list byte) :
  0 <= n < 2 ^ 32 -> byte_val cb = len tab -> Forall2 pair_bytes ps tab ->
  len cbits < 2 ^ 16 -> _pack_bits cbits = Ok h_code ->
  len pbits < 2 ^ 32 -> _pack_bits pbits = Ok payload ->
  parse_header (be_digits 4 n ++ [cb] ++ concat tab
                  ++ be_digits 2 (len cbits) ++ h_code
                  ++ be_digits 4 (len pbits) ++ payload)
  = Ok (mkHeader n ps cbits pbits).
Proof.
  intros Rn Ec F Rc Pc Rp Pp.
  destruct (pack_unpack (length cbits) cbits h_code) as [Uc Lc];
    [lia | exact Pc |].
  destruct (pack_unpack (length pbits) pbits payload) as [Up Lp];
    [lia | exact Pp |].
  pose proof (pair_table_length ps tab F) as Lt.
  set (blob := be_digits 4 n ++ _).
  assert (Ecb : Z.to_nat (byte_val cb) = length tab)
    by (rewrite Ec; apply Nat2Z.id).
  unfold parse_header. cbv zeta.
  change (0 + 4 + 1)%nat with 5%nat. change (0 + 4)%nat with 4%nat.
  unfold index.
  replace (nth_error blob 4) with (Some cb)
    by (symmetry; apply (nth_error_app_here (be_digits 4 n))).
  cbn [bind]. rewrite !Ecb.
  pose proof (parse_pairs_app tab ps (be_digits 4 n ++ [cb])
                (be_digits 2 (len cbits) ++ h_code
                 ++ be_digits 4 (len pbits) ++ payload) F) as PP.
  rewrite length_app, be_digits_length in PP. cbn [length Nat.add] in PP.
  replace ((be_digits 4 n ++ [cb]) ++ concat tab ++
           be_digits 2 (len cbits) ++ h_code ++
           be_digits 4 (len pbits) ++ payload) with blob in PP
    by (unfold blob; rewrite <- !app_assoc; reflexivity).
  rewrite PP. cbn [bind].
  assert (S1 : slice blob 0 4 = be_digits 4 n).
  { apply (slice_middle blob [] (be_digits 4 n)
             ([cb] ++ concat tab ++ be_digits 2 (len cbits) ++ h_code
              ++ be_digits 4 (len pbits) ++ payload));
      [reflexivity | reflexivity | rewrite be_digits_length; reflexivity]. }
  assert (S2 : slice blob (5 + 2 * length tab) (5 + 2 * length tab + 2)
               = be_digits 2 (len cbits)).
  { apply (slice_middle blob (be_digits 4 n ++ [cb] ++ concat tab)
             (be_digits 2 (len cbits))
             (h_code ++ be_digits 4 (len pbits) ++ payload)).
    - unfold blob. rewrite <- !app_assoc. reflexivity.
    - rewrite !length_app, be_digits_length, Lt. simpl. lia.
    - rewrite be_digits_length. reflexivity. }
  assert (Vc : from_bytes (be_digits 2 (len cbits)) = len cbits).
  { rewrite from_bytes_be_digits. apply Z.mod_small.
    change (256 ^ Z.of_nat 2) with (2 ^ 16). pose proof (len_nonneg cbits). lia. }
  assert (Vp : from_bytes (be_digits 4 (len pbits)) = len pbits).
  { rewrite from_bytes_be_digits. apply Z.mod_small.
    change (256 ^ Z.of_nat 4) with (2 ^ 32). pose proof (len_nonneg pbits). lia. }
  assert (Vn : from_bytes (be_digits 4 n) = n).
  { rewrite from_bytes_be_digits. apply Z.mod_small.
    change (256 ^ Z.of_nat 4) with (2 ^ 32). lia. }
  assert (Bc : Z.to_nat ((len cbits + 7) / 8) = length h_code)
    by (unfold len; rewrite to_nat_div8; congruence).
  assert (Bp : Z.to_nat ((len pbits + 7) / 8) = length payload)
    by (unfold len; rewrite to_nat_div8; congruence).
  assert (Nc : Z.to_nat (len cbits) = length cbits) by apply Nat2Z.id.
  assert (Np : Z.to_nat (len pbits) = length pbits) by apply Nat2Z.id.
  rewrite S1, !S2, Vn, !Vc, !Bc, Nc.
  assert (S3 : slice blob (5 + 2 * length tab + 2)
                     (5 + 2 * length tab + 2 + length h_code) = h_code).
  { apply (slice_middle blob (be_digits 4 n ++ [cb] ++ concat tab
                                ++ be_digits 2 (len cbits))
             h_code (be_digits 4 (len pbits) ++ payload)).
    - unfold blob. rewrite <- !app_assoc. reflexivity.
    - rewrite !length_app, !be_digits_length, Lt. simpl. lia.
    - reflexivity. }
  assert (S4 : slice blob (5 + 2 * length tab + 2 + length h_code)
                     (5 + 2 * length tab + 2 + length h_code + 4)
               = be_digits 4 (len pbits)).
  { apply (slice_middle blob (be_digits 4 n ++ [cb] ++ concat tab
                                ++ be_digits 2 (len cbits) ++ h_code)
             (be_digits 4 (len pbits)) payload).
    - unfold blob. rewrite <- !app_assoc. reflexivity.
    - rewrite !length_app, !be_digits_length, Lt. simpl. lia.
    - rewrite be_digits_length. reflexivity. }
  rewrite S3, !S4, !Vp, !Bp, Np.
  assert (S5 : slice blob (5 + 2 * length tab + 2 + length h_code + 4)
                     (5 + 2 * length tab + 2 + length h_code + 4
                      + length payload) = payload).
  { apply (slice_middle blob (be_digits 4 n ++ [cb] ++ concat tab
                                ++ be_digits 2 (len cbits) ++ h_code
                                ++ be_digits 4 (len pbits))
             payload []).
    - unfold blob. rewrite <- !app_assoc, app_nil_r. reflexivity.
    - rewrite !length_app, !be_digits_length, Lt. simpl. lia.
    - reflexivity. }
  rewrite S5, Uc, Up. reflexivity.
Qed.


Lemma bytes_of_vals (line : nat) (data : list byte) :
  bytes_of_ints line (map byte_val data) = Ok data.
Proof.
  unfold bytes_of_ints. induction data as [|b data IH]; [reflexivity|].
  cbn [map mapM]. unfold byte_of_int at 1. rewrite mk_byte_val. cbn [bind].
  rewrite IH. reflexivity.
Qed.

(** An input with a single distinct symbol repeats one byte. *)
Lemma single_symbol (data : list byte) :
  length (Counter data) = 1%nat ->
  exists b n, data = repeat b (S n).
Proof.
  intros H. destruct data as [|b data]; [discriminate|].
  exists b, (length data). cbn [repeat]. f_equal.
  destruct (Counter (b :: data)) as [|[k v] [|? ?]] eqn:E; try discriminate.
  assert (K : forall x, In x (b :: data) -> byte_val x = k).
  { intros x Hx. pose proof (Counter_keys _ _ Hx) as Hk. rewrite E in Hk.
    cbn in Hk. destruct Hk as [Hk|[]]. congruence. }
  assert (Kb : byte_val b = k) by (apply K; simpl; auto).
  assert (G : forall l, (forall x, In x l -> byte_val x = k) ->
                        l = repeat b (length l)).
  { induction l as [|x l IH]; intros Hl; [reflexivity|].
    cbn [length repeat]. f_equal.
    - apply byte_val_inj. rewrite Kb. apply Hl. simpl; auto.
    - apply IH. intros y Hy. apply Hl. simpl; auto. }
  apply G. intros x Hx. apply K. simpl; auto.
Qed.

(** X1. Whenever the Huffman encoder returns a blob, decoding it gives the
    input back, provided the decoder does not take the blob of an input
    with two distinct symbols or more for a RUN record (its first three
    bytes, the top of the length field, are not the tag). *)
Theorem huffman_round_trip (data blob : list byte) :
  Huffman.encode data = Ok blob ->
  ((2 <= length (Counter data))%nat -> Arithmetic.startswith_RUN blob = false) ->
  Huffman.decode blob = Ok data.
Proof.
  intros E NR.
  destruct (Nat.lt_ge_cases (length (Counter data)) 2) as [Lt|H2].
  - (* no symbol, or a single one *)
    destruct data as [|b0 data0]; [injection E as <-; reflexivity|].
    assert (H1 : length (Counter (b0 :: data0)) = 1%nat).
    { pose proof (Counter_keys (b0 :: data0) b0 (or_introl eq_refl)) as K.
      destruct (Counter (b0 :: data0)); [destruct K | simpl in *; lia]. }
    destruct (single_symbol _ H1) as (b & n & Ed). rewrite Ed in *.
    rewrite huffman_encode_run in E.
    destruct (to_bytes 59 (Z.of_nat (S n)) 4) as [c|] eqn:Ec; [|discriminate].
    cbn [bind] in E. injection E as <-.
    apply to_bytes_inv in Ec. destruct Ec as [R ->].
    transitivity (Arithmetic.decode_run 94 (run_record b (Z.of_nat (S n))));
      [reflexivity|].
    rewrite (decode_run_record b 94 (Z.of_nat (S n)))
      by (change (2 ^ 32) with (256 ^ Z.of_nat 4); lia).
    rewrite Nat2Z.id. reflexivity.
  - specialize (NR H2).
    destruct (code_tables_spec data H2) as (canon & lengths & Hc & TS).
    pose proof (Counter_nonempty data H2) as NE.
    pose proof E as E0.
    unfold Huffman.encode in E. destruct data as [|b0 data0]; [congruence|].
    set (data := b0 :: data0) in *.
    replace (length (Counter data) =? 1)%nat with false in E
      by (symmetry; apply Nat.eqb_neq; lia).
    rewrite Hc in E. cbn [bind] in E.
    destruct (to_bytes 71 (len data) 4) as [h_len|] eqn:E1; [|discriminate].
    cbn [bind] in E.
    destruct (bytes_of_ints 72 [len canon]) as [h_cnt|] eqn:E2; [|discriminate].
    cbn [bind] in E.
    destruct (mapM (fun s => bytes_of_ints 76 [s; at_key lengths s]) (keys canon))
      as [h_tab|] eqn:E3; [|discriminate].
    cbn [bind] in E.
    destruct (to_bytes 80 (len (concat (map snd canon))) 2) as [h_clen|] eqn:E4;
      [|discriminate].
    cbn [bind] in E.
    destruct (_pack_bits (concat (map snd canon))) as [h_code|] eqn:E5;
      [|discriminate].
    cbn [bind] in E.
    destruct (mapM (fun b => getitem Z.eqb 84 canon (byte_val b)) data)
      as [codes|] eqn:E6; [|discriminate].
    cbn [bind] in E.
    destruct (to_bytes 85 (len (concat codes)) 4) as [h_plen|] eqn:E7;
      [|discriminate].
    cbn [bind] in E.
    destruct (_pack_bits (concat codes)) as [payload|] eqn:E8; [|discriminate].
    cbn [bind] in E. injection E as <-.
    apply to_bytes_inv in E1. destruct E1 as [R1 ->].
    apply to_bytes_inv in E4. destruct E4 as [R4 ->].
    apply to_bytes_inv in E7. destruct E7 as [R7 ->].
    unfold bytes_of_ints in E2. cbn [mapM] in E2.
    destruct (byte_of_int 72 (len canon)) as [cb|] eqn:Ecb; [|discriminate].
    cbn [bind] in E2. injection E2 as <-. apply byte_of_int_val in Ecb.
    pose proof (pair_bytes_written _ _ _ _ E3) as F.
    assert (Lt : len h_tab = len canon).
    { unfold len. f_equal. apply Forall2_length in F.
      rewrite length_map in F. unfold keys in F. rewrite length_map in F.
      congruence. }
    unfold Huffman.decode.
    match goal with |- match ?b with _ => _ end = _ =>
      destruct b as [|x0 blob0] eqn:Eblob end.
    { apply (f_equal (@length byte)) in Eblob. rewrite length_app in Eblob.
      rewrite be_digits_length in Eblob. discriminate. }
    rewrite NR, <- Eblob. clear Eblob NR E0.
    rewrite (parse_record (len data) cb h_tab
               (map (fun s => (s, at_key lengths s)) (keys canon)) (concat (map snd canon))
               (concat codes) h_code payload);
      [ | change (2 ^ 32) with (256 ^ Z.of_nat 4); exact R1
        | congruence | exact F
        | change (2 ^ 16) with (256 ^ Z.of_nat 2); lia | exact E5
        | change (2 ^ 32) with (256 ^ Z.of_nat 4); lia | exact E8 ].
    cbn [bind pairs orig_len payload_bits].
    pose proof (dec_loop_codes canon _ (ts_nodup _ _ _ TS)
                  (ts_prefix_free _ _ _ TS) (ts_nonempty _ _ _ TS)
                  (ts_inverse _ _ _ TS) (map byte_val data) codes []) as D.
    change (len (@nil Z)) with 0 in D. cbn [rev app] in D.
    replace (0 + len (map byte_val data)) with (len data) in D
      by (unfold len; rewrite length_map; lia).
    rewrite D; [apply bytes_of_vals|].
    apply mapM_Forall2 in E6. clear -E6.
    induction E6 as [|b c data codes H F IH]; cbn [map]; constructor;
      [|exact IH].
    unfold getitem in H. destruct (get Z.eqb canon (byte_val b)) eqn:G;
      [|discriminate].
    injection H as <-. apply get_In, G.
Qed.

Lemma huffman_round_trip_witness :
  Huffman.decode sample_huffman_blob = Ok sample.
Proof.
  apply (huffman_round_trip sample sample_huffman_blob).
  - vm_compute. reflexivity.
  - intros _. vm_compute. reflexivity.
Defined.

End HuffRoundTrip.

(** ** Termination of the renormalisation loops *)

(** X2. From any state, the renormalisation loop of the arithmetic encoder
    and that of the decoder are left after at most [renorm_fuel] passes:
    neither [while True] can run for ever, and the unrolling of the model
    never runs out. *)
Theorem renormalisation_terminates (e : Arithmetic.enc_state)
    (d : Arithmetic.dec_state) :
  (exists e', Arithmetic.enc_renorm Arithmetic.renorm_fuel e = Some e')
  /\ (exists d', Arithmetic.dec_renorm Arithmetic.renorm_fuel d = Some d').
Proof.
  split; [apply Interval.enc_renorm_total | apply Interval.dec_renorm_total].
Qed.

(** ** The bit sink read back by the bit source *)

Module BitIO.
Import Arithmetic Sink Pack.

(** The bits of a sink, padded with zeros to a whole number of bytes
    (line 41). *)
Definition padded (bits : list Z) : list Z :=
  bits ++ repeat 0 (Z.to_nat ((- len bits) mod 8)).

(** The loop of lines 43-47 over a list of bits. *)
Definition pack_all (bits : list Z) : result (list byte) :=
  mapM (fun i => byte_of_int 47 (_BitOut.pack_byte (slice bits i (i + 8))))
       (range8 (length bits)).

Lemma finish_padded (bits : list Z) :
  _BitOut.finish bits = pack_all (padded bits).
Proof. reflexivity. Qed.

Lemma padded_length (bits : list Z) :
  exists n, length (padded bits) = (8 * n)%nat
            /\ n = ((length bits + 7) / 8)%nat.
Proof.
  unfold padded. rewrite length_app, repeat_length.
  exists ((length bits + 7) / 8)%nat. split; [|reflexivity].
  unfold len.
  pose proof (Nat.div_mod_eq (length bits + 7) 8) as D.
  pose proof (Nat.mod_upper_bound (length bits + 7) 8 ltac:(lia)) as B.
  set (q := ((length bits + 7) / 8)%nat) in *.
  set (r := ((length bits + 7) mod 8)%nat) in *.
  assert (E : (- Z.of_nat (length bits)) mod 8 = Z.of_nat (7 - r)).
  { symmetry. apply (Z.mod_unique_pos _ 8 (- Z.of_nat q)); lia. }
  rewrite E, Nat2Z.id. lia.
Qed.

Lemma pack_all_step (bits : list Z) :
  bits <> [] ->
  pack_all bits
  = (b <- byte_of_int 47 (_BitOut.pack_byte (firstn 8 bits)) ;;
     rest <- pack_all (skipn 8 bits) ;;
     Ok (b :: rest)).
Proof.
  intros NE. unfold pack_all.
  rewrite range8_step by (destruct bits; [congruence | simpl; lia]).
  cbn [mapM]. change (slice bits 0 (0 + 8)) with (firstn 8 bits).
  destruct (byte_of_int 47 (_BitOut.pack_byte (firstn 8 bits)));
    [|reflexivity].
  cbn [bind]. rewrite mapM_map.
  rewrite (mapM_ext _ (fun i => byte_of_int 47
                          (_BitOut.pack_byte (slice (skipn 8 bits) i (i + 8)))))
    by (intros i; rewrite slice_shift; reflexivity).
  rewrite length_skipn. reflexivity.
Qed.

(** The byte written for eight bits holds them, most significant first. *)
Lemma byte_of_chunk (c : list Z) (b : byte) :
  length c = 8%nat -> Forall is_bit c ->
  byte_of_int 47 (_BitOut.pack_byte c) = Ok b ->
  map (fun i => Z.land (Z.shiftr (byte_val b) i) 1) [7; 6; 5; 4; 3; 2; 1; 0]
  = c.
Proof.
  intros L F.
  do 8 (destruct c as [|? c]; [discriminate|]).
  destruct c; [|discriminate]. clear L.
  repeat match goal with
         | H : Forall _ (_ :: _) |- _ => inversion H; subst; clear H
         end.
  repeat match goal with
         | H : is_bit _ |- _ => destruct H; subst
         end;
    vm_compute; intros [= <-]; reflexivity.
Qed.

Lemma pack_all_bits (n : nat) (bits : list Z) (bs : list byte) :
  length bits = (8 * n)%nat -> Forall is_bit bits ->
  pack_all bits = Ok bs ->
  _BitIn.bits (_BitIn.init bs) = bits /\ length bs = n.
Proof.
  revert bits bs. induction n as [|n IH]; intros bits bs L F E.
  - destruct bits; [|simpl in L; lia]. injection E as <-. split; reflexivity.
  - assert (NE : bits <> []) by (destruct bits; [simpl in L; lia | discriminate]).
    rewrite (pack_all_step bits NE) in E.
    destruct (byte_of_int 47 (_BitOut.pack_byte (firstn 8 bits))) as [b|] eqn:Eb;
      [|discriminate].
    cbn [bind] in E.
    destruct (pack_all (skipn 8 bits)) as [rest|] eqn:Er; [|discriminate].
    cbn [bind] in E. injection E as <-.
    destruct (IH (skipn 8 bits) rest) as [U Lr];
      [rewrite length_skipn; lia | apply Forall_forall; intros x Hx;
        rewrite Forall_forall in F; apply F; eapply In_skipn; exact Hx
      | exact Er |].
    split; [|cbn [length]; lia].
    cbn [_BitIn.init _BitIn.bits flat_map] in *.
    rewrite U.
    rewrite (byte_of_chunk (firstn 8 bits) b);
      [apply firstn_skipn | rewrite length_firstn; lia | | exact Eb].
    apply Forall_forall. intros x Hx. rewrite Forall_forall in F.
    apply F. eapply In_firstn. exact Hx.
Qed.

Lemma padded_bits (bits : list Z) : Forall is_bit bits -> Forall is_bit (padded bits).
Proof.
  intros F. apply Forall_app. split; [exact F|]. apply Forall_forall.
  intros x Hx. apply repeat_spec in Hx. left. exact Hx.
Qed.

(** What the source holds when it is built over the bytes of a sink. *)
Lemma finish_init (bits : list Z) (bs : list byte) :
  Forall is_bit bits -> _BitOut.finish bits = Ok bs ->
  _BitIn.bits (_BitIn.init bs) = padded bits
  /\ length bs = ((length bits + 7) / 8)%nat.
Proof.
  intros F E. rewrite finish_padded in E.
  destruct (padded_length bits) as (n & L & ->).
  exact (pack_all_bits _ _ _ L (padded_bits _ F) E).
Qed.

End BitIO.

(** ** The code value the arithmetic decoder follows *)

Module CodeValue.
Import Arithmetic Interval Tables EncRun Sink BitIO.

(** The number written by the first [n] bits of [l], most significant
    first; a list that is too short is continued with zeros. *)
Fixpoint window (n : nat) (l : list Z) : Z :=
  match n with
  | O => 0
  | S k => 2 ^ Z.of_nat k * hd 0 l + window k (tl l)
  end.

Lemma nth_tl (k : nat) (l : list Z) : nth k (tl l) 0 = nth (S k) l 0.
Proof. destruct l; [destruct k|]; reflexivity. Qed.

Lemma window_last (k : nat) (l : list Z) :
  window (S k) l = 2 * window k l + nth k l 0.
Proof.
  revert l. induction k as [|k IH]; intros l.
  - cbn [window]. change (2 ^ Z.of_nat 0) with 1.
    destruct l; cbn [hd nth]; lia.
  - change (window (S (S k)) l)
      with (2 ^ Z.of_nat (S k) * hd 0 l + window (S k) (tl l)).
    rewrite IH. cbn [window]. rewrite nth_tl.
    rewrite Nat2Z.inj_succ, Z.pow_succ_r by lia. lia.
Qed.

Lemma window_range (n : nat) (l : list Z) :
  Forall is_bit l -> 0 <= window n l < 2 ^ Z.of_nat n.
Proof.
  revert l. induction n as [|n IH]; intros l F; [cbn; lia|].
  cbn [window]. rewrite Nat2Z.inj_succ, Z.pow_succ_r by lia.
  assert (Fl : Forall is_bit (tl l)) by (destruct F; [constructor | assumption]).
  assert (H : is_bit (hd 0 l)) by (destruct F; [left; reflexivity | assumption]).
  specialize (IH _ Fl). destruct H as [-> | ->]; lia.
Qed.

Lemma window_skipn (k i : nat) (l : list Z) :
  window (S k) (skipn i l)
  = 2 ^ Z.of_nat k * nth i l 0 + window k (skipn (S i) l).
Proof.
  cbn [window]. f_equal.
  - f_equal. revert l. induction i as [|i IH]; intros [|x l]; cbn;
      try reflexivity. apply IH.
  - f_equal. revert l. induction i as [|i IH]; intros [|x l]; cbn [skipn tl];
      try reflexivity. rewrite IH. reflexivity.
Qed.

Lemma nth_skipn (i j : nat) (l : list Z) :
  nth j (skipn i l) 0 = nth (i + j) l 0.
Proof.
  revert l. induction i as [|i IH]; intros [|x l]; cbn [skipn Nat.add nth];
    try reflexivity; [destruct j; reflexivity | apply IH].
Qed.

(** The 32-bit value the decoder holds when the encoder has written [e]
    bits and holds back [p] more: the bit the encoder writes next, then
    the 31 bits that follow the [p] bits held back. *)
Definition code_at (B : list Z) (e p : nat) : Z :=
  nth e B 0 * 2 ^ 31 + window 31 (skipn (e + p + 1) B).

(** *** The rest of a run of the encoder *)

(** [enc_ends c B]: the run that goes through [c] ends with the bits [B]
    in the sink. *)
Inductive enc_ends (freq cum : list (Z * Z)) (total : Z)
  : enc_config -> list Z -> Prop :=
| enc_ends_final st :
    enc_ends freq cum total (AtSymbol, [], st) (bout (enc_final st))
| enc_ends_step c c' B :
    enc_step freq cum total c c' -> enc_ends freq cum total c' B ->
    enc_ends freq cum total c B.

Lemma enc_step_det (freq cum : list (Z * Z)) (total : Z)
    (c c1 c2 : enc_config) :
  enc_step freq cum total c c1 -> enc_step freq cum total c c2 -> c1 = c2.
Proof.
  intros S1 S2. destruct S1; inversion S2; subst; congruence.
Qed.

Lemma enc_ends_next (freq cum : list (Z * Z)) (total : Z)
    (c c' : enc_config) (B : list Z) :
  enc_ends freq cum total c B -> enc_step freq cum total c c' ->
  enc_ends freq cum total c' B.
Proof.
  intros E S. destruct E as [st | c c1 B S1 E1].
  - inversion S.
  - rewrite (enc_step_det _ _ _ _ _ _ S S1). exact E1.
Qed.

Lemma enc_renorm_ends (freq cum : list (Z * Z)) (total : Z) (fuel : nat)
    (rest : list byte) (st st' : enc_state) (B : list Z) :
  enc_renorm fuel st = Some st' ->
  enc_ends freq cum total (AtSymbol, rest, st') B ->
  enc_ends freq cum total (InRenorm, rest, st) B.
Proof.
  revert st. induction fuel as [|fuel IH]; intros st E H; [discriminate|].
  cbn [enc_renorm] in E. destruct (enc_renorm_body st) as [st1|] eqn:Eb.
  - eapply enc_ends_step; [apply enc_step_pass; exact Eb|]. apply IH; assumption.
  - injection E as <-. eapply enc_ends_step; [apply enc_step_exit; exact Eb|].
    exact H.
Qed.

Lemma enc_loop_ends (freq cum : list (Z * Z)) (total : Z)
    (rest : list byte) (st st' : enc_state) :
  enc_loop freq cum total st rest = Ok st' ->
  enc_ends freq cum total (AtSymbol, rest, st) (bout (enc_final st')).
Proof.
  revert st. induction rest as [|b rest IH]; intros st E.
  - injection E as <-. constructor.
  - cbn [enc_loop] in E. unfold enc_symbol in E.
    destruct (enc_narrow freq cum total (byte_val b) st) as [st1|] eqn:N;
      [|discriminate].
    cbn [bind] in E.
    destruct (enc_renorm renorm_fuel st1) as [st2|] eqn:R; [|discriminate].
    cbn [bind] in E.
    eapply enc_ends_step; [apply enc_step_narrow; exact N|].
    eapply enc_renorm_ends; [exact R|]. apply IH, E.
Qed.

(** *** What [emit] appends *)

Lemma emit_spec (bit : Z) (st : enc_state) :
  0 <= pending st -> is_bit bit ->
  emit bit st
  = mkEnc (low st) (high st) 0
          (bout st ++ bit :: repeat (1 - bit) (Z.to_nat (pending st))).
Proof.
  intros P Hb. unfold emit, _BitOut.put, _BitOut.extend.
  assert (E1 : Z.land bit 1 = bit) by (destruct Hb as [-> | ->]; reflexivity).
  assert (E2 : Z.land (Z.lxor bit 1) 1 = 1 - bit)
    by (destruct Hb as [-> | ->]; reflexivity).
  rewrite E1, E2.
  destruct (Z.eqb_spec (pending st) 0) as [E|E].
  - rewrite E. reflexivity.
  - rewrite <- app_assoc. reflexivity.
Qed.

Lemma window_nil (n : nat) : window n [] = 0.
Proof. induction n as [|n IH]; cbn [window hd tl]; [reflexivity|]. lia. Qed.

(** *** One pass of the encoder's renormalisation loop, in arithmetic *)

Lemma enc_pass_cases (st st' : enc_state) :
  proper (low st) (high st) -> 0 <= pending st ->
  enc_renorm_body st = Some st' ->
  let p := Z.to_nat (pending st) in
  (high st < 2 ^ 31
   /\ st' = mkEnc (2 * low st) (2 * high st + 1) 0
                  (bout st ++ 0 :: repeat 1 p))
  \/ (2 ^ 31 <= low st
      /\ st' = mkEnc (2 * (low st - 2 ^ 31)) (2 * (high st - 2 ^ 31) + 1) 0
                     (bout st ++ 1 :: repeat 0 p))
  \/ (2 ^ 30 <= low st /\ high st < 3 * 2 ^ 30
      /\ low st < 2 ^ 31 <= high st
      /\ st' = mkEnc (2 * (low st - 2 ^ 30)) (2 * (high st - 2 ^ 30) + 1)
                     (pending st + 1) (bout st)).
Proof.
  intros [P1 P2] Pn E p. unfold enc_renorm_body in E.
  change _HALF with (2 ^ 31) in E. change _QTR with (2 ^ 30) in E.
  destruct (Z.ltb_spec (high st) (2 ^ 31)) as [H1|H1].
  { left. split; [exact H1|]. injection E as <-.
    rewrite (emit_spec 0 st Pn) by (left; reflexivity).
    unfold enc_shift. cbn [low high pending bout].
    rewrite shl0, shl1, !Z.mod_small by lia. reflexivity. }
  destruct (Z.geb_spec (low st) (2 ^ 31)) as [H2|H2].
  { right. left. split; [lia|]. injection E as <-.
    rewrite emit_spec by (cbn [pending]; auto; right; reflexivity).
    unfold enc_shift. cbn [low high pending bout].
    rewrite shl0, shl1, !Z.mod_small by lia. reflexivity. }
  destruct (Z.geb_spec (low st) (2 ^ 30)) as [H3|H3]; [|discriminate].
  destruct (Z.ltb_spec (high st) (3 * 2 ^ 30)) as [H4|H4]; [|discriminate].
  right. right. cbn [andb] in E. injection E as <-.
  split; [lia|]. split; [lia|]. split; [lia|].
  unfold enc_shift. cbn [low high pending bout].
  rewrite shl0, shl1, !Z.mod_small by lia. reflexivity.
Qed.

Lemma enc_exit_cases (st : enc_state) :
  enc_renorm_body st = None ->
  2 ^ 31 <= high st /\ low st < 2 ^ 31
  /\ (low st < 2 ^ 30 \/ 3 * 2 ^ 30 <= high st).
Proof.
  unfold enc_renorm_body.
  change _HALF with (2 ^ 31). change _QTR with (2 ^ 30).
  destruct (Z.ltb_spec (high st) (2 ^ 31)); [discriminate|].
  destruct (Z.geb_spec (low st) (2 ^ 31)); [discriminate|].
  destruct (Z.geb_spec (low st) (2 ^ 30));
    destruct (Z.ltb_spec (high st) (3 * 2 ^ 30)); try discriminate;
    intros _; lia.
Qed.

Section Future.
Variable data : list byte.
Let freq := Counter data.
Let symbols := fst (fst (enc_tables freq)).
Let total := snd (fst (enc_tables freq)).
Let cum := snd (enc_tables freq).
Hypothesis short : len data <= 2 ^ 30.

(** More of what a run of the encoder keeps: the count of bits held back
    is not negative, and between two symbols the exit condition of the
    renormalisation loop holds. *)
Definition enc_inv2 (c : enc_config) : Prop :=
  let '(ph, rest, st) := c in
  0 <= pending st /\ (ph = AtSymbol -> enc_renorm_body st = None).

Lemma enc_inv2_reach (c : enc_config) :
  enc_reach freq cum total data c -> enc_inv2 c.
Proof.
  induction 1 as [|c c' R IH S].
  - split; [cbn; lia | reflexivity].
  - pose proof (enc_inv_reach data short _ R) as I.
    destruct S as [b rest st st1 N | rest st st' B | rest st B].
    + destruct IH as [P _]. destruct (enc_narrow_bout _ _ _ _ _ _ N) as [_ Ep].
      split; [rewrite Ep; exact P | discriminate].
    + destruct IH as [P _]. destruct I as (_ & Pr & _).
      split; [|discriminate].
      destruct (enc_pass_cases st st' Pr P B) as [[_ ->]|[[_ ->]|(_ & _ & _ & ->)]];
        cbn [pending]; lia.
    + destruct IH as [P _]. split; [exact P | intros _; exact B].
Qed.

Lemma narrow_within (b : byte) (rest : list byte) (st st1 : enc_state) :
  enc_reach freq cum total data (AtSymbol, b :: rest, st) ->
  enc_narrow freq cum total (byte_val b) st = Ok st1 ->
  low st <= low st1 /\ high st1 <= high st.
Proof.
  intros R N. destruct (tables_partition data) as (T & P & K).
  destruct (enc_inv_reach data short _ R) as (Hin & Pr & W).
  assert (Hb : In (byte_val b) symbols) by (apply K, Hin; simpl; auto).
  destruct (P _ Hb) as (c & f & G & F & C0 & F1 & CF).
  injection F as <-.
  assert (Tn : snd (fst (enc_tables (Counter data))) <> 0) by lia.
  rewrite (enc_narrow_value _ _ _ _ c _ G Tn) in N.
  injection N as <-. cbn [low high].
  destruct (narrow_proper (low st) (high st) total c
              (count freq (byte_val b))) as (_ & A & B); auto.
  specialize (W eq_refl). unfold total, freq. rewrite T. lia.
Qed.

(** Whatever the encoder has written, the bits it goes on to write are
    the next bit, the bits held back as its complement, and a tail; and
    the 32-bit value made of the next bit and the tail lies in the
    current interval. *)
Lemma future_code (c : enc_config) (B : list Z) :
  enc_ends freq cum total c B -> enc_reach freq cum total data c ->
  let '(ph, rest, st) := c in
  exists t T2,
    is_bit t /\ Forall is_bit T2
    /\ B = bout st ++ t :: repeat (1 - t) (Z.to_nat (pending st)) ++ T2
    /\ low st <= t * 2 ^ 31 + window 31 T2 <= high st.
Proof.
  induction 1 as [st | c c' B S E IH]; intros R.
  - destruct (enc_inv2_reach _ R) as [P X]. specialize (X eq_refl).
    destruct (enc_exit_cases _ X) as (H1 & H2 & H3).
    unfold enc_final. change _QTR with (2 ^ 30). cbn [low high pending bout].
    set (bit := if low st <? 2 ^ 30 then 0 else 1).
    assert (Hb : is_bit bit)
      by (unfold bit; destruct (low st <? 2 ^ 30); [left | right]; reflexivity).
    rewrite emit_spec by (cbn [pending]; auto; lia).
    cbn [low high pending bout].
    exists bit, [1 - bit].
    split; [exact Hb|].
    split; [constructor; [destruct Hb as [-> | ->]; [right | left]; reflexivity
                         | constructor]|].
    split.
    + f_equal. f_equal.
      replace (Z.to_nat (pending st + 1)) with (S (Z.to_nat (pending st))) by lia.
      cbn [repeat]. apply repeat_cons.
    + change (window 31 [1 - bit]) with (2 ^ 30 * (1 - bit) + window 30 []).
      rewrite window_nil. unfold bit.
      destruct (Z.ltb_spec (low st) (2 ^ 30)); lia.
  - pose proof (enc_reach_step _ _ _ _ _ _ R S) as R'.
    specialize (IH R').
    pose proof (enc_inv_reach data short _ R) as I.
    pose proof (enc_inv2_reach _ R) as I2.
    destruct S as [b rest st st1 N | rest st st' Bd | rest st Bd].
    + destruct IH as (t & T2 & Ht & FT & EB & V).
      destruct (enc_narrow_bout _ _ _ _ _ _ N) as [Eb Ep].
      destruct (narrow_within _ _ _ _ R N) as [L H].
      exists t, T2. rewrite <- Eb, <- Ep.
      split; [exact Ht|]. split; [exact FT|]. split; [exact EB|]. lia.
    + destruct I as (_ & Pr & _). destruct I2 as [Pn _].
      destruct IH as (t & T2 & Ht & FT & EB & V).
      destruct (enc_pass_cases st st' Pr Pn Bd)
        as [[C ->]|[[C ->]|(C1 & C2 & C3 & ->)]];
        cbn [low high pending bout] in *.
      * change (Z.to_nat 0) with 0%nat in EB. cbn [repeat app] in EB.
        exists 0, (t :: T2). split; [left; reflexivity|].
        split; [constructor; assumption|].
        split; [rewrite EB, <- app_assoc; reflexivity|].
        change (window 31 (t :: T2)) with (2 ^ 30 * t + window 30 T2).
        change (window 31 T2) with (window (S 30) T2) in V.
        rewrite window_last in V.
        assert (is_bit (nth 30 T2 0)).
        { destruct (nth_in_or_default 30 T2 0) as [Hi| ->];
            [rewrite Forall_forall in FT; apply FT, Hi | left; reflexivity]. }
        destruct H as [H|H]; rewrite H in V; lia.
      * change (Z.to_nat 0) with 0%nat in EB. cbn [repeat app] in EB.
        exists 1, (t :: T2). split; [right; reflexivity|].
        split; [constructor; assumption|].
        split; [rewrite EB, <- app_assoc; reflexivity|].
        change (window 31 (t :: T2)) with (2 ^ 30 * t + window 30 T2).
        change (window 31 T2) with (window (S 30) T2) in V.
        rewrite window_last in V.
        assert (is_bit (nth 30 T2 0)).
        { destruct (nth_in_or_default 30 T2 0) as [Hi| ->];
            [rewrite Forall_forall in FT; apply FT, Hi | left; reflexivity]. }
        destruct H as [H|H]; rewrite H in V; lia.
      * exists t, ((1 - t) :: T2). split; [exact Ht|].
        split; [constructor; [destruct Ht as [-> | ->]; [right | left]; reflexivity
                             | exact FT]|].
        split.
        { rewrite EB. f_equal. f_equal.
          replace (Z.to_nat (pending st + 1)) with (S (Z.to_nat (pending st)))
            by lia.
          cbn [repeat]. rewrite repeat_cons, <- app_assoc. reflexivity. }
        change (window 31 ((1 - t) :: T2))
          with (2 ^ 30 * (1 - t) + window 30 T2).
        change (window 31 T2) with (window (S 30) T2) in V.
        rewrite window_last in V.
        assert (is_bit (nth 30 T2 0)).
        { destruct (nth_in_or_default 30 T2 0) as [Hi| ->];
            [rewrite Forall_forall in FT; apply FT, Hi | left; reflexivity]. }
        destruct H as [H|H]; rewrite H in V; destruct Ht as [-> | ->]; lia.
    + exact IH.
Qed.

End Future.

End CodeValue.

(** ** The arithmetic decoder follows the encoder *)

Module Follow.
Import Arithmetic Interval Tables EncRun Sink DecRun BitIO CodeValue.

(** *** The symbol the decoder's scan stops at *)

(** The running sum of the weights before [s] in [l], from [a]. *)
Fixpoint offset (w : Z -> Z) (a : Z) (l : list Z) (s : Z) : Z :=
  match l with
  | [] => a
  | x :: t => if s =? x then a else offset w (a + w x) t s
  end.

Lemma offset_ge (w : Z -> Z) (a : Z) (l : list Z) (s : Z) :
  (forall x, In x l -> 0 <= w x) -> a <= offset w a l s.
Proof.
  revert a. induction l as [|x l IH]; intros a W; cbn [offset]; [lia|].
  destruct (s =? x); [lia|].
  assert (0 <= w x) by (apply W; simpl; auto).
  specialize (IH (a + w x) (fun y Hy => W y (or_intror Hy))). lia.
Qed.

Lemma combine_psums_offset (w : Z -> Z) (l : list Z) (a s : Z) :
  In s l -> get Z.eqb (combine l (psums w a l)) s = Some (offset w a l s).
Proof.
  revert a. induction l as [|x l IH]; intros a H; [destruct H|].
  cbn [psums combine get offset].
  destruct (Z.eqb_spec s x) as [->|Hne]; [reflexivity|].
  destruct H as [E|H]; [congruence|]. apply IH, H.
Qed.

Lemma dec_scan_finds (freq cum : list (Z * Z)) (w : Z -> Z) (scaled b : Z)
    (l : list Z) (a : Z) (cur : option Z) :
  NoDup l ->
  (forall s, In s l ->
     get Z.eqb cum s = Some (offset w a l s)
     /\ get Z.eqb freq s = Some (w s) /\ 0 <= w s) ->
  In b l ->
  offset w a l b <= scaled < offset w a l b + w b ->
  dec_scan freq cum scaled l cur = Ok (Some b).
Proof.
  revert a cur. induction l as [|x l IH]; intros a cur ND T Hb S;
    [destruct Hb|].
  inversion ND as [|? ? Hx ND']; subst.
  cbn [dec_scan]. unfold getitem.
  destruct (T x (or_introl eq_refl)) as (Gc & Gf & Wx).
  cbn [offset] in Gc. rewrite Z.eqb_refl in Gc. rewrite Gc, Gf. cbn [bind].
  cbn [offset] in S.
  destruct (Z.eqb_spec b x) as [->|Hne].
  - replace ((scaled <? a + w x) && (a <=? scaled)) with true; [reflexivity|].
    symmetry. apply andb_true_iff. split; [apply Z.ltb_lt | apply Z.leb_le]; lia.
  - destruct Hb as [E|Hb]; [congruence|].
    assert (W : forall y, In y l -> 0 <= w y)
      by (intros y Hy; apply (T y (or_intror Hy))).
    pose proof (offset_ge w (a + w x) l b W) as G.
    replace ((scaled <? a + w x) && (a <=? scaled)) with false
      by (symmetry; apply andb_false_iff; left; apply Z.ltb_ge; lia).
    apply (IH (a + w x)); auto.
    intros s Hs. destruct (T s (or_intror Hs)) as (G1 & G2 & G3).
    cbn [offset] in G1.
    destruct (Z.eqb_spec s x) as [->|_]; [contradiction|]. auto.
Qed.

(** *** Reading the encoder's bits *)

Lemma nth_padded (B : list Z) (k : nat) : nth k (padded B) 0 = nth k B 0.
Proof.
  unfold padded. destruct (Nat.lt_ge_cases k (length B)) as [L|G].
  - apply app_nth1, L.
  - rewrite app_nth2 by exact G. rewrite nth_repeat.
    symmetry. apply nth_overflow, G.
Qed.

Lemma get_next (B : list Z) (s : _BitIn.t) (k : nat) :
  _BitIn.bits s = padded B ->
  _BitIn.idx s = Nat.min k (length (padded B)) ->
  fst (_BitIn.get s) = nth k B 0
  /\ _BitIn.bits (snd (_BitIn.get s)) = padded B
  /\ _BitIn.idx (snd (_BitIn.get s)) = Nat.min (S k) (length (padded B)).
Proof.
  intros Eb Ei. unfold _BitIn.get. rewrite Eb, Ei.
  destruct (Nat.leb_spec (length (padded B)) (Nat.min k (length (padded B))))
    as [L|L]; cbn [fst snd _BitIn.bits _BitIn.idx].
  - split; [|split; [exact Eb | lia]].
    rewrite <- nth_padded. symmetry. apply nth_overflow. lia.
  - split; [|split; [reflexivity | lia]].
    replace (Nat.min k (length (padded B))) with k by lia. apply nth_padded.
Qed.

Lemma nth_bit (B : list Z) (k : nat) : Forall is_bit B -> is_bit (nth k B 0).
Proof.
  intros F. destruct (nth_in_or_default k B 0) as [Hi| ->];
    [rewrite Forall_forall in F; apply F, Hi | left; reflexivity].
Qed.

(** What a decomposition of the encoder's bits says of single bits. *)
Lemma bits_at (B E T2 : list Z) (t : Z) (p : nat) :
  B = E ++ t :: repeat (1 - t) p ++ T2 ->
  nth (length E) B 0 = t
  /\ (forall j, (j < p)%nat -> nth (length E + 1 + j) B 0 = 1 - t)
  /\ skipn (length E + p + 1) B = T2.
Proof.
  intros ->. split; [|split].
  - rewrite app_nth2, Nat.sub_diag by lia. reflexivity.
  - intros j Hj. rewrite app_nth2 by lia.
    replace (length E + 1 + j - length E)%nat with (S j) by lia.
    cbn [nth]. rewrite app_nth1 by (rewrite repeat_length; exact Hj).
    apply nth_repeat_lt. exact Hj.
  - replace (length E + p + 1)%nat with (length E + S p)%nat by lia.
    rewrite skipn_app, skipn_all2 by lia. cbn [app].
    replace (length E + S p - length E)%nat with (S p) by lia.
    cbn [skipn]. rewrite skipn_app, skipn_all2 by (rewrite repeat_length; lia).
    rewrite repeat_length, Nat.sub_diag. reflexivity.
Qed.

(** *** The decoder's state beside the encoder's *)

Section Decoder.
Variable data : list byte.
Let freq := Counter data.
Let symbols := fst (fst (enc_tables freq)).
Let total := snd (fst (enc_tables freq)).
Let cum := snd (enc_tables freq).
Hypothesis short : len data <= 2 ^ 30.

(** The bits the encoder ends with. *)
Variable B : list Z.
Hypothesis B_bits : Forall is_bit B.

(** The decoder has read the encoder's tables. *)
Variable h : header.
Hypothesis h_syms : h_symbols h = symbols.
Hypothesis h_tot : h_total h = total.
Hypothesis h_freqs :
  forall s, In s symbols -> get Z.eqb (h_freq h) s = Some (count freq s).
Hypothesis symbols_nodup : NoDup symbols.
Hypothesis cum_offsets :
  forall s, In s symbols ->
    get Z.eqb cum s = Some (offset (count freq) 0 symbols s).

(** The decoder is where the encoder was: same interval, the code value
    read off the bits the encoder writes from there on, and the cursor 32
    bits past what the encoder has written or holds back. *)
Definition follows (st : enc_state) (sd : dec_state) : Prop :=
  let e := length (bout st) in
  let p := Z.to_nat (pending st) in
  d_low sd = low st /\ d_high sd = high st
  /\ d_code sd = code_at B e p
  /\ _BitIn.bits (d_in sd) = padded B
  /\ _BitIn.idx (d_in sd) = Nat.min (e + p + 32) (length (padded B)).

Lemma dec_exit_follows (st : enc_state) (sd : dec_state) :
  follows st sd -> enc_renorm_body st = None -> dec_renorm_body sd = None.
Proof.
  intros (El & Eh & _) X. unfold dec_renorm_body. rewrite El, Eh.
  unfold enc_renorm_body in X.
  destruct (high st <? _HALF); [discriminate|].
  destruct (low st >=? _HALF); [discriminate|].
  destruct ((low st >=? _QTR) && (high st <? 3 * _QTR)); [discriminate|].
  reflexivity.
Qed.

Lemma dec_shift_follows (di : _BitIn.t) (k : nat) (l hh c : Z) :
  _BitIn.bits di = padded B ->
  _BitIn.idx di = Nat.min k (length (padded B)) ->
  0 <= l <= hh -> hh < 2 ^ 31 -> 0 <= c < 2 ^ 31 ->
  let sd' := dec_shift (mkDec l hh c di) in
  d_low sd' = 2 * l /\ d_high sd' = 2 * hh + 1
  /\ d_code sd' = 2 * c + nth k B 0
  /\ _BitIn.bits (d_in sd') = padded B
  /\ _BitIn.idx (d_in sd') = Nat.min (S k) (length (padded B)).
Proof.
  intros Eb Ei Hl Hh Hc. cbv zeta. unfold dec_shift. cbn [d_low d_high d_code d_in].
  destruct (get_next B di k Eb Ei) as (G1 & G2 & G3).
  destruct (_BitIn.get di) as [b bitin]. cbn [fst snd] in *.
  cbn [d_low d_high d_code d_in]. subst b.
  pose proof (nth_bit B k B_bits) as Hb.
  rewrite shl0, shl1.
  change (_TOP - 1) with (Z.ones 32). rewrite Z.land_ones by lia.
  rewrite (lor_bit _ _ Hb).
  assert (0 <= nth k B 0 <= 1) by (destruct Hb; lia).
  rewrite !Z.mod_small by lia.
  repeat split; assumption.
Qed.

Lemma skipn_bits (k : nat) : Forall is_bit (skipn k B).
Proof.
  apply Forall_forall. intros x Hx. rewrite Forall_forall in B_bits.
  apply B_bits. eapply In_skipn. exact Hx.
Qed.

Lemma dec_pass_follows (rest : list byte) (st st' : enc_state)
    (sd : dec_state) :
  enc_reach freq cum total data (InRenorm, rest, st) ->
  enc_ends freq cum total (InRenorm, rest, st) B ->
  enc_renorm_body st = Some st' -> follows st sd ->
  exists sd', dec_renorm_body sd = Some sd' /\ follows st' sd'.
Proof.
  intros R E Bd F. destruct sd as [dl dh dc di].
  destruct F as (El & Eh & Ec & Eb & Ei).
  cbn [d_low d_high d_code d_in] in *. subst dl dh.
  destruct (enc_inv_reach data short _ R) as (_ & Pr & _).
  destruct (enc_inv2_reach data short _ R) as [Pn _].
  pose proof (enc_step_pass freq cum total rest st st' Bd) as St.
  pose proof (enc_reach_step _ _ _ _ _ _ R St) as R'.
  pose proof (enc_ends_next _ _ _ _ _ _ E St) as E'.
  pose proof (future_code data short _ _ E' R') as (t & T2 & Ht & FT & EB & _).
  destruct (bits_at _ _ _ _ _ EB) as (N0 & N1 & _).
  destruct Pr as [P1 P2].
  unfold dec_renorm_body. cbn [d_low d_high d_code d_in].
  change _HALF with (2 ^ 31). change _QTR with (2 ^ 30).
  set (e := length (bout st)) in *. set (p := Z.to_nat (pending st)) in *.
  destruct (enc_pass_cases st st' (conj P1 P2) Pn Bd)
    as [[C ->]|[[C ->]|(C1 & C2 & C3 & ->)]];
    cbn [low high pending bout] in *; fold p in EB, N0, N1 |- *.
  - (* a 0 is written *)
    replace (high st <? 2 ^ 31) with true by (symmetry; apply Z.ltb_lt; lia).
    eexists. split; [reflexivity|].
    assert (T0 : nth e B 0 = 0).
    { rewrite EB, <- !app_assoc. unfold e.
      rewrite app_nth2, Nat.sub_diag by lia. reflexivity. }
    assert (Le : length (bout st ++ 0 :: repeat 1 p) = (e + p + 1)%nat)
      by (rewrite length_app; cbn [length]; rewrite repeat_length; unfold e; lia).
    assert (Cv : dc = window 31 (skipn (e + p + 1) B))
      by (rewrite Ec; unfold code_at; rewrite T0; lia).
    pose proof (window_range 31 _ (skipn_bits (e + p + 1))) as Wr.
    change (2 ^ Z.of_nat 31) with (2 ^ 31) in Wr.
    destruct (dec_shift_follows di (e + p + 32) (low st) (high st) dc Eb Ei)
      as (A1 & A2 & A3 & A4 & A5); try lia.
    unfold follows. cbn [low high pending bout]. rewrite Le.
    change (Z.to_nat 0) with 0%nat.
    split; [exact A1|]. split; [exact A2|].
    split; [|split; [exact A4 | rewrite A5; f_equal; lia]].
    rewrite A3, Cv. unfold code_at.
    replace (e + p + 1 + 0 + 1)%nat with (S (e + p + 1)) by lia.
    pose proof (window_skipn 31 (e + p + 1) B) as W1.
    pose proof (window_last 31 (skipn (e + p + 1) B)) as W2.
    rewrite nth_skipn in W2.
    replace (e + p + 1 + 31)%nat with (e + p + 32)%nat in W2 by lia.
    change (2 ^ Z.of_nat 31) with (2 ^ 31) in W1. lia.
  - (* a 1 is written *)
    replace (high st <? 2 ^ 31) with false by (symmetry; apply Z.ltb_ge; lia).
    replace (low st >=? 2 ^ 31) with true
      by (symmetry; apply Z.geb_le; lia).
    eexists. split; [reflexivity|].
    assert (T0 : nth e B 0 = 1).
    { rewrite EB, <- !app_assoc. unfold e.
      rewrite app_nth2, Nat.sub_diag by lia. reflexivity. }
    assert (Le : length (bout st ++ 1 :: repeat 0 p) = (e + p + 1)%nat)
      by (rewrite length_app; cbn [length]; rewrite repeat_length; unfold e; lia).
    assert (Cv : dc - 2 ^ 31 = window 31 (skipn (e + p + 1) B))
      by (rewrite Ec; unfold code_at; rewrite T0; lia).
    pose proof (window_range 31 _ (skipn_bits (e + p + 1))) as Wr.
    change (2 ^ Z.of_nat 31) with (2 ^ 31) in Wr.
    destruct (dec_shift_follows di (e + p + 32) (low st - 2 ^ 31)
                (high st - 2 ^ 31) (dc - 2 ^ 31) Eb Ei)
      as (A1 & A2 & A3 & A4 & A5); try lia.
    unfold follows. cbn [low high pending bout]. rewrite Le.
    change (Z.to_nat 0) with 0%nat.
    split; [exact A1|]. split; [exact A2|].
    split; [|split; [exact A4 | rewrite A5; f_equal; lia]].
    rewrite A3, Cv. unfold code_at.
    replace (e + p + 1 + 0 + 1)%nat with (S (e + p + 1)) by lia.
    pose proof (window_skipn 31 (e + p + 1) B) as W1.
    pose proof (window_last 31 (skipn (e + p + 1) B)) as W2.
    rewrite nth_skipn in W2.
    replace (e + p + 1 + 31)%nat with (e + p + 32)%nat in W2 by lia.
    change (2 ^ Z.of_nat 31) with (2 ^ 31) in W1. lia.
  - (* a bit is held back *)
    replace (high st <? 2 ^ 31) with false by (symmetry; apply Z.ltb_ge; lia).
    replace (low st >=? 2 ^ 31) with false
      by (symmetry; rewrite Z.geb_leb; apply Z.leb_gt; lia).
    replace ((low st >=? 2 ^ 30) && (high st <? 3 * 2 ^ 30)) with true
      by (symmetry; apply andb_true_iff; split;
          [apply Z.geb_le | apply Z.ltb_lt]; lia).
    eexists. split; [reflexivity|].
    replace (Z.to_nat (pending st + 1)) with (S p) in * by (unfold p; lia).
    assert (T1 : nth (e + p + 1) B 0 = 1 - t).
    { replace (e + p + 1)%nat with (length (bout st) + 1 + p)%nat
        by (unfold e; lia). apply N1. lia. }
    fold e in N0.
    pose proof (window_skipn 30 (e + p + 1) B) as W0.
    change (2 ^ Z.of_nat 30) with (2 ^ 30) in W0. rewrite T1 in W0.
    pose proof (window_last 30 (skipn (S (e + p + 1)) B)) as W2.
    rewrite nth_skipn in W2.
    replace (S (e + p + 1) + 30)%nat with (e + p + 32)%nat in W2 by lia.
    pose proof (window_range 30 _ (skipn_bits (S (e + p + 1)))) as Wr.
    change (2 ^ Z.of_nat 30) with (2 ^ 30) in Wr.
    assert (Cv : dc - 2 ^ 30
                 = t * 2 ^ 30 + window 30 (skipn (S (e + p + 1)) B)).
    { rewrite Ec. unfold code_at. rewrite N0. lia. }
    destruct (dec_shift_follows di (e + p + 32) (low st - 2 ^ 30)
                (high st - 2 ^ 30) (dc - 2 ^ 30) Eb Ei)
      as (A1 & A2 & A3 & A4 & A5); try lia.
    { rewrite Cv. destruct Ht as [Ht | Ht]; rewrite Ht; lia. }
    unfold follows. cbn [low high pending bout]. fold e.
    replace (Z.to_nat (pending st + 1)) with (S p) by (unfold p; lia).
    split; [exact A1|]. split; [exact A2|].
    split; [|split; [exact A4 | rewrite A5; f_equal; lia]].
    rewrite A3, Cv. unfold code_at. rewrite N0.
    replace (e + S p + 1)%nat with (S (e + p + 1)) by lia.
    lia.
Qed.

(** The two renormalisation loops make the same passes. *)
Lemma dec_renorm_follows (fuel : nat) (rest : list byte)
    (st st2 : enc_state) (sd : dec_state) :
  enc_renorm fuel st = Some st2 ->
  enc_reach freq cum total data (InRenorm, rest, st) ->
  enc_ends freq cum total (InRenorm, rest, st) B ->
  follows st sd ->
  exists sd2,
    dec_renorm fuel sd = Some sd2 /\ follows st2 sd2
    /\ enc_reach freq cum total data (AtSymbol, rest, st2)
    /\ enc_ends freq cum total (AtSymbol, rest, st2) B.
Proof.
  revert st sd. induction fuel as [|fuel IH]; intros st sd E R En F;
    [discriminate|].
  cbn [enc_renorm] in E. cbn [dec_renorm].
  destruct (enc_renorm_body st) as [st'|] eqn:Bd.
  - destruct (dec_pass_follows rest st st' sd R En Bd F) as (sd' & -> & F').
    pose proof (enc_step_pass freq cum total rest st st' Bd) as St.
    apply (IH st' sd' E); [| |exact F'].
    + exact (enc_reach_step _ _ _ _ _ _ R St).
    + exact (enc_ends_next _ _ _ _ _ _ En St).
  - injection E as <-. rewrite (dec_exit_follows st sd F Bd).
    pose proof (enc_step_exit freq cum total rest st Bd) as St.
    exists sd. split; [reflexivity|]. split; [exact F|]. split.
    + exact (enc_reach_step _ _ _ _ _ _ R St).
    + exact (enc_ends_next _ _ _ _ _ _ En St).
Qed.

(** The value the decoder scales lies in the symbol's share. *)
Lemma scaled_in_share (l hh code c f : Z) :
  0 < total -> 0 < hh - l + 1 -> 0 <= c -> 0 <= f ->
  let r := hh - l + 1 in
  let l1 := l + r * c / total in
  l1 <= code <= l1 + r * f / total - 1 ->
  c <= ((code - l + 1) * total - 1) / r < c + f.
Proof.
  intros T Hr Hc Hf r l1 Hcode. subst l1.
  destruct (floor_div (r * c) total T) as [A1 A2].
  destruct (floor_div (r * f) total T) as [B1 B2].
  set (q := r * c / total) in *. set (q' := r * f / total) in *.
  split.
  - apply Z.div_le_lower_bound; [exact Hr|]. nia.
  - apply Z.div_lt_upper_bound; [exact Hr|]. nia.
Qed.

(** Decoding one symbol. *)
Lemma dec_symbol_follows (dcum : list (Z * Z)) (b : byte) (rest : list byte)
    (st : enc_state) (sd : dec_state) (s0 : option Z) :
  dcum = cum ->
  enc_reach freq cum total data (AtSymbol, b :: rest, st) ->
  enc_ends freq cum total (AtSymbol, b :: rest, st) B ->
  follows st sd ->
  exists st2 sd2,
    dec_symbol h dcum s0 sd = Ok (b, byte_val b, sd2)
    /\ follows st2 sd2
    /\ enc_reach freq cum total data (AtSymbol, rest, st2)
    /\ enc_ends freq cum total (AtSymbol, rest, st2) B.
Proof.
  intros -> R En F.
  destruct (tables_partition data) as (T & P & K).
  fold freq symbols total cum in T, P, K.
  destruct (enc_inv_reach data short _ R) as (Hin & Pr & W).
  specialize (W eq_refl). unfold width in W.
  assert (Hb : In (byte_val b) symbols) by (apply K, Hin; simpl; auto).
  destruct (P _ Hb) as (c & f & G & Fq & C0 & F1 & CF).
  injection Fq as <-.
  assert (Tn : total <> 0) by lia.
  pose proof (enc_narrow_value freq cum total (byte_val b) c st G Tn) as N.
  cbv zeta in N.
  set (l1 := low st + (high st - low st + 1) * c / total) in *.
  set (f := count freq (byte_val b)) in *.
  set (h1 := l1 + (high st - low st + 1) * f / total - 1) in *.
  set (st1 := mkEnc l1 h1 (pending st) (bout st)) in *.
  pose proof (enc_step_narrow freq cum total b rest st st1 N) as St.
  pose proof (enc_reach_step _ _ _ _ _ _ R St) as R1.
  pose proof (enc_ends_next _ _ _ _ _ _ En St) as En1.
  pose proof (future_code data short _ _ En1 R1) as (t & T2 & Ht & FT & EB & V).
  destruct (bits_at _ _ _ _ _ EB) as (N0 & _ & N2).
  cbn [low high pending bout st1] in V, N0, N2.
  destruct sd as [dl dh dc di]. destruct F as (El & Eh & Ec & Eb & Ei).
  cbn [d_low d_high d_code d_in] in *. subst dl dh.
  assert (Cv : l1 <= dc <= h1).
  { rewrite Ec. unfold code_at. rewrite N0, N2. exact V. }
  destruct (enc_renorm_total st1) as [st2 E2].
  assert (F1' : follows st1 (mkDec l1 h1 dc di)).
  { unfold follows. cbn [low high pending bout d_low d_high d_code d_in st1].
    repeat split; assumption. }
  destruct (dec_renorm_follows _ rest st1 st2 _ E2 R1 En1 F1')
    as (sd2 & D2 & F2 & R2 & En2).
  exists st2, sd2. split; [|split; [exact F2 | split; assumption]].
  unfold dec_symbol, floordiv. cbn [d_low d_high d_code d_in].
  replace (high st - low st + 1 =? 0) with false
    by (symmetry; apply Z.eqb_neq; lia).
  cbn [bind]. rewrite h_syms, h_tot.
  rewrite (dec_scan_finds (h_freq h) cum (count freq) _ (byte_val b)
             symbols 0 s0 symbols_nodup).
  - cbn [bind]. unfold byte_of_int. rewrite mk_byte_val. cbn [bind].
    rewrite (dec_narrow_value _ _ _ _ c f) by (auto; apply h_freqs, Hb).
    cbn [bind d_low d_high d_code d_in]. fold l1. fold h1.
    rewrite D2. reflexivity.
  - intros s Hs. split; [apply cum_offsets, Hs|]. split; [apply h_freqs, Hs|].
    destruct (P _ Hs) as (c' & f' & _ & Fq & _ & F1s & _).
    injection Fq as <-. lia.
  - exact Hb.
  - pose proof (cum_offsets _ Hb) as O. rewrite G in O. injection O as <-.
    apply (scaled_in_share (low st) (high st) dc c f); lia.
Qed.

(** Decoding what is left of the input. *)
Lemma dec_loop_follows (dcum : list (Z * Z)) (rest : list byte)
    (st : enc_state) (sd : dec_state) (s0 : option Z) :
  dcum = cum ->
  enc_reach freq cum total data (AtSymbol, rest, st) ->
  enc_ends freq cum total (AtSymbol, rest, st) B ->
  follows st sd ->
  dec_loop h dcum (length rest) s0 sd = Ok rest.
Proof.
  intros Ed. revert st sd s0.
  induction rest as [|b rest IH]; intros st sd s0 R En F; [reflexivity|].
  cbn [length dec_loop].
  destruct (dec_symbol_follows dcum b rest st sd s0 Ed R En F)
    as (st2 & sd2 & -> & F2 & R2 & En2).
  cbn [bind]. rewrite (IH st2 sd2 _ R2 En2 F2). reflexivity.
Qed.

End Decoder.

End Follow.

(** ** The round trip of the arithmetic coder *)

Module ArithRoundTrip.
Import Arithmetic Interval Tables EncRun Sink DecRun BitIO CodeValue Follow.
Import ArithHeader.

Lemma Zleb_total (a b : Z) : (a <=? b) = true \/ (b <=? a) = true.
Proof. destruct (Z.leb_spec a b); [left; reflexivity | right; apply Z.leb_le; lia]. Qed.

Lemma psums_ext (w w' : Z -> Z) (a : Z) (l : list Z) :
  (forall s, In s l -> w s = w' s) -> psums w a l = psums w' a l.
Proof.
  revert a. induction l as [|x l IH]; intros a H; [reflexivity|].
  cbn [psums]. rewrite (H x (or_introl eq_refl)).
  rewrite IH by (intros s Hs; apply H; simpl; auto). reflexivity.
Qed.

(** The first 32 bits the decoder reads. *)
Lemma dec_fill_window (B : list Z) (n k : nat) (code : Z) (s : _BitIn.t) :
  Forall is_bit B ->
  _BitIn.bits s = padded B ->
  _BitIn.idx s = Nat.min k (length (padded B)) ->
  let r := dec_fill n code s in
  fst r = code * 2 ^ Z.of_nat n + window n (skipn k B)
  /\ _BitIn.bits (snd r) = padded B
  /\ _BitIn.idx (snd r) = Nat.min (k + n) (length (padded B)).
Proof.
  intros FB. revert k code s.
  induction n as [|n IH]; intros k code s Eb Ei; cbv zeta.
  - cbn [dec_fill fst snd window]. rewrite Nat.add_0_r.
    change (2 ^ Z.of_nat 0) with 1. repeat split; auto; lia.
  - cbn [dec_fill].
    destruct (get_next B s k Eb Ei) as (G1 & G2 & G3).
    destruct (_BitIn.get s) as [b s1]. cbn [fst snd] in G1, G2, G3. subst b.
    destruct (IH (S k) (Z.lor (Z.shiftl code 1) (nth k B 0)) s1 G2 G3)
      as (A1 & A2 & A3).
    split; [|split; [exact A2 | rewrite A3; f_equal; lia]].
    rewrite A1, (lor_bit _ _ (nth_bit B k FB)), window_skipn.
    rewrite Nat2Z.inj_succ, Z.pow_succ_r by lia. ring.
Qed.

(** What [encode] computes and writes for an input with two distinct
    symbols or more. *)
Lemma encode_parts (data blob : list byte) :
  (2 <= length (Counter data))%nat ->
  Arithmetic.encode data = Ok blob ->
  let freq := Counter data in
  let symbols := fst (fst (enc_tables freq)) in
  exists st code_bits cb h_tab,
    enc_loop freq (snd (enc_tables freq)) (snd (fst (enc_tables freq)))
             enc_init data = Ok st
    /\ _BitOut.finish (bout (enc_final st)) = Ok code_bits
    /\ 0 <= len data < 2 ^ 32
    /\ byte_val cb = Z.of_nat (length symbols)
    /\ Forall2 entry_bytes (map (fun s => (s, count freq s)) symbols) h_tab
    /\ blob = be_digits 4 (len data) ++ [cb] ++ concat h_tab ++ code_bits.
Proof.
  intros H2 E freq symbols. pose proof (Counter_nonempty data H2) as NE.
  unfold Arithmetic.encode in E. destruct data as [|b0 data0]; [congruence|].
  set (data := b0 :: data0) in *. fold freq in E.
  replace (length freq =? 1)%nat with false in E
    by (symmetry; apply Nat.eqb_neq; unfold freq; lia).
  subst symbols.
  destruct (enc_tables freq) as [[symbols total] cum]. cbn [fst snd].
  destruct (enc_loop freq cum total enc_init data) as [st|] eqn:Est;
    [|discriminate].
  cbn [bind] in E.
  destruct (_BitOut.finish (bout (enc_final st))) as [code_bits|] eqn:Ef;
    [|discriminate].
  cbn [bind] in E.
  destruct (to_bytes 134 (len data) 4) as [h_len|] eqn:E1; [|discriminate].
  cbn [bind] in E.
  destruct (bytes_of_ints 135 [len symbols]) as [h_cnt|] eqn:E2;
    [|discriminate].
  cbn [bind] in E.
  match type of E with context [mapM ?f ?l] =>
    destruct (mapM f l) as [h_tab|] eqn:E3; [|discriminate] end.
  cbn [bind] in E. injection E as <-.
  apply to_bytes_inv in E1. destruct E1 as [R1 ->].
  unfold bytes_of_ints in E2. cbn [mapM] in E2.
  destruct (byte_of_int 135 (len symbols)) as [cb|] eqn:Ecb; [|discriminate].
  cbn [bind] in E2. injection E2 as <-. apply byte_of_int_val in Ecb.
  exists st, code_bits, cb, h_tab.
  split; [reflexivity|]. split; [exact Ef|].
  split; [exact R1|]. split; [exact Ecb|].
  split; [exact (entry_bytes_written _ _ _ E3) | reflexivity].
Qed.

Lemma entries_length (ents : list (Z * Z)) (tab : list (list byte)) :
  Forall2 entry_bytes ents tab ->
  length (concat tab) = (5 * length tab)%nat.
Proof.
  induction 1 as [|e bs ents tab H F IH]; [reflexivity|].
  destruct H as (sb & -> & _). cbn [concat length].
  rewrite length_app, IH. cbn [length]. rewrite be_digits_length. lia.
Qed.

(** Decoding the blob of an input with two distinct symbols or more. *)
Lemma round_trip_general (data blob : list byte) :
  (2 <= length (Counter data))%nat -> len data <= 2 ^ 30 ->
  Arithmetic.encode data = Ok blob -> Arithmetic.decode blob = Ok data.
Proof.
  intros H2 Hlen E.
  destruct (encode_header data blob H2 Hlen E)
    as (_ & _ & _ & _ & _ & _ & Hrun).
  destruct (encode_parts data blob H2 E)
    as (st & code_bits & cb & h_tab & Est & Ef & R1 & Ecb & F & Eblob).
  cbv zeta in *.
  set (freq := Counter data) in *.
  pose proof (enc_tables_partition data) as TP. cbv zeta in TP. fold freq in TP.
  assert (Hsym : fst (fst (enc_tables freq)) = sorted Z.leb (keys freq))
    by reflexivity.
  assert (Hcum : snd (enc_tables freq)
                 = dict_of Z.eqb
                     (combine (fst (fst (enc_tables freq)))
                        (enc_cum_list freq (fst (fst (enc_tables freq))))))
    by reflexivity.
  set (symbols := fst (fst (enc_tables freq))) in *.
  set (total := snd (fst (enc_tables freq))) in *.
  set (cum := snd (enc_tables freq)) in *.
  assert (TP' : total = len data /\ Permutation (keys freq) symbols).
  { subst symbols total. destruct (enc_tables freq) as [[sy to] cu].
    cbn [fst snd]. destruct TP as (T & P & _). split; assumption. }
  clear TP. destruct TP' as [T P].
  pose proof (Counter_counted data) as C. fold freq in C.
  assert (ND : NoDup symbols)
    by (eapply Permutation_NoDup; [exact P | apply (counted_nodup _ _ C)]).
  assert (Srt : sorted Z.leb symbols = symbols).
  { apply sorted_id. rewrite Hsym. apply sorted_Sorted, Zleb_total. }
  set (ents := map (fun s => (s, count freq s)) symbols) in *.
  assert (Kents : keys ents = symbols)
    by (unfold ents, keys; rewrite map_map; apply map_id).
  assert (Gents : forall s, In s symbols ->
            get Z.eqb ents s = Some (count freq s)).
  { intros s Hs. apply In_get; [rewrite Kents; exact ND|].
    unfold ents. apply in_map_iff. exists s. split; [reflexivity | exact Hs]. }
  assert (Ecum : cum = combine symbols (psums (count freq) 0 symbols)).
  { rewrite Hcum, enc_cum_list_psums. apply dict_of_nodup.
    rewrite keys_combine; [exact ND | rewrite psums_length; lia]. }
  assert (Lt : length h_tab = length symbols).
  { apply Forall2_length in F. unfold ents in F. rewrite length_map in F.
    congruence. }
  (* the header *)
  pose proof (parse_table_app h_tab ents (be_digits 4 (len data) ++ [cb])
                code_bits [] [] 0 F) as PT.
  rewrite length_app, be_digits_length in PT. cbn [length Nat.add app] in PT.
  rewrite update_nodup in PT by (cbn [keys map app]; rewrite Kents; exact ND).
  cbn [app] in PT. rewrite Kents in PT.
  assert (Sum : 0 + sumZ (values ents) = total).
  { rewrite T. unfold ents, values. rewrite map_map. cbn [snd].
    change (0 + sumZ (map (count freq) symbols) = len data).
    rewrite <- (sumZ_perm _ _ (Permutation_map (count freq) P)).
    rewrite sum_counts by apply (counted_nodup _ _ C).
    rewrite (counted_sum _ _ C). lia. }
  rewrite Sum in PT.
  set (h := mkHeader (len data) symbols ents total (5 + 5 * length h_tab)).
  assert (Hh : parse_header blob = Ok h).
  { rewrite Eblob. unfold parse_header, index.
    replace (nth_error (be_digits 4 (len data) ++ [cb] ++ concat h_tab
                          ++ code_bits) 4) with (Some cb)
      by (symmetry; apply (nth_error_app_here (be_digits 4 (len data)))).
    cbn [bind]. rewrite Ecb, Nat2Z.id, <- Lt.
    replace (be_digits 4 (len data) ++ [cb] ++ concat h_tab ++ code_bits)
      with ((be_digits 4 (len data) ++ [cb]) ++ concat h_tab ++ code_bits)
      by (rewrite <- app_assoc; reflexivity).
    rewrite PT. cbn [bind]. unfold h. f_equal. f_equal.
    unfold slice. cbn [skipn Nat.sub]. rewrite <- !app_assoc.
    rewrite <- (be_digits_length 4 (len data)) at 1. rewrite firstn_app_here.
    rewrite from_bytes_be_digits. apply Z.mod_small. exact R1. }
  assert (Hpos : skipn (h_pos h) blob = code_bits).
  { rewrite Eblob. cbn [h_pos h].
    replace (be_digits 4 (len data) ++ [cb] ++ concat h_tab ++ code_bits)
      with ((be_digits 4 (len data) ++ [cb] ++ concat h_tab) ++ code_bits)
      by (rewrite <- !app_assoc; reflexivity).
    replace (5 + 5 * length h_tab)%nat
      with (length (be_digits 4 (len data) ++ [cb] ++ concat h_tab)).
    - apply skipn_app_here.
    - rewrite !length_app, be_digits_length, (entries_length _ _ F).
      cbn [length]. lia. }
  assert (Hdc : dec_cum (h_symbols h) (h_freq h) = Ok cum).
  { cbn [h_symbols h_freq h].
    rewrite dec_cum_psums by (auto; rewrite Kents; auto).
    rewrite Srt, Ecum. do 2 f_equal. apply psums_ext.
    intros s Hs. unfold count at 1. rewrite (Gents s Hs). reflexivity. }
  (* the bits *)
  set (B := bout (enc_final st)) in *.
  assert (FB : Forall is_bit B).
  { apply enc_final_bits. apply (enc_loop_bits _ _ _ _ _ _ Est). constructor. }
  destruct (finish_init B code_bits FB Ef) as [Ebits _].
  pose proof (enc_loop_ends _ _ _ _ _ _ Est) as En. fold B in En.
  pose proof (enc_reach_start freq cum total data) as R.
  assert (Fo : follows B enc_init (dec_init h blob)).
  { unfold dec_init. rewrite Hpos.
    destruct (dec_fill_window B 32 0 0 (_BitIn.init code_bits) FB Ebits)
      as (A1 & A2 & A3); [cbn [_BitIn.init _BitIn.idx]; lia|].
    destruct (dec_fill 32 0 (_BitIn.init code_bits)) as [code bitin].
    cbn [fst snd] in A1, A2, A3.
    unfold follows. cbn [d_low d_high d_code d_in low high pending bout enc_init].
    split; [reflexivity|]. split; [reflexivity|].
    split; [|split; [exact A2 | exact A3]].
    rewrite A1, (window_skipn 31 0 B). unfold code_at.
    change (2 ^ Z.of_nat 31) with (2 ^ 31).
    change (length _BitOut.init + Z.to_nat 0 + 1)%nat with 1%nat.
    change (length _BitOut.init) with 0%nat. lia. }
  unfold Arithmetic.decode.
  destruct blob as [|x0 blob0] eqn:Eb0.
  { apply (f_equal (@length byte)) in Eblob. rewrite length_app in Eblob.
    rewrite be_digits_length in Eblob. discriminate. }
  rewrite <- Eb0 in *. rewrite Hrun, Hh. cbn [bind]. rewrite Hdc. cbn [bind].
  replace (Z.to_nat (h_n h)) with (length data)
    by (cbn [h_n h]; unfold len; rewrite Nat2Z.id; reflexivity).
  assert (Off : forall s, In s symbols ->
            get Z.eqb cum s = Some (offset (count freq) 0 symbols s))
    by (intros s Hs; rewrite Ecum; apply combine_psums_offset, Hs).
  exact (dec_loop_follows data Hlen B FB h eq_refl eq_refl Gents ND Off
           cum data enc_init _ _ eq_refl R En Fo).
Qed.

(** Decoding the blob of any input of at most [2^30] bytes. *)
Lemma arithmetic_round_trip_all (data blob : list byte) :
  len data <= 2 ^ 30 ->
  Arithmetic.encode data = Ok blob -> Arithmetic.decode blob = Ok data.
Proof.
  intros Hlen E.
  destruct (Nat.lt_ge_cases (length (Counter data)) 2) as [Lt|H2];
    [|exact (round_trip_general data blob H2 Hlen E)].
  destruct data as [|b0 data0]; [injection E as <-; reflexivity|].
  assert (H1 : length (Counter (b0 :: data0)) = 1%nat).
  { pose proof (Counter_keys (b0 :: data0) b0 (or_introl eq_refl)) as K.
    destruct (Counter (b0 :: data0)); [destruct K | simpl in *; lia]. }
  destruct (HuffRoundTrip.single_symbol _ H1) as (b & n & Ed). rewrite Ed in *.
  rewrite arithmetic_encode_run in E.
  destruct (to_bytes 86 (Z.of_nat (S n)) 4) as [c|] eqn:Ec; [|discriminate].
  cbn [bind] in E. injection E as <-.
  apply to_bytes_inv in Ec. destruct Ec as [R ->].
  transitivity (Arithmetic.decode_run 146 (run_record b (Z.of_nat (S n))));
    [reflexivity|].
  rewrite (decode_run_record b 146 (Z.of_nat (S n)))
    by (change (2 ^ 32) with (256 ^ Z.of_nat 4); lia).
  rewrite Nat2Z.id. reflexivity.
Qed.

(** X3. Whenever the arithmetic encoder returns a blob for an input of at
    most [2^30] bytes, decoding the blob gives the input back. *)
Theorem arithmetic_round_trip (data blob : list byte) :
  len data <= 2 ^ 30 ->
  Arithmetic.encode data = Ok blob -> Arithmetic.decode blob = Ok data.
Proof. exact (arithmetic_round_trip_all data blob). Qed.

Lemma arithmetic_round_trip_witness :
  Arithmetic.decode sample_arithmetic_blob = Ok sample.
Proof.
  apply (arithmetic_round_trip sample sample_arithmetic_blob).
  - vm_compute. discriminate.
  - vm_compute. reflexivity.
Defined.

End ArithRoundTrip.

(** ** The inputs the encoders accept *)

Module Accepts.
Import Arithmetic Tables EncRun Sink ArithHeader ArithRoundTrip.

Lemma keys_set (d : list (Z * Z)) (k v x : Z) :
  In x (keys (set Z.eqb d k v)) -> In x (keys d) \/ x = k.
Proof.
  induction d as [|[k' v'] d IH]; cbn [set keys map fst In].
  - intros [H|[]]; auto.
  - destruct (Z.eqb_spec k k') as [->|Hne]; cbn [keys map fst In].
    + intros [H|H]; auto.
    + intros [H|H]; auto. destruct (IH H); auto.
Qed.

(** The keys of [Counter(data)] are the values of the bytes of [data]. *)
Lemma Counter_keys_inv (data : list byte) (s : Z) :
  In s (keys (Counter data)) -> exists b, In b data /\ byte_val b = s.
Proof.
  unfold Counter.
  assert (G : forall l d, In s (keys (fold_left tally l d)) ->
            In s (keys d) \/ exists b, In b l /\ byte_val b = s).
  { induction l as [|b l IH]; intros d H; [left; exact H|].
    cbn [fold_left] in H. destruct (IH _ H) as [K|(b' & Hb & E)].
    - unfold tally in K.
      destruct (get Z.eqb d (byte_val b));
        (apply keys_set in K; destruct K as [K| ->];
         [left; exact K | right; exists b; split; [left|]; reflexivity]).
    - right. exists b'. split; [right; exact Hb | exact E]. }
  intros H. destruct (G data [] H) as [[]|R]. exact R.
Qed.

Lemma value_le_sum (l : list Z) (v : Z) :
  Forall (fun x => 1 <= x) l -> In v l -> v <= sumZ l.
Proof.
  induction 1 as [|x l Hx F IH]; intros H; [destruct H|].
  assert (0 <= sumZ l).
  { clear -F. induction F as [|y l Hy F IH]; simpl; [lia|].
    unfold sumZ in *. lia. }
  cbn [sumZ fold_right]. fold (sumZ l).
  destruct H as [->|H]; [lia|]. specialize (IH H). lia.
Qed.

Lemma count_le_len (data : list byte) (s : Z) :
  0 <= count (Counter data) s <= len data.
Proof.
  pose proof (Counter_counted data) as C. unfold count.
  destruct (get Z.eqb (Counter data) s) as [v|] eqn:G; [|unfold len; lia].
  apply get_In in G.
  assert (Hv : In v (values (Counter data)))
    by (unfold values; apply in_map_iff; exists (s, v); auto).
  pose proof (counted_pos _ _ C) as Pos.
  pose proof (value_le_sum _ _ Pos Hv) as L.
  rewrite (counted_sum _ _ C) in L.
  rewrite Forall_forall in Pos. specialize (Pos v Hv). lia.
Qed.

Lemma byte_of_int_ok (line : nat) (z : Z) :
  0 <= z < 256 -> exists b, byte_of_int line z = Ok b.
Proof.
  intros H. unfold byte_of_int.
  destruct (mk_byte_in_range z H) as [b ->]. exists b. reflexivity.
Qed.

(** The inputs with no symbol or a single one. *)
Lemma few_symbols (data : list byte) :
  (length (Counter data) < 2)%nat ->
  data = [] \/ exists b n, data = repeat b (S n).
Proof.
  intros Lt. destruct data as [|b0 data0]; [left; reflexivity|]. right.
  apply HuffRoundTrip.single_symbol.
  pose proof (Counter_keys (b0 :: data0) b0 (or_introl eq_refl)) as K.
  destruct (Counter (b0 :: data0)); [destruct K | simpl in *; lia].
Qed.

(** The arithmetic encoder accepts an input with two distinct symbols
    or more that misses a byte value and has fewer than [2^32] bytes. *)
Lemma arithmetic_accepts (data : list byte) :
  (2 <= length (Counter data) <= 255)%nat -> len data < 2 ^ 32 ->
  exists blob, Arithmetic.encode data = Ok blob.
Proof.
  intros [H2 K] L.
  destruct (arithmetic_encode_general data H2) as [code_bits ->].
  rewrite to_bytes_ok
    by (change (256 ^ Z.of_nat 4) with (2 ^ 32); unfold len in *; lia).
  cbn [bind]. unfold bytes_of_ints at 1. cbn [mapM].
  destruct (byte_of_int_ok 135 (Z.of_nat (length (Counter data))))
    as [cb ->]; [lia|].
  cbn [bind].
  match goal with |- context [mapM ?f ?l] =>
    destruct (mapM_ok f l) as (tab & -> & _) end.
  - intros s Hs.
    assert (Hk : In s (keys (Counter data))).
    { eapply Permutation_in; [symmetry; apply sorted_perm|]. exact Hs. }
    destruct (Counter_keys_inv _ _ Hk) as (b & _ & <-).
    unfold bytes_of_ints. cbn [mapM]. unfold byte_of_int.
    rewrite mk_byte_val. cbn [bind].
    pose proof (count_le_len data (byte_val b)).
    rewrite to_bytes_ok
      by (change (256 ^ Z.of_nat 4) with (2 ^ 32); lia).
    eexists. reflexivity.
  - cbn [bind]. eexists. reflexivity.
Qed.

(** The arithmetic encoder accepts every input that misses a byte value
    and has fewer than [2^32] bytes. *)
Lemma arithmetic_accepts_all (data : list byte) :
  (length (Counter data) <= 255)%nat -> len data < 2 ^ 32 ->
  exists blob, Arithmetic.encode data = Ok blob.
Proof.
  intros K L.
  destruct (Nat.lt_ge_cases (length (Counter data)) 2) as [Lt|H2];
    [|apply arithmetic_accepts; [lia | exact L]].
  destruct (few_symbols data Lt) as [->|(b & n & ->)];
    [exists []; reflexivity|].
  rewrite arithmetic_encode_run.
  unfold len in L. rewrite repeat_length in L.
  rewrite to_bytes_ok by (change (256 ^ Z.of_nat 4) with (2 ^ 32); lia).
  eexists. reflexivity.
Qed.

(** X4. The arithmetic encoder returns a blob exactly for the inputs of
    fewer than [2^32] bytes that miss at least one of the 256 byte
    values. *)
Theorem arithmetic_encode_returns (data : list byte) :
  (exists blob, Arithmetic.encode data = Ok blob)
  <-> (length (Counter data) <= 255)%nat /\ len data < 2 ^ 32.
Proof.
  split; [|intros [K L]; apply arithmetic_accepts_all; assumption].
  intros [blob E].
  destruct (Nat.lt_ge_cases (length (Counter data)) 2) as [Lt|H2].
  - destruct (few_symbols data Lt) as [->|(b & n & ->)];
      [split; [simpl; lia | reflexivity]|].
    rewrite arithmetic_encode_run in E. split; [lia|].
    destruct (to_bytes 86 (Z.of_nat (S n)) 4) as [c|] eqn:Ec; [|discriminate].
    apply to_bytes_inv in Ec. destruct Ec as [R _].
    unfold len. rewrite repeat_length.
    change (256 ^ Z.of_nat 4) with (2 ^ 32) in R. lia.
  - destruct (encode_parts data blob H2 E)
      as (st & code_bits & cb & h_tab & _ & _ & R1 & Ecb & _ & _).
    cbv zeta in Ecb. rewrite arithmetic_symbols_length in Ecb.
    pose proof (byte_val_range cb). split; lia.
Qed.

End Accepts.

(** ** The record the Huffman encoder writes *)

Module HuffRecord.
Import Huffman Tree Canon HuffTables HuffDecode HuffSpec Pack HuffRoundTrip.
Import Accepts.

Lemma pack_bits_ok (bits : list bool) : exists bytes, _pack_bits bits = Ok bytes.
Proof.
  unfold _pack_bits.
  match goal with |- context [mapM ?f ?l] =>
    destruct (mapM_ok f l) as (r & -> & _) end.
  - intros i _. rewrite chunk_written; [eexists; reflexivity|].
    unfold slice. replace (i + 8 - i)%nat with 8%nat by lia.
    apply firstn_le_length.
  - eexists. reflexivity.
Qed.

(** Lines 70-88: what is written once the tables are known. *)
Definition write_record (data : list byte) (canon : list (Z * list bool))
    (lengths : list (Z * Z)) : result (list byte) :=
  h_len <- to_bytes 71 (len data) 4 ;;
  h_cnt <- bytes_of_ints 72 [len canon] ;;
  h_tab <- mapM (fun s => bytes_of_ints 76 [s; at_key lengths s])
                (keys canon) ;;
  let code_bits := concat (map snd canon) in
  h_clen <- to_bytes 80 (len code_bits) 2 ;;
  h_code <- _pack_bits code_bits ;;
  codes <- mapM (fun b => getitem Z.eqb 84 canon (byte_val b)) data ;;
  let payload_bits := concat codes in
  h_plen <- to_bytes 85 (len payload_bits) 4 ;;
  payload <- _pack_bits payload_bits ;;
  Ok (h_len ++ h_cnt ++ concat h_tab ++ h_clen ++ h_code
        ++ h_plen ++ payload).

Lemma encode_general (data : list byte) :
  (2 <= length (Counter data))%nat ->
  exists canon lengths,
    code_tables data = Ok (canon, lengths)
    /\ tables_spec data canon lengths
    /\ Huffman.encode data = write_record data canon lengths.
Proof.
  intros H2. pose proof (Counter_nonempty data H2) as NE.
  destruct (code_tables_spec data H2) as (canon & lengths & Hc & TS).
  exists canon, lengths. split; [exact Hc|]. split; [exact TS|].
  unfold Huffman.encode. destruct data as [|b0 data0]; [congruence|].
  set (data := b0 :: data0) in *.
  replace (length (Counter data) =? 1)%nat with false
    by (symmetry; apply Nat.eqb_neq; lia).
  rewrite Hc. reflexivity.
Qed.

(** The fields of a record that was written. *)
Inductive fields (data : list byte) (canon : list (Z * list bool))
    (lengths : list (Z * Z)) (blob : list byte) : Prop :=
| fields_intro (cb : byte) (tab : list (list byte)) (code : list byte)
    (codes : list (list bool)) (payload : list byte) :
    0 <= len data < 2 ^ 32 ->
    byte_val cb = len canon ->
    Forall2 pair_bytes (map (fun s => (s, at_key lengths s)) (keys canon))
            tab ->
    len (concat (map snd canon)) < 2 ^ 16 ->
    _pack_bits (concat (map snd canon)) = Ok code ->
    Forall2 (fun b c => get Z.eqb canon (byte_val b) = Some c) data codes ->
    len (concat codes) < 2 ^ 32 ->
    _pack_bits (concat codes) = Ok payload ->
    blob = be_digits 4 (len data) ++ [cb] ++ concat tab
             ++ be_digits 2 (len (concat (map snd canon))) ++ code
             ++ be_digits 4 (len (concat codes)) ++ payload ->
    fields data canon lengths blob.

Lemma write_record_fields (data : list byte) (canon : list (Z * list bool))
    (lengths : list (Z * Z)) (blob : list byte) :
  write_record data canon lengths = Ok blob -> fields data canon lengths blob.
Proof.
  unfold write_record. intros E.
  destruct (to_bytes 71 (len data) 4) as [h_len|] eqn:E1; [|discriminate].
  cbn [bind] in E.
  destruct (bytes_of_ints 72 [len canon]) as [h_cnt|] eqn:E2; [|discriminate].
  cbn [bind] in E.
  destruct (mapM (fun s => bytes_of_ints 76 [s; at_key lengths s]) (keys canon))
    as [h_tab|] eqn:E3; [|discriminate].
  cbn [bind] in E.
  destruct (to_bytes 80 (len (concat (map snd canon))) 2) as [h_clen|] eqn:E4;
    [|discriminate].
  cbn [bind] in E.
  destruct (_pack_bits (concat (map snd canon))) as [h_code|] eqn:E5;
    [|discriminate].
  cbn [bind] in E.
  destruct (mapM (fun b => getitem Z.eqb 84 canon (byte_val b)) data)
    as [codes|] eqn:E6; [|discriminate].
  cbn [bind] in E.
  destruct (to_bytes 85 (len (concat codes)) 4) as [h_plen|] eqn:E7;
    [|discriminate].
  cbn [bind] in E.
  destruct (_pack_bits (concat codes)) as [payload|] eqn:E8; [|discriminate].
  cbn [bind] in E. injection E as <-.
  apply to_bytes_inv in E1. destruct E1 as [R1 ->].
  apply to_bytes_inv in E4. destruct E4 as [R4 ->].
  apply to_bytes_inv in E7. destruct E7 as [R7 ->].
  unfold bytes_of_ints in E2. cbn [mapM] in E2.
  destruct (byte_of_int 72 (len canon)) as [cb|] eqn:Ecb; [|discriminate].
  cbn [bind] in E2. injection E2 as <-. apply byte_of_int_val in Ecb.
  apply (fields_intro data canon lengths _ cb h_tab h_code codes payload);
    try assumption; try reflexivity.
  - exact (pair_bytes_written _ _ _ _ E3).
  - change (2 ^ 16) with (256 ^ Z.of_nat 2). lia.
  - apply mapM_Forall2 in E6. clear -E6.
    induction E6 as [|b c data codes H F IH]; constructor; [|exact IH].
    unfold getitem in H. destruct (get Z.eqb canon (byte_val b));
      [congruence | discriminate].
  - change (2 ^ 32) with (256 ^ Z.of_nat 4). lia.
Qed.

(** Decoding a record whose first bytes are not taken for the tag. *)
Lemma decode_fields (data : list byte) (canon : list (Z * list bool))
    (lengths : list (Z * Z)) (blob : list byte) :
  tables_spec data canon lengths -> fields data canon lengths blob ->
  Arithmetic.startswith_RUN blob = false ->
  Huffman.decode blob = Ok data.
Proof.
  intros TS [cb h_tab h_code codes payload R1 Ecb F Rc Pc Fc Rp Pp Eblob] NR.
  assert (Lt : len h_tab = len canon).
  { unfold len. f_equal. apply Forall2_length in F.
    rewrite length_map in F. unfold keys in F. rewrite length_map in F.
    congruence. }
  unfold Huffman.decode.
  destruct blob as [|x0 blob0] eqn:Eb0.
  { apply (f_equal (@length byte)) in Eblob. rewrite length_app in Eblob.
    rewrite be_digits_length in Eblob. discriminate. }
  rewrite <- Eb0 in *. rewrite NR, Eblob.
  rewrite (parse_record (len data) cb h_tab
             (map (fun s => (s, at_key lengths s)) (keys canon))
             (concat (map snd canon)) (concat codes) h_code payload);
    try assumption; [|congruence].
  cbn [bind pairs orig_len payload_bits].
  pose proof (dec_loop_codes canon _ (ts_nodup _ _ _ TS)
                (ts_prefix_free _ _ _ TS) (ts_nonempty _ _ _ TS)
                (ts_inverse _ _ _ TS) (map byte_val data) codes []) as D.
  change (len (@nil Z)) with 0 in D. cbn [rev app] in D.
  replace (0 + len (map byte_val data)) with (len data) in D
    by (unfold len; rewrite length_map; lia).
  rewrite D; [apply bytes_of_vals|].
  clear -Fc. induction Fc as [|b c data codes H F IH]; cbn [map]; constructor;
    [|exact IH].
  apply get_In, H.
Qed.

Lemma concat_len_le (l : list (list bool)) (m : Z) :
  Forall (fun c => len c <= m) l -> len (concat l) <= m * len l.
Proof.
  induction 1 as [|c l H F IH]; [unfold len; simpl; lia|].
  unfold len in *. cbn [concat length]. rewrite length_app. lia.
Qed.

(** The record can be written when the counts and lengths fit their
    fields. *)
Lemma write_record_ok (data : list byte) (canon : list (Z * list bool))
    (lengths : list (Z * Z)) :
  tables_spec data canon lengths ->
  len canon <= 255 -> len data < 2 ^ 32 ->
  (len canon - 1) * len data < 2 ^ 32 ->
  exists blob, write_record data canon lengths = Ok blob.
Proof.
  intros TS K L LP.
  assert (Hcode : forall s c, In (s, c) canon ->
            1 <= len c <= len canon - 1 /\ at_key lengths s = len c).
  { intros s c H. pose proof (ts_short _ _ _ TS s c H).
    pose proof (ts_nonempty _ _ _ TS s c H) as NE.
    split; [|exact (ts_lengths _ _ _ TS s c H)].
    unfold len in *. destruct c; [congruence | cbn [length] in *; lia]. }
  assert (Hkey : forall s, In s (keys canon) -> exists b, byte_val b = s).
  { intros s H.
    apply (Permutation_in _ (Permutation_sym (ts_symbols _ _ _ TS))) in H.
    destruct (Counter_keys_inv _ _ H) as (b & _ & E). exists b. exact E. }
  unfold write_record.
  rewrite to_bytes_ok
    by (change (256 ^ Z.of_nat 4) with (2 ^ 32); unfold len in *; lia).
  cbn [bind]. unfold bytes_of_ints at 1. cbn [mapM].
  destruct (byte_of_int_ok 72 (len canon)) as [cb ->];
    [unfold len in *; lia|].
  cbn [bind].
  destruct (mapM_ok (fun s => bytes_of_ints 76 [s; at_key lengths s])
              (keys canon)) as (tab & -> & _).
  { intros s Hs. destruct (Hkey s Hs) as [b <-].
    destruct (get_Some_key canon _ Hs) as [c Gc]. apply get_In in Gc.
    destruct (Hcode _ _ Gc) as [R ->].
    unfold bytes_of_ints. cbn [mapM]. unfold byte_of_int at 1.
    rewrite mk_byte_val. cbn [bind].
    destruct (byte_of_int_ok 76 (len c)) as [b2 ->]; [lia|].
    eexists. reflexivity. }
  cbn [bind].
  assert (Bc : len (concat (map snd canon)) <= (len canon - 1) * len canon).
  { replace (len canon) with (len (map snd canon)) at 2
      by (unfold len; rewrite length_map; reflexivity).
    apply concat_len_le. apply Forall_forall. intros c Hc.
    apply in_map_iff in Hc. destruct Hc as ([s c'] & <- & Hin).
    apply (Hcode s c' Hin). }
  rewrite to_bytes_ok.
  2:{ change (256 ^ Z.of_nat 2) with 65536. split; [unfold len; lia|].
      assert (0 <= len canon) by (unfold len; lia). nia. }
  cbn [bind].
  destruct (pack_bits_ok (concat (map snd canon))) as [h_code ->].
  cbn [bind].
  destruct (mapM_ok (fun b => getitem Z.eqb 84 canon (byte_val b)) data)
    as (codes & Ec & Lc).
  { intros b Hb. unfold getitem.
    assert (Hk : In (byte_val b) (keys canon)).
    { eapply Permutation_in; [exact (ts_symbols _ _ _ TS)|].
      apply Counter_keys, Hb. }
    destruct (get_Some_key canon _ Hk) as [c ->]. eexists. reflexivity. }
  rewrite Ec. cbn [bind].
  assert (Bp : len (concat codes) <= (len canon - 1) * len data).
  { replace (len data) with (len codes) by (unfold len; congruence).
    apply concat_len_le. apply mapM_Forall2 in Ec. clear -Ec Hcode.
    induction Ec as [|b c data codes H F IH]; constructor; [|exact IH].
    unfold getitem in H. destruct (get Z.eqb canon (byte_val b)) eqn:G;
      [|discriminate].
    injection H as <-. apply get_In in G. apply (Hcode _ _ G). }
  rewrite to_bytes_ok
    by (change (256 ^ Z.of_nat 4) with (2 ^ 32); unfold len in *; lia).
  cbn [bind].
  destruct (pack_bits_ok (concat codes)) as [payload ->].
  cbn [bind]. eexists. reflexivity.
Qed.

Lemma canon_count (data : list byte) (canon : list (Z * list bool))
    (lengths : list (Z * Z)) :
  tables_spec data canon lengths ->
  len canon = Z.of_nat (length (Counter data)).
Proof.
  intros TS. unfold len. f_equal.
  rewrite <- (length_map fst canon), <- (length_map fst (Counter data)).
  symmetry. apply Permutation_length, (ts_symbols _ _ _ TS).
Qed.

(** The Huffman encoder accepts an input with two distinct symbols or
    more when the counts and lengths fit their fields. *)
Lemma huffman_accepts (data : list byte) :
  (2 <= length (Counter data) <= 255)%nat ->
  (Z.of_nat (length (Counter data)) - 1) * len data < 2 ^ 32 ->
  exists blob, Huffman.encode data = Ok blob.
Proof.
  intros [H2 K] LP.
  destruct (encode_general data H2) as (canon & lengths & _ & TS & ->).
  pose proof (canon_count _ _ _ TS) as Lc.
  apply write_record_ok; [exact TS | lia | | rewrite Lc; exact LP].
  assert (0 <= len data) by (unfold len; lia). nia.
Qed.

(** *** When the length field reads as the tag *)

Lemma byte_wrap_is (z v : Z) (b : byte) :
  byte_val b = v -> (byte_wrap z = b <-> z mod 256 = v).
Proof.
  intros <-. split.
  - intros <-. symmetry. apply byte_val_wrap.
  - intros E. apply byte_val_inj. rewrite byte_val_wrap. exact E.
Qed.

Lemma startswith_bytes (b1 b2 b3 : byte) (t : list byte) :
  Arithmetic.startswith_RUN (b1 :: b2 :: b3 :: t) = true
  <-> b1 = x52 /\ b2 = x55 /\ b3 = x4e.
Proof.
  unfold Arithmetic.startswith_RUN.
  destruct b1; try (split; [discriminate | intros (H & _); discriminate]).
  destruct b2; try (split; [discriminate | intros (_ & H & _); discriminate]).
  destruct b3; try (split; [discriminate | intros (_ & _ & H); discriminate]).
  split; auto.
Qed.

(** A blob that begins with the 4-byte length [n] begins with the tag
    exactly when [n] is one of the 256 lengths from 0x52554E00 on. *)
Lemma startswith_length (n : Z) (rest : list byte) :
  0 <= n < 2 ^ 32 ->
  Arithmetic.startswith_RUN (be_digits 4 n ++ rest) = true
  <-> 1381322240 <= n < 1381322496.
Proof.
  intros R. cbn [be_digits app]. rewrite startswith_bytes.
  rewrite (byte_wrap_is _ 82 x52), (byte_wrap_is _ 85 x55),
    (byte_wrap_is _ 78 x4e) by reflexivity.
  change (256 ^ Z.of_nat 3) with 16777216.
  change (256 ^ Z.of_nat 2) with 65536.
  change (256 ^ Z.of_nat 1) with 256.
  change (2 ^ 32) with 4294967296 in R.
  split.
  - intros (H1 & H2 & H3). Z.div_mod_to_equations. lia.
  - intros H. Z.div_mod_to_equations. lia.
Qed.

(** Encoding and decoding any input the Huffman coder can take. *)
Lemma huffman_round_trip_all (data : list byte) :
  (length (Counter data) <= 255)%nat ->
  len data < 2 ^ 32 ->
  (Z.of_nat (length (Counter data)) - 1) * len data < 2 ^ 32 ->
  ((2 <= length (Counter data))%nat ->
   ~ 1381322240 <= len data < 1381322496) ->
  exists blob, Huffman.encode data = Ok blob /\ Huffman.decode blob = Ok data.
Proof.
  intros K L LP NT.
  destruct (Nat.lt_ge_cases (length (Counter data)) 2) as [Lt|H2].
  - destruct (few_symbols data Lt) as [->|(b & n & ->)].
    + exists []. split; reflexivity.
    + unfold len in L. rewrite repeat_length in L.
      assert (R : 0 <= Z.of_nat (S n) < 256 ^ Z.of_nat 4)
        by (change (256 ^ Z.of_nat 4) with (2 ^ 32); lia).
      exists (run_record b (Z.of_nat (S n))). split.
      * rewrite huffman_encode_run, to_bytes_ok by exact R. reflexivity.
      * transitivity (Arithmetic.decode_run 94 (run_record b (Z.of_nat (S n))));
          [reflexivity|].
        rewrite (decode_run_record b 94 (Z.of_nat (S n))), Nat2Z.id
          by (change (2 ^ 32) with (256 ^ Z.of_nat 4); lia).
        reflexivity.
  - specialize (NT H2).
    destruct (encode_general data H2) as (canon & lengths & _ & TS & E).
    pose proof (canon_count _ _ _ TS) as Lc.
    destruct (write_record_ok data canon lengths TS) as [blob W];
      [lia | exact L | rewrite Lc; exact LP|].
    exists blob. split; [rewrite E; exact W|].
    pose proof (write_record_fields _ _ _ _ W) as Fs.
    apply (decode_fields data canon lengths blob TS Fs).
    destruct Fs as [cb tab code codes payload R1 _ _ _ _ _ _ _ ->].
    destruct (Arithmetic.startswith_RUN _) eqn:S; [|reflexivity].
    apply startswith_length in S; [contradiction | exact R1].
Qed.

(** X5. The Huffman encoder returns a blob for every input that misses a
    byte value and whose counts and lengths fit their fields, and decoding
    the blob gives the input back, unless the input has two distinct
    symbols or more and its length is one of the 256 lengths whose first
    three bytes are the RUN tag. *)
Theorem huffman_round_trip_total (data : list byte) :
  (length (Counter data) <= 255)%nat ->
  len data < 2 ^ 32 ->
  (Z.of_nat (length (Counter data)) - 1) * len data < 2 ^ 32 ->
  ((2 <= length (Counter data))%nat ->
   ~ 1381322240 <= len data < 1381322496) ->
  exists blob, Huffman.encode data = Ok blob /\ Huffman.decode blob = Ok data.
Proof. exact (huffman_round_trip_all data). Qed.

Lemma huffman_round_trip_total_witness :
  exists blob, Huffman.encode sample = Ok blob
               /\ Huffman.decode blob = Ok sample.
Proof.
  apply (huffman_round_trip_total sample).
  - vm_compute. lia.
  - vm_compute. reflexivity.
  - vm_compute. reflexivity.
  - intros _. vm_compute. intros [H _]. apply H. reflexivity.
Defined.

(** *** The tag read in the length field *)

Lemma repeat_symbols (b : byte) (m : nat) :
  (length (Counter (repeat b m)) <= 1)%nat.
Proof.
  destruct m as [|m]; [simpl; lia|]. rewrite Counter_repeat. simpl. lia.
Qed.

(** A blob that begins with a length that reads as the tag is decoded as
    a RUN record, to a run of one byte. *)
Lemma decode_tagged (line : nat) (n : Z) (rest : list byte) :
  0 <= n < 2 ^ 32 -> 1381322240 <= n < 1381322496 ->
  let blob := be_digits 4 n ++ rest in
  Arithmetic.startswith_RUN blob = true
  /\ Arithmetic.decode_run line blob
     = Ok (repeat (byte_wrap n)
                  (Z.to_nat (from_bytes (slice blob 4 8)))).
Proof.
  intros R T blob. split; [apply startswith_length; assumption|].
  unfold Arithmetic.decode_run, index. subst blob.
  cbn [be_digits app nth_error bind].
  change (256 ^ Z.of_nat 0) with 1. rewrite Z.div_1_r. reflexivity.
Qed.

(** The first three bytes of such a blob are the tag. *)
Lemma tagged_prefix (n : Z) (rest : list byte) :
  0 <= n < 2 ^ 32 -> 1381322240 <= n < 1381322496 ->
  firstn 3 (be_digits 4 n ++ rest) = Arithmetic.RUN.
Proof.
  intros R T. pose proof (proj2 (startswith_length n rest R) T) as S.
  cbn [be_digits app] in S. apply startswith_bytes in S.
  destruct S as (E1 & E2 & E3).
  cbn [be_digits app firstn]. rewrite E1, E2, E3. reflexivity.
Qed.

(** X6. For an input with two distinct symbols or more whose length is
    one of the 256 lengths from 1381322240 (0x52554E00) on, the blob that
    either encoder returns begins with the three bytes of the RUN tag,
    which are the top of its length field: the decoder takes it for a RUN
    record and returns a run of a single byte value (the lowest byte of
    the length, as many times as bytes 4 to 7 of the blob say), which is
    not the input. *)
Theorem run_tag_collision (data blob : list byte) :
  (2 <= length (Counter data))%nat ->
  1381322240 <= len data < 1381322496 ->
  let run := repeat (byte_wrap (len data))
                    (Z.to_nat (from_bytes (slice blob 4 8))) in
  (Huffman.encode data = Ok blob ->
   firstn 3 blob = Arithmetic.RUN
   /\ Arithmetic.startswith_RUN blob = true
   /\ Huffman.decode blob = Ok run
   /\ run <> data)
  /\ (Arithmetic.encode data = Ok blob ->
      firstn 3 blob = Arithmetic.RUN
      /\ Arithmetic.startswith_RUN blob = true
      /\ Arithmetic.decode blob = Ok run
      /\ run <> data).
Proof.
  intros H2 T run.
  assert (R : 0 <= len data < 2 ^ 32) by (change (2 ^ 32) with 4294967296; lia).
  assert (D : run <> data).
  { intros E. pose proof (repeat_symbols (byte_wrap (len data))
                            (Z.to_nat (from_bytes (slice blob 4 8)))) as Q.
    fold run in Q. rewrite E in Q. lia. }
  split; intros E.
  - destruct (encode_general data H2) as (canon & lengths & _ & _ & W).
    rewrite W in E. apply write_record_fields in E.
    destruct E as [cb tab code codes payload _ _ _ _ _ _ _ _ Eb].
    subst run. rewrite Eb in *.
    match goal with |- context [be_digits 4 (len data) ++ ?r] =>
      set (rest := r) in * end.
    destruct (decode_tagged 94 (len data) rest R T) as [S Dr].
    split; [exact (tagged_prefix (len data) rest R T)|].
    split; [exact S|]. split; [|exact D].
    unfold Huffman.decode.
    destruct (be_digits 4 (len data) ++ rest) eqn:Ed; [discriminate|].
    rewrite S. exact Dr.
  - destruct (ArithRoundTrip.encode_parts data blob H2 E)
      as (st & code_bits & cb & h_tab & _ & _ & _ & _ & _ & Eb).
    subst run. rewrite Eb in *.
    match goal with |- context [be_digits 4 (len data) ++ ?r] =>
      set (rest := r) in * end.
    destruct (decode_tagged 146 (len data) rest R T) as [S Dr].
    split; [exact (tagged_prefix (len data) rest R T)|].
    split; [exact S|]. split; [|exact D].
    unfold Arithmetic.decode.
    destruct (be_digits 4 (len data) ++ rest) eqn:Ed; [discriminate|].
    rewrite S. exact Dr.
Qed.

(** An input of 1381322240 bytes: a zero, then ones. *)
Lemma tagged_input (n : nat) :
  Z.of_nat n = 1381322238 ->
  let data := x00 :: x01 :: repeat x01 n in
  length (Counter data) = 2%nat /\ len data = 1381322240.
Proof.
  intros Hn data. subst data. split.
  - change (x00 :: x01 :: repeat x01 n) with ([x00; x01] ++ repeat x01 n).
    rewrite Counter_app.
    change (Counter [x00; x01]) with [(0, 1); (1, 1)].
    rewrite (tally_repeat x01 n _ 1) by reflexivity. reflexivity.
  - unfold len. cbn [length]. rewrite repeat_length. lia.
Qed.

Lemma run_tag_collision_witness :
  let data := x00 :: x01 :: repeat x01 (Z.to_nat 1381322238) in
  (exists blob b m, Huffman.encode data = Ok blob
                    /\ firstn 3 blob = Arithmetic.RUN
                    /\ Huffman.decode blob = Ok (repeat b m)
                    /\ repeat b m <> data)
  /\ (exists blob b m, Arithmetic.encode data = Ok blob
                       /\ firstn 3 blob = Arithmetic.RUN
                       /\ Arithmetic.decode blob = Ok (repeat b m)
                       /\ repeat b m <> data).
Proof.
  intros data. subst data.
  assert (Hn : Z.of_nat (Z.to_nat 1381322238) = 1381322238) by lia.
  generalize dependent (Z.to_nat 1381322238). intros n Hn.
  destruct (tagged_input n Hn) as [C L]. cbv zeta in C, L.
  set (data := x00 :: x01 :: repeat x01 n) in *.
  assert (H2 : (2 <= length (Counter data))%nat) by lia.
  assert (T : 1381322240 <= len data < 1381322496) by lia.
  split.
  - destruct (huffman_accepts data) as [blob E];
      [lia | rewrite C, L; reflexivity|].
    pose proof (run_tag_collision data blob H2 T) as Q. cbv zeta in Q.
    destruct Q as [H _]. destruct (H E) as (P & _ & Dc & Ne).
    exists blob. eexists. eexists.
    split; [exact E|]. split; [exact P|]. split; [exact Dc | exact Ne].
  - destruct (arithmetic_accepts data) as [blob E];
      [lia | rewrite L; reflexivity|].
    pose proof (run_tag_collision data blob H2 T) as Q. cbv zeta in Q.
    destruct Q as [_ A]. destruct (A E) as (P & _ & Dc & Ne).
    exists blob. eexists. eexists.
    split; [exact E|]. split; [exact P|]. split; [exact Dc | exact Ne].
Defined.

End HuffRecord.

(** ** Bits written, packed and read back *)

Module BitRoundTrip.
Import Arithmetic Sink BitIO Follow.

(** The calls a user of [_BitOut] makes. *)
Inductive sink_op : Type :=
| Put (bit : Z)
| Extend (bit : Z) (n : Z).

Definition sink_do (bits : _BitOut.t) (o : sink_op) : _BitOut.t :=
  match o with
  | Put b => _BitOut.put bits b
  | Extend b n => _BitOut.extend bits b n
  end.

(** The bits a call stands for: the lowest bit of its argument, once or
    [n] times. *)
Definition op_bits (o : sink_op) : list Z :=
  match o with
  | Put b => [b mod 2]
  | Extend b n => repeat (b mod 2) (Z.to_nat n)
  end.

Lemma land_1_mod (b : Z) : Z.land b 1 = b mod 2.
Proof. change 1 with (Z.ones 1). rewrite Z.land_ones by lia. reflexivity. Qed.

Lemma sink_bits (ops : list sink_op) (bits : _BitOut.t) :
  fold_left sink_do ops bits = bits ++ flat_map op_bits ops.
Proof.
  revert bits. induction ops as [|o ops IH]; intros bits.
  - cbn. symmetry. apply app_nil_r.
  - cbn [fold_left flat_map]. rewrite IH, app_assoc. f_equal.
    destruct o; cbn [sink_do op_bits]; unfold _BitOut.put, _BitOut.extend;
      rewrite land_1_mod; reflexivity.
Qed.

Lemma op_bits_bits (ops : list sink_op) : Forall is_bit (flat_map op_bits ops).
Proof.
  apply Forall_forall. intros x Hx. apply in_flat_map in Hx.
  destruct Hx as (o & _ & Hx).
  assert (B : forall b, is_bit (b mod 2)).
  { intros b. pose proof (Z.mod_pos_bound b 2 eq_refl). unfold is_bit. lia. }
  destruct o; cbn [op_bits] in Hx.
  - destruct Hx as [<-|[]]. apply B.
  - apply repeat_spec in Hx. subst. apply B.
Qed.

(** X7. Whatever is written to a bit sink by [put] and [extend], [finish]
    returns one byte for every eight bits written (the last one padded),
    and a bit source over these bytes reads the bits back in order: the
    lowest bit of each argument, then zeros for ever. *)
Theorem bit_sink_round_trip (ops : list sink_op) (k : nat) :
  let written := flat_map op_bits ops in
  exists bs,
    _BitOut.finish (fold_left sink_do ops _BitOut.init) = Ok bs
    /\ length bs = ((length written + 7) / 8)%nat
    /\ fst (reads k (_BitIn.init bs))
       = map (fun j => nth j written 0) (seq 0 k).
Proof.
  intros written. rewrite sink_bits. cbn [_BitOut.init app]. fold written.
  pose proof (op_bits_bits ops) as F. fold written in F.
  destruct (finish_ok written F) as [bs E]. exists bs.
  destruct (finish_init written bs F E) as [Eb L].
  split; [exact E|]. split; [exact L|].
  rewrite reads_from. apply map_ext. intros j.
  rewrite Eb. cbn [_BitIn.init _BitIn.idx Nat.add]. apply nth_padded.
Qed.

End BitRoundTrip.

Module PackRoundTrip.
Import Huffman Pack HuffRecord.

(** The bit string rebuilt from the bytes of [_pack_bits]: the bits,
    then the padding of the last byte. *)
Lemma pack_unpack_full (n : nat) (bits : list bool) (bytes : list byte) :
  (length bits <= 8 * n)%nat -> _pack_bits bits = Ok bytes ->
  bits_of_bytes bytes
  = bits ++ repeat false (8 * length bytes - length bits).
Proof.
  revert bits bytes. induction n as [|n IH]; intros bits bytes L E.
  - destruct bits; [|simpl in L; lia]. injection E as <-. reflexivity.
  - destruct bits as [|b0 bits0].
    { injection E as <-. reflexivity. }
    remember (b0 :: bits0) as bits eqn:Eb.
    assert (NE : bits <> []) by (rewrite Eb; discriminate).
    assert (Pos : (0 < length bits)%nat) by (rewrite Eb; simpl; lia).
    rewrite (pack_bits_step bits NE) in E.
    destruct (_pack_bits (skipn 8 bits)) as [rest|] eqn:Er; [|discriminate].
    cbn [bind] in E.
    assert (Ebytes : bytes = chunk_byte (firstn 8 bits) :: rest) by congruence.
    subst bytes. clear E.
    destruct (pack_unpack n (skipn 8 bits) rest) as [_ Lr];
      [rewrite length_skipn; lia | exact Er |].
    specialize (IH (skipn 8 bits) rest).
    rewrite length_skipn in IH, Lr.
    change (bits_of_bytes (chunk_byte (firstn 8 bits) :: rest))
      with (bits_of_bytes [chunk_byte (firstn 8 bits)] ++ bits_of_bytes rest).
    rewrite bits_of_chunk by apply firstn_le_length.
    rewrite IH by (auto; lia). cbn [length].
    destruct (Nat.le_gt_cases (length bits) 8) as [Le|Gt].
    + replace (length bits - 8)%nat with 0%nat in * by lia.
      change ((0 + 7) / 8)%nat with 0%nat in Lr.
      destruct rest; [|discriminate]. cbn [length].
      rewrite firstn_all2 by exact Le. rewrite skipn_all2 by exact Le.
      unfold ljust8. cbn [app repeat Nat.mul Nat.sub]. rewrite app_nil_r.
      f_equal.
    + assert (L8 : length (firstn 8 bits) = 8%nat)
        by (rewrite length_firstn; lia).
      unfold ljust8. rewrite L8. cbn [Nat.sub repeat]. rewrite app_nil_r.
      rewrite app_assoc, firstn_skipn. f_equal. f_equal.
      assert ((length bits - 8 + 7) / 8 * 8 >= length bits - 8)%nat; [|lia].
      pose proof (Nat.div_mod_eq (length bits - 8 + 7) 8).
      pose proof (Nat.mod_upper_bound (length bits - 8 + 7) 8). lia.
Qed.

(** X8. [_pack_bits] never fails: it writes one byte for every eight
    bits (the last one padded), and the bit string the decoder rebuilds
    from these bytes is the bits that were packed, followed by the zeros
    that pad the last byte. *)
Theorem pack_bits_round_trip (bits : list bool) :
  exists bytes,
    _pack_bits bits = Ok bytes
    /\ length bytes = ((length bits + 7) / 8)%nat
    /\ bits_of_bytes bytes
       = bits ++ repeat false (8 * length bytes - length bits).
Proof.
  destruct (pack_bits_ok bits) as [bytes E]. exists bytes.
  destruct (pack_unpack (length bits) bits bytes) as [_ L]; [lia | exact E|].
  split; [exact E|]. split; [exact L|].
  apply (pack_unpack_full (length bits)); [lia | exact E].
Qed.

End PackRoundTrip.

(** ** What the Huffman decoder does with any blob *)

Module HuffAnyBlob.
Import Huffman Accepts.

Lemma set_values {K V} (eqb : K -> K -> bool) (d : list (K * V)) (k : K)
    (v x : V) :
  In x (map snd (set eqb d k v)) -> In x (map snd d) \/ x = v.
Proof.
  induction d as [|[k' v'] d IH]; cbn [set map snd In].
  - intros [H|[]]; auto.
  - destruct (eqb k k'); cbn [map snd In].
    + intros [H|H]; auto.
    + intros [H|H]; auto. destruct (IH H); auto.
Qed.

Lemma value_of_get {K V} (eqb : K -> K -> bool) (d : list (K * V)) (k : K)
    (v : V) :
  get eqb d k = Some v -> In v (map snd d).
Proof.
  induction d as [|[k' v'] d IH]; cbn [get map snd In]; [discriminate|].
  destruct (eqb k k'); [intros [= ->]; auto | auto].
Qed.

(** The table holds symbols of the pairs only. *)
Lemma table_loop_values (order : list (Z * Z)) (table : list (list bool * Z))
    (code prev : Z) (x : Z) :
  In x (map snd (table_loop order table code prev)) ->
  In x (map snd table) \/ In x (map fst order).
Proof.
  revert table code prev.
  induction order as [|[sym ln] order IH]; intros table code prev H;
    [left; exact H|].
  cbn [table_loop] in H. apply IH in H. cbn [map fst In].
  destruct H as [H|H]; [|auto].
  apply set_values in H. destruct H as [H| ->]; auto.
Qed.

Lemma dec_table_values (ps : list (Z * Z)) (x : Z) :
  In x (map snd (dec_table ps)) -> In x (map fst ps).
Proof.
  unfold dec_table. intros H. apply table_loop_values in H.
  destruct H as [[]|H].
  eapply Permutation_in; [|exact H].
  apply Permutation_map, Permutation_sym, sorted_perm.
Qed.

(** The loop appends symbols of the table only, one per bit at most,
    and stops at the declared length. *)
Lemma dec_loop_out (table : list (list bool * Z)) (n : Z)
    (bits : list bool) (out : list Z) (cur : list bool) :
  let r := dec_loop table n bits out cur in
  (forall x, In x r -> In x out \/ In x (map snd table))
  /\ (length r <= length out + length bits)%nat
  /\ (len out < n -> len r <= n).
Proof.
  revert out cur. induction bits as [|bit bits IH]; intros out cur; cbv zeta.
  - cbn [dec_loop length]. split; [|split].
    + intros x Hx. left. apply in_rev. exact Hx.
    + rewrite length_rev. lia.
    + unfold len. rewrite length_rev. lia.
  - cbn [dec_loop length].
    destruct (get bits_eqb table (cur ++ [bit])) as [s|] eqn:G.
    + destruct (Z.eqb_spec (len (s :: out)) n) as [E|E].
      * split; [|split].
        -- intros x Hx. apply in_rev in Hx. destruct Hx as [<-|Hx]; auto.
           right. exact (value_of_get _ _ _ _ G).
        -- rewrite length_rev. cbn [length]. lia.
        -- unfold len in *. rewrite length_rev. lia.
      * destruct (IH (s :: out) []) as (A & B & C). split; [|split].
        -- intros x Hx. destruct (A x Hx) as [[<-|H]|H]; auto.
           right. exact (value_of_get _ _ _ _ G).
        -- cbn [length] in B. lia.
        -- intros L. apply C. unfold len in *. cbn [length] in *. lia.
    + destruct (IH out (cur ++ [bit])) as (A & B & C). split; [|split]; auto.
      lia.
Qed.

(** Reading the (symbol, length) pairs: all of them are there, or the
    read runs past the end. *)
Lemma parse_pairs_total (mv : list byte) (cnt i : nat) :
  (i <= length mv)%nat ->
  if (i + 2 * cnt <=? length mv)%nat
  then exists ps, parse_pairs mv cnt i = Ok ps
                  /\ Forall (fun p => 0 <= fst p < 256) ps
  else exists l, parse_pairs mv cnt i = Raise IndexError l
                 /\ (l = 106 \/ l = 107)%nat.
Proof.
  revert i. induction cnt as [|cnt IH]; intros i Hi.
  - replace (i + 2 * 0 <=? length mv)%nat with true
      by (symmetry; apply Nat.leb_le; lia).
    exists []. split; [reflexivity | constructor].
  - cbn [parse_pairs]. unfold index.
    destruct (nth_error mv i) as [s|] eqn:E1.
    2:{ apply nth_error_None in E1.
        replace (i + 2 * S cnt <=? length mv)%nat with false
          by (symmetry; apply Nat.leb_gt; lia).
        exists 106%nat. split; [reflexivity | auto]. }
    assert (L1 : (i < length mv)%nat)
      by (apply nth_error_Some; rewrite E1; discriminate).
    cbn [bind].
    destruct (nth_error mv (i + 1)) as [l|] eqn:E2.
    2:{ apply nth_error_None in E2.
        replace (i + 2 * S cnt <=? length mv)%nat with false
          by (symmetry; apply Nat.leb_gt; lia).
        exists 107%nat. split; [reflexivity | auto]. }
    assert (L2 : (i + 1 < length mv)%nat)
      by (apply nth_error_Some; rewrite E2; discriminate).
    cbn [bind]. specialize (IH (i + 2)%nat ltac:(lia)).
    replace (i + 2 * S cnt <=? length mv)%nat
      with (i + 2 + 2 * cnt <=? length mv)%nat by (f_equal; lia).
    destruct (i + 2 + 2 * cnt <=? length mv)%nat.
    + destruct IH as (ps & -> & F). cbn [bind]. eexists. split; [reflexivity|].
      constructor; [cbn [fst]; apply byte_val_range | exact F].
    + destruct IH as (ln & -> & Hl). exists ln. split; [reflexivity | exact Hl].
Qed.

(** The blobs the decoder reads to the end: the empty blob, a blob with
    the tag and a fourth byte, and a blob that holds its count byte and
    the pairs the count announces. *)
Definition readable (blob : list byte) : bool :=
  match blob with
  | [] => true
  | _ =>
      if Arithmetic.startswith_RUN blob then (4 <=? length blob)%nat
      else
        match nth_error blob 4 with
        | Some cb => (5 + 2 * Z.to_nat (byte_val cb) <=? length blob)%nat
        | None => false
        end
  end.

Lemma bytes_of_ints_ok (line : nat) (l : list Z) :
  Forall (fun x => 0 <= x < 256) l -> exists bs, bytes_of_ints line l = Ok bs
                                                 /\ length bs = length l.
Proof.
  intros F. unfold bytes_of_ints. apply mapM_ok. intros x Hx.
  rewrite Forall_forall in F. apply byte_of_int_ok, F, Hx.
Qed.

Lemma bits_of_bytes_length (bs : list byte) :
  length (bits_of_bytes bs) = (8 * length bs)%nat.
Proof.
  unfold bits_of_bytes. induction bs as [|b bs IH]; [reflexivity|].
  cbn [flat_map]. rewrite length_app, IH. cbn [length map]. lia.
Qed.

Lemma slice_length {A} (l : list A) (i j : nat) :
  (length (slice l i j) <= length l)%nat.
Proof.
  unfold slice. rewrite length_firstn, length_skipn. lia.
Qed.

(** X9. The Huffman decoder raises nothing but [IndexError], and only
    when the blob ends before the fourth byte of a RUN record, before the
    count byte or within the (symbol, length) pairs the count announces:
    every other blob is decoded, whatever follows the pairs.  A decoded
    blob without the tag gives at most one byte per payload bit, so at
    most eight per byte of the blob, and no more than the length its
    first four bytes declare when that is not zero. *)
Theorem huffman_decode_any_blob (blob : list byte) :
  if readable blob
  then exists out,
         Huffman.decode blob = Ok out
         /\ (Arithmetic.startswith_RUN blob = false ->
             (length out <= 8 * length blob)%nat
             /\ (1 <= from_bytes (slice blob 0 4) ->
                 len out <= from_bytes (slice blob 0 4)))
  else exists l, Huffman.decode blob = Raise IndexError l
                 /\ (l = 94 \/ l = 101 \/ l = 106 \/ l = 107)%nat.
Proof.
  unfold readable, Huffman.decode.
  destruct blob as [|b0 blob0]; [exists []; split; [reflexivity|]; intros _; split; [simpl; lia | cbn; lia]|].
  set (blob := b0 :: blob0).
  destruct (Arithmetic.startswith_RUN blob) eqn:S.
  - unfold Arithmetic.decode_run, index.
    destruct (Nat.leb_spec 4 (length blob)) as [L|L].
    + destruct (nth_error blob 3) as [sym|] eqn:E.
      * eexists. split; [reflexivity | discriminate].
      * apply nth_error_None in E. lia.
    + destruct (nth_error blob 3) as [sym|] eqn:E.
      * assert (3 < length blob)%nat
          by (apply nth_error_Some; rewrite E; discriminate). lia.
      * exists 94%nat. split; [reflexivity | auto].
  - unfold parse_header, index. cbv zeta.
    change (0 + 4 + 1)%nat with 5%nat. change (0 + 4)%nat with 4%nat.
    destruct (nth_error blob 4) as [cb|] eqn:E4.
    2:{ exists 101%nat. split; [reflexivity | auto]. }
    assert (L5 : (5 <= length blob)%nat).
    { assert (4 < length blob)%nat
        by (apply nth_error_Some; rewrite E4; discriminate). lia. }
    cbn [bind].
    pose proof (parse_pairs_total blob (Z.to_nat (byte_val cb)) 5 L5) as P.
    destruct (5 + 2 * Z.to_nat (byte_val cb) <=? length blob)%nat.
    + destruct P as (ps & -> & F). cbn [bind pairs orig_len payload_bits].
      match goal with |- context [dec_loop ?t ?n ?b [] []] =>
        destruct (dec_loop_out t n b [] []) as (A & B & C);
        set (r := dec_loop t n b [] []) in *;
        set (bits := b) in * end.
      destruct (bytes_of_ints_ok 134 r) as (out & -> & Lo).
      { apply Forall_forall. intros x Hx.
        destruct (A x Hx) as [[]|H]. apply dec_table_values in H.
        rewrite Forall_forall in F. apply in_map_iff in H.
        destruct H as (p & <- & Hp). apply F, Hp. }
      exists out. split; [reflexivity|]. intros _. split.
      * rewrite Lo. cbn [length] in B.
        assert (length bits <= 8 * length blob)%nat; [|lia].
        unfold bits. rewrite length_firstn, bits_of_bytes_length.
        match goal with
        | |- (Nat.min _ (8 * length (slice blob ?i ?j)) <= _)%nat =>
            pose proof (slice_length blob i j)
        end.
        lia.
      * intros N. unfold len in *. rewrite Lo. apply C. cbn [length]. lia.
    + destruct P as (l & -> & Hl). exists l. split; [reflexivity|].
      destruct Hl; auto.
Qed.

End HuffAnyBlob.

(** ** What the arithmetic decoder does with any blob *)

Module ArithAnyBlob.
Import Arithmetic Interval DecRun Accepts.

Lemma from_bytes_nonneg (l : list byte) : 0 <= from_bytes l.
Proof.
  unfold from_bytes.
  assert (G : forall l acc, 0 <= acc ->
            0 <= fold_left (fun acc b => acc * 256 + byte_val b) l acc).
  { induction l0 as [|b l0 IH]; intros acc H; [exact H|].
    cbn [fold_left]. apply IH. pose proof (byte_val_range b). lia. }
  apply G. lia.
Qed.

Lemma set_keys (d : list (Z * Z)) (k v x : Z) :
  In x (keys d) \/ x = k -> In x (keys (set Z.eqb d k v)).
Proof.
  induction d as [|[k' v'] d IH]; cbn [set keys map fst In].
  - intros [[]|H]; auto.
  - destruct (Z.eqb_spec k k') as [->|Hne]; cbn [keys map fst In].
    + intros [[H|H]|H]; auto.
    + intros [[H|H]|H]; auto; right; apply IH; auto.
Qed.

Lemma update_keys (d e : list (Z * Z)) (x : Z) :
  In x (keys d) \/ In x (keys e) -> In x (keys (update Z.eqb d e)).
Proof.
  unfold update. revert d. induction e as [|[k v] e IH]; intros d H.
  - destruct H as [H|[]]. exact H.
  - cbn [fold_left fst snd]. apply IH. cbn [keys map fst In] in H.
    destruct H as [H|[H|H]]; auto; left; apply set_keys; auto.
Qed.

(** Reading the table raises nothing but [IndexError], and leaves a
    frequency for every symbol. *)
Lemma parse_table_any (mv : list byte) (sc i : nat) (symbols : list Z)
    (freq : list (Z * Z)) (total : Z) :
  match parse_table mv sc i symbols freq total with
  | Ok (symbols', freq', _, _) =>
      (forall s, In s symbols -> In s (keys freq) /\ 0 <= s < 256) ->
      forall s, In s symbols' -> In s (keys freq') /\ 0 <= s < 256
  | Raise e l => e = IndexError /\ l = 158%nat
  end.
Proof.
  destruct (parse_table mv sc i symbols freq total) as [[[[sy fr] to] j]|e l]
    eqn:E.
  - destruct (parse_table_entries _ _ _ _ _ _ _ E) as (ents & Er & F).
    injection Er as -> -> _ _. intros H s Hs.
    apply in_app_or in Hs. destruct Hs as [Hs|Hs].
    + destruct (H s Hs) as [K R]. split; [|exact R].
      apply update_keys. auto.
    + split; [apply update_keys; auto|].
      rewrite Forall_forall in F. unfold keys in Hs. apply in_map_iff in Hs.
      destruct Hs as (kv & <- & Hkv). apply F, Hkv.
  - revert i symbols freq total E. induction sc as [|sc IH];
      intros i symbols freq total E; [discriminate|].
    cbn [parse_table] in E. unfold index in E.
    destruct (nth_error mv i); cbn [bind] in E.
    + apply (IH _ _ _ _ E).
    + injection E as <- <-. split; reflexivity.
Qed.

(** The cumulative table: an entry for every symbol, and no error. *)
Lemma dec_cum_any (symbols : list Z) (freq : list (Z * Z)) :
  (forall s, In s symbols -> In s (keys freq)) ->
  exists cum, dec_cum symbols freq = Ok cum
              /\ forall s, In s symbols -> In s (keys cum).
Proof.
  intros K. unfold dec_cum.
  set (go := fix go (l : list Z) (cum : list (Z * Z)) (run : Z) := _).
  assert (G : forall l cum run,
            (forall s, In s l -> In s (keys freq)) ->
            exists r, go l cum run = Ok r
                      /\ forall s, In s (keys cum) \/ In s l ->
                                   In s (keys (fst r))).
  { induction l as [|s l IH]; intros cum run Kl.
    - exists (cum, run). split; [reflexivity|]. intros s [H|[]]. exact H.
    - cbn [go]. fold go. unfold getitem.
      destruct (get_Some_key freq s (Kl s (or_introl eq_refl))) as [f ->].
      cbn [bind].
      destruct (IH (set Z.eqb cum s run) (run + f)) as (r & -> & Hr);
        [intros x Hx; apply Kl; simpl; auto|].
      exists r. split; [reflexivity|]. intros x Hx. apply Hr.
      destruct Hx as [Hx|[<-|Hx]]; auto; left; apply set_keys; auto. }
  destruct (G (sorted Z.leb symbols) [] 0) as (r & -> & Hr).
  { intros s Hs. apply K.
    eapply Permutation_in; [symmetry; apply sorted_perm | exact Hs]. }
  cbn [bind]. exists (fst r). split; [reflexivity|].
  intros s Hs. apply Hr. right.
  eapply Permutation_in; [apply sorted_perm | exact Hs].
Qed.

Section Loop.
Variables (h : header) (cum : list (Z * Z)).
Hypothesis in_freq : forall s, In s (h_symbols h) -> In s (keys (h_freq h)).
Hypothesis in_cum : forall s, In s (h_symbols h) -> In s (keys cum).
Hypothesis in_range : forall s, In s (h_symbols h) -> 0 <= s < 256.

(** The symbol bound to [s], if any, is one of the table. *)
Definition bound (s0 : option Z) : Prop :=
  match s0 with
  | Some s => In s (h_symbols h)
  | None => True
  end.

Lemma dec_scan_any (scaled : Z) (l : list Z) (cur : option Z) :
  incl l (h_symbols h) -> bound cur ->
  exists r, dec_scan (h_freq h) cum scaled l cur = Ok r /\ bound r.
Proof.
  revert cur. induction l as [|s l IH]; intros cur Hin B.
  - exists cur. split; [reflexivity | exact B].
  - assert (Hs : In s (h_symbols h)) by (apply Hin; simpl; auto).
    cbn [dec_scan]. unfold getitem.
    destruct (get_Some_key cum s (in_cum s Hs)) as [c ->].
    destruct (get_Some_key (h_freq h) s (in_freq s Hs)) as [f ->].
    cbn [bind].
    destruct ((scaled <? c + f) && (c <=? scaled)).
    + exists (Some s). split; [reflexivity | exact Hs].
    + apply IH; [intros x Hx; apply Hin; simpl; auto | exact Hs].
Qed.

(** The errors one pass of the decoding loop can raise. *)
Definition loop_error (e : exn) (l : nat) : Prop :=
  (e = ZeroDivisionError /\ (l = 179 \/ l = 186)%nat)
  \/ (e = UnboundLocalError /\ l = 183%nat).

Lemma dec_symbol_any (s0 : option Z) (st : dec_state) :
  bound s0 ->
  match dec_symbol h cum s0 st with
  | Ok (_, s, _) => In s (h_symbols h)
  | Raise e l => loop_error e l
  end.
Proof.
  intros B. unfold dec_symbol, floordiv.
  destruct (d_high st - d_low st + 1 =? 0);
    [left; split; [reflexivity | auto]|].
  cbn [bind].
  match goal with |- context [dec_scan _ _ ?sc _ _] =>
    destruct (dec_scan_any sc (h_symbols h) s0 (incl_refl _) B)
      as (r & -> & Br) end.
  cbn [bind]. destruct r as [s|]; [|right; split; reflexivity].
  cbn [bound] in Br.
  destruct (byte_of_int_ok 183 s (in_range s Br)) as [b ->]. cbn [bind].
  unfold dec_narrow, getitem, floordiv.
  destruct (get_Some_key cum s (in_cum s Br)) as [c ->]. cbn [bind].
  destruct (h_total h =? 0); [left; split; [reflexivity | auto]|].
  cbn [bind].
  destruct (get_Some_key (h_freq h) s (in_freq s Br)) as [f ->]. cbn [bind].
  match goal with |- context [dec_renorm renorm_fuel ?s1] =>
    destruct (dec_renorm_total s1) as [st2 ->] end.
  exact Br.
Qed.

Lemma dec_loop_any (k : nat) (s0 : option Z) (st : dec_state) :
  bound s0 ->
  match dec_loop h cum k s0 st with
  | Ok out => length out = k
  | Raise e l => loop_error e l
  end.
Proof.
  revert s0 st. induction k as [|k IH]; intros s0 st B; [reflexivity|].
  cbn [dec_loop]. pose proof (dec_symbol_any s0 st B) as S.
  destruct (dec_symbol h cum s0 st) as [[[b s] st']|e l]; [|exact S].
  cbn [bind]. specialize (IH (Some s) st' S).
  destruct (dec_loop h cum k (Some s) st') as [rest|e l]; [|exact IH].
  cbn [bind length]. congruence.
Qed.

End Loop.

Lemma last_bound (h : header) : bound h (last (map Some (h_symbols h)) None).
Proof.
  destruct (h_symbols h) as [|x l] eqn:E; [exact I|].
  assert (H : In (last (map Some (x :: l)) None) (map Some (x :: l))).
  { destruct (exists_last (l := map Some (x :: l))) as (l' & a & El);
      [discriminate|].
    rewrite El, last_last. apply in_or_app. right. left. reflexivity. }
  apply in_map_iff in H. destruct H as (s & <- & Hs).
  unfold bound. rewrite E. exact Hs.
Qed.

(** X10. Whatever the blob, the arithmetic decoder raises nothing but
    [IndexError] (the blob ends within its header), [ZeroDivisionError]
    (the width of the interval or the total frequency is zero) or
    [UnboundLocalError] (the table is empty): no key is ever missing and
    no byte is ever out of range.  When it returns, and the blob does not
    begin with the tag, the output has exactly the length that the first
    four bytes of the blob declare. *)
Theorem arithmetic_decode_any_blob (blob : list byte) :
  match Arithmetic.decode blob with
  | Ok out =>
      startswith_RUN blob = false -> len out = from_bytes (slice blob 0 4)
  | Raise e l =>
      (e = IndexError /\ (l = 146 \/ l = 153 \/ l = 158)%nat)
      \/ (e = ZeroDivisionError /\ (l = 179 \/ l = 186)%nat)
      \/ (e = UnboundLocalError /\ l = 183%nat)
  end.
Proof.
  unfold Arithmetic.decode.
  destruct blob as [|b0 blob0]; [intros _; reflexivity|].
  set (blob := b0 :: blob0).
  destruct (startswith_RUN blob) eqn:S.
  - unfold decode_run, index. destruct (nth_error blob 3); cbn [bind].
    + discriminate.
    + left. split; [reflexivity | auto].
  - unfold parse_header, index.
    destruct (nth_error blob 4) as [sc|]; cbn [bind];
      [|left; split; [reflexivity | auto]].
    pose proof (parse_table_any blob (Z.to_nat (byte_val sc)) 5 [] [] 0) as P.
    destruct (parse_table blob (Z.to_nat (byte_val sc)) 5 [] [] 0)
      as [[[[symbols freq] total] i]|e l].
    2:{ destruct P as [-> ->]. cbn [bind]. left. split; [reflexivity | auto]. }
    cbn [bind]. specialize (P (fun s (H : In s []) => match H with end)).
    set (h := mkHeader _ symbols freq total i).
    destruct (dec_cum_any symbols freq (fun s Hs => proj1 (P s Hs)))
      as (cum & Ec & Kc).
    cbn [h_symbols h_freq h]. rewrite Ec. cbn [bind].
    pose proof (dec_loop_any h cum (fun s Hs => proj1 (P s Hs)) Kc
                  (fun s Hs => proj2 (P s Hs))
                  (Z.to_nat (h_n h)) _ (dec_init h blob) (last_bound h)) as L.
    cbn [h_symbols h] in L.
    destruct (dec_loop h cum (Z.to_nat (h_n h))
                (last (map Some symbols) None) (dec_init h blob)) as [out|e l].
    + intros _. unfold len. rewrite L. cbn [h_n h].
      apply Z2Nat.id, from_bytes_nonneg.
    + right. destruct L as [L|L]; auto.
Qed.

End ArithAnyBlob.

(** ** The tree that [_build_tree] returns *)

Module TreeSpec.
Import Huffman HeapFacts Tree.

(** The (symbol, frequency) pairs at the leaves, left to right. *)
Fixpoint leaves (t : _Node) : list (Z * Z) :=
  match t with
  | Leaf f s => [(s, f)]
  | Branch _ l r => leaves l ++ leaves r
  end.

(** Every internal node carries the sum of its children's frequencies. *)
Fixpoint weighted (t : _Node) : Prop :=
  match t with
  | Leaf _ _ => True
  | Branch f l r => f = freq l + freq r /\ weighted l /\ weighted r
  end.

Lemma weighted_freq (t : _Node) :
  weighted t -> freq t = sumZ (values (leaves t)).
Proof.
  induction t as [f s|f l IHl r IHr]; cbn [weighted leaves freq].
  - intros _. cbn. lia.
  - intros (E & Wl & Wr). unfold values. rewrite map_app, sumZ_app.
    fold (values (leaves l)). fold (values (leaves r)).
    rewrite <- IHl, <- IHr by assumption. exact E.
Qed.

Lemma flat_leaves_perm (h1 h2 : list _Node) :
  Permutation h1 h2 ->
  Permutation (flat_map leaves h1) (flat_map leaves h2).
Proof.
  induction 1; simpl.
  - reflexivity.
  - apply Permutation_app_head. assumption.
  - rewrite !app_assoc. apply Permutation_app_tail, Permutation_app_comm.
  - etransitivity; eassumption.
Qed.

Lemma Forall_perm {A} (P : A -> Prop) (a b : list A) :
  Permutation a b -> Forall P a -> Forall P b.
Proof.
  intros H F. apply Forall_forall. intros x Hx. rewrite Forall_forall in F.
  apply F. eapply Permutation_in; [symmetry; exact H | exact Hx].
Qed.

Lemma build_loop_weighted (fuel : nat) (heap : list _Node) :
  (length heap <= fuel)%nat -> heap <> [] -> Forall weighted heap ->
  exists root, build_loop fuel heap = Ok [root]
               /\ Permutation (flat_map leaves heap) (leaves root)
               /\ weighted root.
Proof.
  revert heap. induction fuel as [|fuel IH]; intros heap L NE W.
  - destruct heap; [congruence | simpl in L; lia].
  - cbn [build_loop]. destruct (1 <? length heap)%nat eqn:E.
    + apply Nat.ltb_lt in E.
      destruct (heappop_ok 146 heap NE) as (n1 & h1 & -> & P1). cbn [bind].
      assert (L1 : length heap = S (length h1))
        by (rewrite (Permutation_length P1); reflexivity).
      assert (NE1 : h1 <> []) by (destruct h1; [simpl in L1; lia | congruence]).
      destruct (heappop_ok 146 h1 NE1) as (n2 & h2 & -> & P2). cbn [bind].
      assert (L2 : length h1 = S (length h2))
        by (rewrite (Permutation_length P2); reflexivity).
      set (m := Branch (freq n1 + freq n2) n1 n2).
      pose proof (heappush_perm lt (Leaf 0 0) h2 m) as P3.
      fold (heappush h2 m) in P3.
      assert (L3 : length (heappush h2 m) = S (length h2))
        by (rewrite <- (Permutation_length P3); reflexivity).
      pose proof (Forall_perm _ _ _ P1 W) as W1.
      inversion W1 as [|? ? Wn1 Wh1]; subst.
      pose proof (Forall_perm _ _ _ P2 Wh1) as W2.
      inversion W2 as [|? ? Wn2 Wh2]; subst.
      destruct (IH (heappush h2 m)) as (root & -> & P & Wr).
      * lia.
      * intros E0. rewrite E0 in L3. discriminate.
      * apply (Forall_perm _ _ _ P3). constructor; [|exact Wh2].
        cbn [weighted m]. auto.
      * exists root. split; [reflexivity|]. split; [|exact Wr].
        rewrite <- P, <- (flat_leaves_perm _ _ P3).
        rewrite (flat_leaves_perm _ _ P1). cbn [flat_map].
        rewrite (flat_leaves_perm _ _ P2). cbn [flat_map leaves m].
        rewrite app_assoc. reflexivity.
    + apply Nat.ltb_ge in E. destruct heap as [|root [|y heap]];
        [congruence | | simpl in E; lia].
      exists root. split; [reflexivity|]. split.
      * simpl. rewrite app_nil_r. reflexivity.
      * inversion W; assumption.
Qed.

Lemma leaves_of_table (table : list (Z * Z)) :
  flat_map leaves (map (fun '(s, f) => Leaf f s) table) = table.
Proof.
  induction table as [|[s f] table IH]; [reflexivity|].
  cbn [map flat_map leaves app]. rewrite IH. reflexivity.
Qed.

Lemma leaf_symbols_leaves (t : _Node) : leaf_symbols t = keys (leaves t).
Proof.
  induction t as [f s|f l IHl r IHr]; cbn [leaf_symbols leaves]; [reflexivity|].
  unfold keys in *. rewrite map_app, IHl, IHr. reflexivity.
Qed.

(** X11. On an empty frequency table [_build_tree] raises [IndexError];
    on any other it returns a tree whose leaves are the entries of the
    table, each once, in which every internal node carries the sum of its
    two children's frequencies, so that the root carries the total; the
    root is an internal node when the table has two entries or more. *)
Theorem build_tree_spec (table : list (Z * Z)) :
  match table with
  | [] => _build_tree table = Raise IndexError 144
  | _ =>
      exists root,
        _build_tree table = Ok root
        /\ Permutation table (leaves root)
        /\ weighted root
        /\ freq root = sumZ (values table)
        /\ ((2 <= length table)%nat -> is_branch root)
  end.
Proof.
  destruct table as [|e table0]; [reflexivity|].
  set (table := e :: table0).
  assert (NE : table <> []) by discriminate.
  destruct (build_tree_ok table NE) as (root0 & E0 & _ & B).
  unfold _build_tree in *.
  set (heap := map _ table) in *.
  assert (NEh : heap <> []) by discriminate.
  assert (Wh : Forall weighted heap).
  { apply Forall_forall. intros t Ht. apply in_map_iff in Ht.
    destruct Ht as ([s f] & <- & _). exact I. }
  destruct (heappop_ok 144 heap NEh) as (x & rest & Ep & P1).
  rewrite Ep in *. cbn [bind] in *.
  pose proof (heappush_perm lt (Leaf 0 0) rest x) as P2.
  fold (heappush rest x) in P2.
  assert (P : Permutation heap (heappush rest x))
    by (rewrite P1; exact P2).
  destruct (build_loop_weighted (length (heappush rest x)) (heappush rest x))
    as (root & El & Q & W).
  - lia.
  - intros E. rewrite E in P. apply Permutation_sym, Permutation_nil in P.
    congruence.
  - exact (Forall_perm _ _ _ P Wh).
  - rewrite El in *. cbn [bind index nth_error] in *.
    injection E0 as <-.
    assert (PL : Permutation table (leaves root)).
    { rewrite <- Q, <- (flat_leaves_perm _ _ P). subst heap.
      rewrite leaves_of_table. reflexivity. }
    exists root. split; [reflexivity|]. split; [exact PL|].
    split; [exact W|]. split; [|exact B].
    rewrite (weighted_freq root W). symmetry.
    apply Tables.sumZ_perm. unfold values. apply Permutation_map, PL.
Qed.

End TreeSpec.

(** ** The size of a Huffman blob *)

Module CodeSize.
Import Huffman Tree Canon HuffTables HuffDecode HuffSpec Pack HuffRoundTrip.
Import Accepts HuffRecord.

(** The sum of [f] over a counter, every key weighted by its count. *)
Definition wsum (f : Z -> Z) (d : list (Z * Z)) : Z :=
  sumZ (map (fun kv => snd kv * f (fst kv)) d).

Lemma wsum_set (f : Z -> Z) (d : list (Z * Z)) (s v : Z) :
  wsum f (set Z.eqb d s v) = wsum f d + (v - count d s) * f s.
Proof.
  unfold wsum, count. induction d as [|[k c] d IH]; cbn [set get].
  - cbn. lia.
  - destruct (Z.eqb_spec s k) as [->|Hne];
      cbn [map sumZ fold_right fst snd] in *.
    + fold (sumZ (map (fun kv => snd kv * f (fst kv)) d)). lia.
    + fold (sumZ (map (fun kv => snd kv * f (fst kv)) d)).
      fold (sumZ (map (fun kv => snd kv * f (fst kv)) (set Z.eqb d s v))).
      rewrite IH. lia.
Qed.

Lemma wsum_tally (f : Z -> Z) (d : list (Z * Z)) (b : byte) :
  wsum f (tally d b) = wsum f d + f (byte_val b).
Proof.
  unfold tally. pose proof (wsum_set f d (byte_val b)) as W.
  unfold count in W.
  destruct (get Z.eqb d (byte_val b)); rewrite W; lia.
Qed.

(** [Counter] counts: summing over the input is summing over its
    counter. *)
Lemma wsum_Counter (f : Z -> Z) (data : list byte) :
  wsum f (Counter data) = sumZ (map (fun b => f (byte_val b)) data).
Proof.
  unfold Counter.
  assert (G : forall l d, wsum f (fold_left tally l d)
                          = wsum f d + sumZ (map (fun b => f (byte_val b)) l)).
  { induction l as [|b l IH]; intros d; cbn [fold_left map].
    - cbn. lia.
    - rewrite IH, wsum_tally. cbn [sumZ fold_right].
      fold (sumZ (map (fun b => f (byte_val b)) l)). lia. }
  rewrite G. cbn. lia.
Qed.

Lemma len_concat (l : list (list bool)) :
  len (concat l) = sumZ (map (@len bool) l).
Proof.
  induction l as [|c l IH]; [reflexivity|].
  cbn [concat map sumZ fold_right]. fold (sumZ (map (@len bool) l)).
  rewrite len_app, IH. reflexivity.
Qed.

Lemma pack_length (bits : list bool) (bytes : list byte) :
  _pack_bits bits = Ok bytes -> len bytes = (len bits + 7) / 8.
Proof.
  intros E. destruct (pack_unpack (length bits) bits bytes) as [_ L];
    [lia | exact E|].
  unfold len. rewrite L, Nat2Z.inj_div, Nat2Z.inj_add. reflexivity.
Qed.

(** X13. The blob of an input with two distinct symbols or more has 11
    bytes of fixed fields, two bytes for each distinct symbol, the
    canonical codes of the symbols packed into bytes, and the codes of the
    input bytes packed into bytes: with [lengths] the code lengths that
    [_to_canonical] returns, its size is
    [11 + 2k + ceil(sum of lengths[s] / 8)
       + ceil(sum of count[s] * lengths[s] / 8)]. *)
Theorem huffman_blob_size (data blob : list byte) :
  (2 <= length (Counter data))%nat ->
  Huffman.encode data = Ok blob ->
  exists canon lengths,
    code_tables data = Ok (canon, lengths)
    /\ len blob
       = 11 + 2 * len (Counter data)
         + (sumZ (map (at_key lengths) (keys (Counter data))) + 7) / 8
         + (wsum (at_key lengths) (Counter data) + 7) / 8.
Proof.
  intros H2 E.
  destruct (encode_general data H2) as (canon & lengths & Hc & TS & W).
  exists canon, lengths. split; [exact Hc|].
  rewrite W in E. apply write_record_fields in E.
  destruct E as [cb tab code codes payload _ _ F _ Pc Fc _ Pp ->].
  pose proof (canon_count _ _ _ TS) as Lc.
  assert (Lt : len (concat tab) = 2 * len (Counter data)).
  { unfold len at 1. rewrite (pair_table_length _ _ F).
    apply Forall2_length in F. rewrite length_map in F.
    unfold keys in F. rewrite length_map in F.
    unfold len in *. lia. }
  assert (Tb : len (concat (map snd canon))
               = sumZ (map (at_key lengths) (keys (Counter data)))).
  { rewrite (Tables.sumZ_perm _ _
               (Permutation_map (at_key lengths) (ts_symbols _ _ _ TS))).
    rewrite len_concat. unfold keys. rewrite !map_map.
    assert (Em : map (fun x => len (snd x)) canon
                 = map (fun x => at_key lengths (fst x)) canon).
    { apply map_ext_in. intros [s c] Hin. cbn [fst snd].
      symmetry. apply (ts_lengths _ _ _ TS s c Hin). }
    rewrite Em. reflexivity. }
  assert (Pb : len (concat codes) = wsum (at_key lengths) (Counter data)).
  { rewrite wsum_Counter, len_concat. f_equal.
    pose proof (ts_lengths _ _ _ TS) as Hl. clear -Fc Hl.
    induction Fc as [|b c data0 codes H F IH]; [reflexivity|].
    cbn [map]. rewrite IH. f_equal.
    symmetry. apply (Hl (byte_val b) c). apply get_In, H. }
  rewrite !len_app, (pack_length _ _ Pc), (pack_length _ _ Pp), Lt, Tb, Pb.
  unfold len. rewrite !be_digits_length. cbn [length]. lia.
Qed.

Lemma huffman_blob_size_witness :
  exists canon lengths,
    code_tables sample = Ok (canon, lengths)
    /\ len sample_huffman_blob
       = 11 + 2 * 5
         + (sumZ (map (at_key lengths) (keys (Counter sample))) + 7) / 8
         + (wsum (at_key lengths) (Counter sample) + 7) / 8.
Proof.
  apply (huffman_blob_size sample sample_huffman_blob).
  - vm_compute. lia.
  - vm_compute. reflexivity.
Defined.

(** *** The canonical code leaves no code word unused *)

Lemma code_tables_lengths (data : list byte) :
  (2 <= length (Counter data))%nat ->
  exists canon lengths L,
    code_tables data = Ok (canon, lengths)
    /\ L < len (Counter data)
    /\ Forall (fun l => 1 <= l <= L) (code_lengths canon)
    /\ kraft L (code_lengths canon) = 2 ^ L.
Proof.
  intros H2. unfold code_tables.
  pose proof (Counter_counted data) as C.
  destruct (build_tree_ok (Counter data)) as (root & -> & P & B);
    [destruct (Counter data); [simpl in H2; lia | discriminate]|].
  specialize (B H2). cbn [bind].
  assert (ND : NoDup (leaf_symbols root))
    by (eapply Permutation_NoDup; [exact P | apply (counted_nodup _ _ C)]).
  rewrite (build_code_map_codes root [] ND).
  set (code_map := codes root []).
  assert (NDk : NoDup (keys code_map))
    by (unfold code_map; rewrite codes_keys; exact ND).
  destruct (codes_kraft root [] (height root)) as [K R];
    [right; exact B | change (len (@nil bool)) with 0; lia|].
  fold code_map in K, R. change (len (@nil bool)) with 0 in K.
  rewrite Z.sub_0_r in K.
  set (L := height root) in *.
  rewrite (to_canonical_render code_map NDk).
  pose proof (out_chain code_map NDk L K R) as [_ Fi].
  pose proof (out_lens code_map) as OL.
  pose proof (canon_pairs_lens code_map NDk) as PL.
  set (out := assign (canon_pairs code_map) 0 0) in *.
  assert (El : code_lengths (map render out) = map entry_len out).
  { unfold code_lengths. rewrite map_map. apply map_ext_in. intros e He.
    rewrite Forall_forall in Fi. apply (render_value L e (Fi e He)). }
  eexists. eexists. exists L. split; [reflexivity|].
  split; [|split].
  - pose proof (height_bound root) as HB. fold L in HB.
    replace (len (Counter data)) with (len (leaf_symbols root)); [exact HB|].
    unfold len. f_equal. rewrite <- (Permutation_length P).
    unfold keys. apply length_map.
  - rewrite El, OL. apply Forall_forall. intros l Hl.
    rewrite Forall_forall in R. apply R.
    eapply Permutation_in; [exact PL | exact Hl].
  - rewrite El, OL, (kraft_perm L _ _ PL). exact K.
Qed.

(** X12. For an input with [k >= 2] distinct symbols the canonical code
    is complete: every code has between 1 and [k - 1] bits, and the codes
    fill the code space exactly (for some [L < k] that bounds the
    lengths, the sum of [2^(L - length)] over the codes is [2^L]). *)
Theorem canonical_code_complete (data : list byte) :
  (2 <= length (Counter data))%nat ->
  exists canon lengths L,
    code_tables data = Ok (canon, lengths)
    /\ L < len (Counter data)
    /\ (forall s c, In (s, c) canon -> 1 <= len c <= L)
    /\ sumZ (map (fun kv => 2 ^ (L - len (snd kv))) canon) = 2 ^ L.
Proof.
  intros H2.
  destruct (code_tables_lengths data H2) as (canon & lengths & L & E & B & R & K).
  exists canon, lengths, L. split; [exact E|]. split; [exact B|]. split.
  - intros s c Hin. rewrite Forall_forall in R. apply R.
    unfold code_lengths. apply in_map_iff. exists (s, c). auto.
  - unfold kraft, code_lengths in K. rewrite map_map in K. exact K.
Qed.

Lemma canonical_code_complete_witness :
  exists canon lengths L,
    code_tables sample = Ok (canon, lengths)
    /\ L < 5
    /\ (forall s c, In (s, c) canon -> 1 <= len c <= L)
    /\ sumZ (map (fun kv => 2 ^ (L - len (snd kv))) canon) = 2 ^ L.
Proof.
  apply (canonical_code_complete sample). vm_compute. lia.
Defined.

End CodeSize.

(** ** [main.py]: measuring a coder *)

Module Main.
Import String.

(** What [measure] uses of a coder: an instance with [name], [encode]
    and [decode]. *)
Record coder : Type := mkCoder {
  name : String.string;
  encode : list byte -> result (list byte);
  decode : list byte -> result (list byte)
}.

Definition HuffmanCoder : coder :=
  mkCoder "Huffman"%string Huffman.encode Huffman.decode.

Definition ArithmeticCoder : coder :=
  mkCoder "Arithmetic"%string Arithmetic.encode Arithmetic.decode.

Section Measure.

(** Python floats are left abstract, with the two roundings [measure]
    makes: [round((t1 - t0) * 1000, 3)] and [round(peak / 1024, 2)]. *)
Variable float : Type.
Variable elapsed_ms : float -> float -> float.
Variable mem_kb : Z -> float.

Inductive value : Type :=
| Int (z : Z)
| Float (x : float).

(** What the runtime answers during one call: the four readings of
    [time.perf_counter] and the two peaks of [tracemalloc]. *)
Record readings : Type := mkReadings {
  t0 : float; t1 : float; peak_enc : Z;
  t2 : float; t3 : float; peak_dec : Z
}.

(** [measure(coder, data, verify)]: the dict returned, in insertion
    order. *)
Definition measure (c : coder) (data : list byte) (verify : bool)
    (r : readings) : result (list (String.string * value)) :=
  encoded <- encode c data ;;
  let out := [("compressed_size"%string, Int (len encoded));
              ("compression_time_ms"%string, Float (elapsed_ms (t0 r) (t1 r)));
              ("compression_mem_kb"%string, Float (mem_kb (peak_enc r)))] in
  if verify then
    decoded <- decode c encoded ;;
    if list_eq_dec Byte.byte_eq_dec decoded data then
      let out := set String.eqb out "decompressed_size"%string
                     (Int (len decoded)) in
      Ok (update String.eqb out
            [("decompression_time_ms"%string,
              Float (elapsed_ms (t2 r) (t3 r)));
             ("decompression_mem_kb"%string, Float (mem_kb (peak_dec r)))])
    else Raise ValueError 74
  else Ok out.

End Measure.

Arguments Int {float} z.
Arguments Float {float} x.

Section Verified.
Variable float : Type.
Variable elapsed_ms : float -> float -> float.
Variable mem_kb : Z -> float.

Lemma measure_round_trip (c : coder) (data blob : list byte)
    (r : readings float) :
  encode c data = Ok blob -> decode c blob = Ok data ->
  exists out,
    measure float elapsed_ms mem_kb c data true r = Ok out
    /\ Py.get String.eqb out "compressed_size"%string = Some (Int (len blob))
    /\ Py.get String.eqb out "decompressed_size"%string = Some (Int (len data)).
Proof.
  intros E D. unfold measure. rewrite E. cbn [bind]. rewrite D. cbn [bind].
  destruct (list_eq_dec Byte.byte_eq_dec data data) as [_|N]; [|congruence].
  eexists. split; [reflexivity|]. split; reflexivity.
Qed.

(** X14. With [verify] on, [measure] returns its metrics for either coder
    on every input of at most [2^24] bytes that misses a byte value: no
    error is raised, the round-trip check of line 73 passes, and the
    sizes reported are those of the blob and of the input. *)
Theorem measure_verifies (data : list byte) (r : readings float) :
  (List.length (Counter data) <= 255)%nat -> len data <= 2 ^ 24 ->
  forall c, c = HuffmanCoder \/ c = ArithmeticCoder ->
  exists blob out,
    encode c data = Ok blob
    /\ measure float elapsed_ms mem_kb c data true r = Ok out
    /\ Py.get String.eqb out "compressed_size"%string = Some (Int (len blob))
    /\ Py.get String.eqb out "decompressed_size"%string = Some (Int (len data)).
Proof.
  intros K L c Hc.
  assert (L32 : len data < 2 ^ 32) by (change (2 ^ 32) with (256 * 2 ^ 24); lia).
  assert (E : exists blob, encode c data = Ok blob /\ decode c blob = Ok data).
  { destruct Hc as [-> | ->]; cbn [encode decode HuffmanCoder ArithmeticCoder].
    - apply HuffRecord.huffman_round_trip_all; try assumption.
      + assert (0 <= len data) by (unfold len; lia).
        change (2 ^ 32) with (256 * 2 ^ 24). nia.
      + intros _. change (2 ^ 24) with 16777216 in L. lia.
    - destruct (Accepts.arithmetic_accepts_all data K L32) as [blob E].
      exists blob. split; [exact E|].
      apply ArithRoundTrip.arithmetic_round_trip_all; [|exact E].
      change (2 ^ 30) with (64 * 2 ^ 24). lia. }
  destruct E as (blob & E & D).
  destruct (measure_round_trip c data blob r E D) as (out & M & G1 & G2).
  exists blob, out. auto.
Qed.

End Verified.

Lemma measure_verifies_witness :
  let r := mkReadings Z 10 25 4096 30 50 2048 in
  exists blob out,
    encode ArithmeticCoder sample = Ok blob
    /\ measure Z (fun a b => (b - a) * 1000) (fun p => p / 1024)
               ArithmeticCoder sample true r = Ok out
    /\ Py.get String.eqb out "compressed_size"%string = Some (Int (len blob))
    /\ Py.get String.eqb out "decompressed_size"%string = Some (Int 11).
Proof.
  intros r.
  apply (measure_verifies Z (fun a b => (b - a) * 1000) (fun p => p / 1024)
           sample r).
  - vm_compute. lia.
  - vm_compute. discriminate.
  - right. reflexivity.
Defined.

End Main.
(** ** The run of the arithmetic encoder *)

Import Arithmetic Interval Tables EncRun Sink DecRun ArithHeader.
Import ArithRoundTrip Accepts.

Lemma enc_loop_app (freq cum : list (Z * Z)) (total : Z)
    (l1 l2 : list byte) (st : enc_state) :
  enc_loop freq cum total st (l1 ++ l2)
  = (st' <- enc_loop freq cum total st l1 ;;
     enc_loop freq cum total st' l2).
Proof.
  revert st. induction l1 as [|b l1 IH]; intros st; [reflexivity|].
  cbn [app enc_loop].
  destruct (enc_symbol freq cum total st b) as [st1|e l]; cbn [bind];
    [apply IH | reflexivity].
Qed.

(** The state narrowing gives for a byte whose cumulative count is [c]. *)
Definition narrowed (freq : list (Z * Z)) (total c : Z) (b : byte)
    (st : enc_state) : enc_state :=
  let r := high st - low st + 1 in
  let low' := low st + r * c / total in
  mkEnc low' (low' + r * count freq (byte_val b) / total - 1)
        (pending st) (bout st).

(** The body of the loop, for a byte of the input in any state: it never
    raises. *)
Lemma enc_symbol_spec (data : list byte) (b : byte) (st : enc_state) :
  In b data ->
  let freq := Counter data in
  let total := snd (fst (enc_tables freq)) in
  let cum := snd (enc_tables freq) in
  exists c st2,
    get Z.eqb cum (byte_val b) = Some c
    /\ 0 < total
    /\ enc_narrow freq cum total (byte_val b) st
       = Ok (narrowed freq total c b st)
    /\ enc_renorm renorm_fuel (narrowed freq total c b st) = Some st2
    /\ enc_symbol freq cum total st b = Ok st2.
Proof.
  intros Hin freq total cum.
  pose proof (enc_tables_partition data) as H. cbv zeta in H.
  subst total cum. fold freq in H.
  destruct (enc_tables freq) as [[symbols total] cum]. cbn [fst snd].
  destruct H as (T & P & Q).
  assert (Hb : In (byte_val b) symbols).
  { eapply Permutation_in; [exact P|]. apply Counter_keys, Hin. }
  destruct (Q _ Hb) as (c & f & Gc & F & C0 & F1 & CF).
  assert (N : enc_narrow freq cum total (byte_val b) st
              = Ok (narrowed freq total c b st))
    by (apply enc_narrow_value; [exact Gc | lia]).
  destruct (enc_renorm_total (narrowed freq total c b st)) as [st2 E].
  exists c, st2. split; [exact Gc|]. split; [lia|]. split; [exact N|].
  split; [exact E|]. unfold enc_symbol. rewrite N. cbn [bind].
  rewrite E. reflexivity.
Qed.

Lemma enc_loop_incl (data rest : list byte) (st : enc_state) :
  incl rest data ->
  let freq := Counter data in
  exists st',
    enc_loop freq (snd (enc_tables freq)) (snd (fst (enc_tables freq)))
             st rest = Ok st'.
Proof.
  intros Hin freq. revert st Hin.
  induction rest as [|b rest IH]; intros st Hin; [eexists; reflexivity|].
  destruct (enc_symbol_spec data b st (Hin b (or_introl eq_refl)))
    as (c & st2 & _ & _ & _ & _ & Es).
  cbv zeta in Es. fold freq in Es. cbn [enc_loop]. rewrite Es. cbn [bind].
  apply IH. intros x Hx. apply Hin. right. exact Hx.
Qed.

(** Lines 128-129 in one step. *)
Lemma enc_final_value (stf : enc_state) :
  let bit := if low stf <? 2 ^ 30 then 0 else 1 in
  enc_final stf
  = mkEnc (low stf) (high stf) 0
          (bout stf ++ bit :: repeat (1 - bit) (Z.to_nat (pending stf + 1))).
Proof.
  cbv zeta. unfold enc_final, emit, _BitOut.put, _BitOut.extend.
  cbn [low high pending bout]. change _QTR with (2 ^ 30).
  destruct (Z.eqb_spec (pending stf + 1) 0) as [E|E].
  - rewrite E. cbn [Z.to_nat repeat].
    destruct (low stf <? 2 ^ 30); reflexivity.
  - rewrite <- app_assoc.
    destruct (low stf <? 2 ^ 30); reflexivity.
Qed.

(** With two distinct symbols or more, nothing but the header fields of
    lines 134 and 135 can make [encode] raise. *)
Lemma arithmetic_encode_raises (data : list byte) (e : exn) (l : nat) :
  (2 <= length (Counter data))%nat ->
  Arithmetic.encode data = Raise e l ->
  (e = OverflowError /\ l = 134%nat) \/ (e = ValueError /\ l = 135%nat).
Proof.
  intros H2 E.
  destruct (Z.lt_ge_cases (len data) (2 ^ 32)) as [Lt|Ge].
  - destruct (Nat.le_gt_cases (length (Counter data)) 255) as [K|K].
    + destruct (arithmetic_accepts data (conj H2 K) Lt) as [blob Eb].
      congruence.
    + right. destruct (arithmetic_encode_general data H2) as [cb Eg].
      rewrite Eg in E.
      rewrite to_bytes_ok in E
        by (change (256 ^ Z.of_nat 4) with (2 ^ 32); unfold len in *; lia).
      cbn [bind] in E. unfold bytes_of_ints at 1 in E. cbn [mapM] in E.
      unfold byte_of_int at 1 in E.
      rewrite mk_byte_out_of_range in E by lia.
      cbn [bind] in E. injection E as <- <-. split; reflexivity.
  - left. destruct (length_overflow data H2 Ge) as [_ Eo].
    rewrite Eo in E. injection E as <- <-. split; reflexivity.
Qed.

(** C2. In the arithmetic encoder, for each byte [b] of the input, with
    [r = high - low + 1] in the state [st] the loop has reached, the body
    of the loop narrows the interval: [low] moves up by the exact floor of
    [r * cum[b] / total], then [high] is set to the new [low] plus the
    exact floor of [r * freq[b] / total], minus 1; the renormalisation of
    the narrowed state gives the state for the next byte.  After the last
    byte [pending] is incremented and one final bit is emitted, 0 if
    [low < 2^30] and 1 otherwise, followed by the pending bits as its
    complement, and [finish] packs these bits.  For an input with two
    distinct symbols or more (any other is written without an interval)
    they are what follows the header in the blob [encode] returns; when
    [encode] raises, it does so after all this, writing the header. *)
Theorem encoder_narrowing_and_final_bit (data : list byte) :
  let freq := Counter data in
  let total := snd (fst (enc_tables freq)) in
  let cum := snd (enc_tables freq) in
  (forall pre b post,
     data = pre ++ b :: post ->
     exists st c st1 st2,
       enc_loop freq cum total enc_init pre = Ok st
       /\ get Z.eqb cum (byte_val b) = Some c
       /\ enc_narrow freq cum total (byte_val b) st = Ok st1
       /\ (let r := high st - low st + 1 in
           low st1 = low st + r * c / total
           /\ is_floor (low st1 - low st) (r * c) total
           /\ high st1 = low st1 + r * count freq (byte_val b) / total - 1
           /\ is_floor (high st1 - low st1 + 1)
                       (r * count freq (byte_val b)) total)
       /\ pending st1 = pending st /\ bout st1 = bout st
       /\ enc_renorm renorm_fuel st1 = Some st2
       /\ enc_symbol freq cum total st b = Ok st2
       /\ enc_loop freq cum total enc_init (pre ++ [b]) = Ok st2)
  /\ exists stf code_bits,
       enc_loop freq cum total enc_init data = Ok stf
       /\ (let bit := if low stf <? 2 ^ 30 then 0 else 1 in
           let code := bout stf ++ bit
                         :: repeat (1 - bit) (Z.to_nat (pending stf + 1)) in
           enc_final stf = mkEnc (low stf) (high stf) 0 code
           /\ _BitOut.finish code = Ok code_bits)
       /\ ((2 <= length freq)%nat ->
           (forall blob,
              Arithmetic.encode data = Ok blob ->
              exists hdr, blob = hdr ++ code_bits
                          /\ length hdr = (5 + 5 * length freq)%nat)
           /\ (forall e l,
                 Arithmetic.encode data = Raise e l ->
                 (e = OverflowError /\ l = 134%nat)
                 \/ (e = ValueError /\ l = 135%nat))).
Proof.
  intros freq total cum. split.
  - intros pre b post E.
    assert (Hpre : incl pre data)
      by (intros x Hx; rewrite E; apply in_or_app; left; exact Hx).
    assert (Hb : In b data)
      by (rewrite E; apply in_or_app; right; left; reflexivity).
    destruct (enc_loop_incl data pre enc_init Hpre) as [st Est].
    cbv zeta in Est. fold freq total cum in Est.
    destruct (enc_symbol_spec data b st Hb) as (c & st2 & G & T & N & R & Es).
    cbv zeta in G, T, N, R, Es. fold freq total cum in G, T, N, R, Es.
    exists st, c, (narrowed freq total c b st), st2.
    split; [exact Est|]. split; [exact G|]. split; [exact N|].
    split; [|split; [reflexivity|split; [reflexivity|split; [exact R|
      split; [exact Es|]]]]].
    + cbv zeta. unfold narrowed. cbn [low high].
      split; [reflexivity|]. split; [|split; [reflexivity|]].
      * replace (low st + (high st - low st + 1) * c / total - low st)
          with ((high st - low st + 1) * c / total) by ring.
        apply floor_div, T.
      * match goal with |- is_floor ?q _ _ =>
          replace q
            with ((high st - low st + 1) * count freq (byte_val b) / total)
            by ring end.
        apply floor_div, T.
    + rewrite enc_loop_app, Est. cbn [bind enc_loop]. rewrite Es. reflexivity.
  - destruct (enc_loop_incl data data enc_init (incl_refl _)) as [stf Est].
    cbv zeta in Est. fold freq total cum in Est.
    destruct (finish_ok (bout (enc_final stf))) as [code_bits Ef].
    { apply enc_final_bits. apply (enc_loop_bits _ _ _ _ _ _ Est).
      constructor. }
    exists stf, code_bits. split; [exact Est|].
    pose proof (enc_final_value stf) as V. cbv zeta in V.
    split; [cbv zeta; split; [exact V | rewrite V in Ef; exact Ef]|].
    intros H2. split.
    + intros blob E.
      destruct (encode_parts data blob H2 E)
        as (st' & cb' & cnt & h_tab & Est' & Ef' & _ & _ & F & ->).
      cbv zeta in Est', F. fold freq total cum in Est'.
      assert (st' = stf) by congruence. subst st'.
      assert (cb' = code_bits) by congruence. subst cb'.
      exists (be_digits 4 (len data) ++ [cnt] ++ concat h_tab).
      split; [rewrite <- !app_assoc; reflexivity|].
      rewrite !length_app, be_digits_length, (entries_length _ _ F).
      rewrite <- (Forall2_length F), length_map, arithmetic_symbols_length.
      cbn [length]. unfold freq. lia.
    + intros e l E. exact (arithmetic_encode_raises data e l H2 E).
Qed.

Lemma encoder_narrowing_and_final_bit_witness :
  (exists st1,
     enc_narrow (Counter sample) (snd (enc_tables (Counter sample)))
                (snd (fst (enc_tables (Counter sample)))) 97 enc_init
     = Ok st1
     /\ low st1 = 0 /\ high st1 = 2 ^ 32 * 5 / 11 - 1)
  /\ exists hdr code_bits,
       sample_arithmetic_blob = hdr ++ code_bits
       /\ length hdr = 30%nat /\ length code_bits = 3%nat.
Proof.
  destruct (encoder_narrowing_and_final_bit sample) as [B F]. split.
  - destruct (B [] x61 (skipn 1 sample) eq_refl)
      as (st & c & st1 & st2 & Est & G & N & (L & _ & H & _) & _).
    injection Est as <-. vm_compute in G. injection G as <-.
    exists st1. split; [exact N|]. split.
    + rewrite L. reflexivity.
    + rewrite H, L. reflexivity.
  - destruct F as (stf & code_bits & _ & _ & Hb).
    destruct Hb as [Hb _]; [vm_compute; lia|].
    destruct (Hb sample_arithmetic_blob eq_refl) as (hdr & E & Lh).
    change (length hdr = 30%nat) in Lh.
    exists hdr, code_bits. split; [exact E|]. split; [exact Lh|].
    assert (L : length sample_arithmetic_blob = 33%nat) by reflexivity.
    rewrite E, length_app, Lh in L. lia.
Defined.

(** C5, amended. For an input of at most [2^30] bytes the encoding loop
    runs to its end, and throughout it, at every step (after each
    narrowing and after each pass of the renormalisation loop), the bounds
    satisfy [0 <= low <= high <= 2^32 - 1]; each time the renormalisation
    loop is left the width [high - low + 1] is at least [2^30].  When the
    input has between 2 and 255 distinct symbols, [encode] returns a blob
    and the same holds throughout the decoding of it, which completes and
    returns as many bytes as the input has.  (With 256 distinct symbols
    there is no blob; with fewer than two the blob is empty or a RUN
    record, and is decoded without an interval.) *)
Theorem interval_invariant (data : list byte) :
  len data <= 2 ^ 30 ->
  let freq := Counter data in
  let total := snd (fst (enc_tables freq)) in
  let ecum := snd (enc_tables freq) in
  (exists st, enc_loop freq ecum total enc_init data = Ok st
              /\ enc_reach freq ecum total data (AtSymbol, [], st))
  /\ (forall ph rest st,
        enc_reach freq ecum total data (ph, rest, st) ->
        (0 <= low st <= high st /\ high st <= 2 ^ 32 - 1)
        /\ (ph = AtSymbol -> 2 ^ 30 <= high st - low st + 1))
  /\ ((2 <= length freq <= 255)%nat ->
      exists blob h cum,
        Arithmetic.encode data = Ok blob
        /\ parse_header blob = Ok h
        /\ dec_cum (h_symbols h) (h_freq h) = Ok cum
        /\ (exists out, Arithmetic.decode blob = Ok out
                        /\ length out = length data)
        /\ forall ph k s st,
             dec_reach h cum blob (ph, k, s, st) ->
             (0 <= d_low st <= d_high st /\ d_high st <= 2 ^ 32 - 1)
             /\ (ph = AtSymbol -> 2 ^ 30 <= d_high st - d_low st + 1)).
Proof.
  intros Hlen freq total ecum. split; [|split].
  - exact (enc_loop_reach data Hlen data enc_init (enc_reach_start _ _ _ _)).
  - intros ph rest st R.
    destruct (enc_inv_reach data Hlen _ R) as (_ & P & W). split; assumption.
  - intros [H2 K].
    destruct (arithmetic_accepts data (conj H2 K)) as [blob E]; [lia|].
    destruct (ArithHeader.encode_header data blob H2 Hlen E)
      as (h & cum & Hp & Hc & Hok & Hn & Hrun).
    exists blob, h, cum. split; [exact E|].
    split; [exact Hp|]. split; [exact Hc|]. split.
    + destruct (dec_loop_reach blob h cum Hp Hc Hok _ _ _
                  (dec_reach_start h cum blob)) as (out & Eo & Lo).
      exists out. unfold Arithmetic.decode.
      destruct blob as [|b0 blob0]; [discriminate|].
      rewrite Hrun, Hp. cbn [bind]. rewrite Hc. cbn [bind].
      split; [exact Eo|]. rewrite Lo, Hn. unfold len. apply Nat2Z.id.
    + intros ph k s st R.
      destruct (dec_inv_reach blob h cum Hp Hc Hok _ R) as (P & W).
      split; assumption.
Qed.

Lemma interval_invariant_witness :
  (exists st,
     enc_loop (Counter sample) (snd (enc_tables (Counter sample)))
              (snd (fst (enc_tables (Counter sample)))) enc_init sample
     = Ok st)
  /\ (exists out, Arithmetic.decode sample_arithmetic_blob = Ok out
                  /\ length out = 11%nat).
Proof.
  destruct (interval_invariant sample)
    as [[st [Est _]] [_ D]]; [vm_compute; discriminate|].
  split; [exists st; exact Est|].
  destruct D as (blob & h & cum & E & _ & _ & Do & _); [vm_compute; lia|].
  assert (Eb : blob = sample_arithmetic_blob).
  { vm_compute in E. injection E as <-. reflexivity. }
  rewrite <- Eb. exact Do.
Defined.
